(** * polluSens: configurable serial frame decoding

    A shallow embedding of [polluSensSerial.js] (class [PolluSensSerial]) and
    of its browser variant [pollusens.js] (class [PolluSens]):

    - [Js]:       the JavaScript values and coercions the formulas rely on;
    - [Formula]:  [evalSafe], the text of a formula compiled and run by the
                  [Function] constructor;
    - [Config]:   [loadConfig] and its local function [resolveInheritance];
    - [Session]:  the session object, [handleFrame], the read loop of
                  [startReadLoop], [readNext], [disconnect] and
                  [disconnectAndCleanup];
    - [Trace]:    what can be observed of a run;
    - [Scenario]: the descriptors, entries and sessions of the examples.

    The properties follow, numbered as the claims of the specification are. *)

From Stdlib Require Import ZArith String Ascii List Bool Lia Strings.Byte.
From Stdlib Require Import Floats.SpecFloat.
From stdpp Require Import base option list gmap strings.
Import ListNotations.

Local Open Scope Z_scope.

(** ** Exceptions and results *)

(** The exceptions the modelled code can raise.  [TypeError] carries a short
    description of the faulting operation; the text of [e.message] is the
    engine's and is kept abstract behind the exception value. *)
Inductive exn : Type :=
| SyntaxError
| ReferenceError (x : string)
| TypeError (what : string)
| Error (message : string).

Inductive result (A : Type) : Type :=
| Ok (a : A)
| Throw (e : exn).
Arguments Ok {A} a.
Arguments Throw {A} e.

#[global] Instance result_ret : MRet result := fun _ a => Ok a.
#[global] Instance result_bind : MBind result := fun _ _ k r =>
  match r with
  | Ok a => k a
  | Throw e => Throw e
  end.

(** Where a loop or a recursion of the source need not end, the model takes
    fuel and says so when it runs out. *)
Inductive outcome (A : Type) : Type :=
| Returns (a : A)
| Throws (e : exn)
| OutOfFuel.
Arguments Returns {A} a.
Arguments Throws {A} e.
Arguments OutOfFuel {A}.

(** The own properties of an object, in the order of their creation, each
    key once.  (The order of enumeration is that of [Session.entries].) *)
Definition obj (A : Type) : Type := list (string * A).

(** [o[x]] on own properties. *)
Fixpoint assoc {A} (x : string) (l : obj A) : option A :=
  match l with
  | [] => None
  | (y, a) :: l' => if String.eqb x y then Some a else assoc x l'
  end.

(** ** JavaScript values *)

Module Js.

(** Numbers are the binary64 numbers of IEEE 754, with the operations of
    the standard library's [SpecFloat], which round to nearest, ties to
    even. *)
Definition prec : Z := 53.
Definition emax : Z := 1024.

(** The number an integer becomes: the nearest one. *)
Definition of_Z (n : Z) : spec_float := binary_normalize prec emax n 0 false.

(** The number nearest to [p / q], for [0 <= p] and [0 < q]. *)
Definition ratio (p q : Z) : spec_float :=
  if p =? 0 then S754_zero false
  else
    let '(mz, ez, lz) := SFdiv_core_binary prec emax p 0 q 0 in
    binary_round_aux prec emax false mz ez lz.

(** The integer a number is, when it is one; [-0] is none. *)
Definition integral (f : spec_float) : option Z :=
  match f with
  | S754_zero false => Some 0
  | S754_finite s m e =>
      if 0 <=? e then Some (cond_Zopp s (Z.shiftl (Zpos m) e))
      else if Zpos m mod 2 ^ (- e) =? 0
           then Some (cond_Zopp s (Z.shiftr (Zpos m) (- e)))
           else None
  | _ => None
  end.

(** A number cut off towards zero; 0 for NaN and the infinities. *)
Definition truncate (f : spec_float) : Z :=
  match f with
  | S754_finite s m e =>
      cond_Zopp s (if 0 <=? e then Z.shiftl (Zpos m) e
                   else Z.shiftr (Zpos m) (- e))
  | _ => 0
  end.

(** The integer that the number nearest to an integer is: the integer
    itself below 2^53, else the nearest multiple of the power of two that
    leaves 53 bits, ties to even.  (Past the largest number the nearest
    number is an infinity; its place is taken here by a multiple of
    2^971.) *)
Definition nearest_double (n : Z) : Z :=
  let m := Z.abs n in
  if m <? 2 ^ 53 then n
  else
    let e := Z.log2 m - 52 in
    let q := Z.shiftr m e in
    let r := m - Z.shiftl q e in
    let half := 2 ^ (e - 1) in
    let q' := if (half <? r) || ((r =? half) && Z.odd q) then q + 1 else q in
    Z.sgn n * Z.shiftl q' e.

(** [x % y]: the remainder has the sign of the dividend and is exact. *)
Definition SFrem (x y : spec_float) : spec_float :=
  match x, y with
  | S754_nan, _ | _, S754_nan => S754_nan
  | S754_infinity _, _ => S754_nan
  | _, S754_zero _ => S754_nan
  | _, S754_infinity _ => x
  | S754_zero _, _ => x
  | S754_finite sx mx ex, S754_finite _ my ey =>
      let e := Z.min ex ey in
      let r := Z.rem (Z.shiftl (Zpos mx) (ex - e))
                 (Z.shiftl (Zpos my) (ey - e)) in
      binary_normalize prec emax (cond_Zopp sx r) e sx
  end.

(** The values a formula of the modelled fragment can produce.  A number
    that is an integer is [VNum]; every other number (a fraction, [-0], an
    infinity, NaN) is [VFloat].  Then [undefined], [null], the booleans, an
    array of bytes and an object none of whose properties a formula can read
    (a browser's [window] without sub-frames is one).  Arrays and objects
    are references: two of them are the same when their references are.
    Strings are not among the values: an operation that gives one is outside
    the fragment. *)
Inductive value : Type :=
| VNum (n : Z)
| VUndef
| VArr (ref : nat) (elems : list byte)
| VObj (ref : nat)
| VFloat (f : spec_float)
| VBool (b : bool)
| VNull.

Definition byte_to_Z (b : byte) : Z := Z.of_N (Byte.to_N b).

(** The value of a number. *)
Definition number_value (f : spec_float) : value :=
  match integral f with
  | Some n => VNum n
  | None => VFloat f
  end.

(** ToNumber: [undefined] and objects give NaN, an array goes through its
    string form ([[]] is 0, [[b]] is [b]). *)
Definition to_number (v : value) : spec_float :=
  match v with
  | VNum n => of_Z n
  | VFloat f => f
  | VUndef => S754_nan
  | VNull => S754_zero false
  | VBool b => if b then of_Z 1 else S754_zero false
  | VArr _ [] => S754_zero false
  | VArr _ [b] => of_Z (byte_to_Z b)
  | VArr _ _ => S754_nan
  | VObj _ => S754_nan
  end.

(** ToBoolean. *)
Definition to_boolean (v : value) : bool :=
  match v with
  | VNum n => negb (n =? 0)
  | VFloat f =>
      match f with
      | S754_nan | S754_zero _ => false
      | _ => true
      end
  | VUndef | VNull => false
  | VBool b => b
  | VArr _ _ | VObj _ => true
  end.

Definition is_number (v : value) : bool :=
  match v with
  | VNum _ | VFloat _ => true
  | _ => false
  end.

Definition is_object (v : value) : bool :=
  match v with
  | VArr _ _ | VObj _ => true
  | _ => false
  end.

(** [a === b]: numbers by their value (NaN equals nothing, the two zeros
    are equal), arrays and objects by reference. *)
Definition strict_eq (a b : value) : bool :=
  match a, b with
  | VNum x, VNum y => x =? y
  | VNum _, VFloat _ | VFloat _, VNum _ | VFloat _, VFloat _ =>
      SFeqb (to_number a) (to_number b)
  | VUndef, VUndef => true
  | VNull, VNull => true
  | VBool x, VBool y => Bool.eqb x y
  | VArr r _, VArr s _ => Nat.eqb r s
  | VObj r, VObj s => Nat.eqb r s
  | _, _ => false
  end.

(** Equal values, as the strict equality of the language defines them:
    numbers that are the same number (NaN is no number's equal, and the two
    zeros are each other's), [undefined], [null], the same boolean, the same
    array, the same object. *)
Inductive identical : value -> value -> Prop :=
| identical_integer (n : Z) : identical (VNum n) (VNum n)
| identical_left (f : spec_float) (b : value) :
    is_number b = true ->
    SFcompare f (to_number b) = Some Eq ->
    identical (VFloat f) b
| identical_right (n : Z) (f : spec_float) :
    SFcompare (of_Z n) f = Some Eq ->
    identical (VNum n) (VFloat f)
| identical_undefined : identical VUndef VUndef
| identical_null : identical VNull VNull
| identical_boolean (b : bool) : identical (VBool b) (VBool b)
| identical_array (r : nat) (l l' : list byte) :
    identical (VArr r l) (VArr r l')
| identical_object (r : nat) : identical (VObj r) (VObj r).

(** [a == b]: [undefined] and [null] equal each other and nothing else,
    two objects are compared by reference, and everything else as numbers
    (an object through its string form). *)
Definition loose_eq (a b : value) : bool :=
  match a, b with
  | (VUndef | VNull), (VUndef | VNull) => true
  | (VUndef | VNull), _ | _, (VUndef | VNull) => false
  | (VArr _ _ | VObj _), (VArr _ _ | VObj _) => strict_eq a b
  | _, _ => SFeqb (to_number a) (to_number b)
  end.

(** ToInt32 and ToUint32 of an integer. *)
Definition wrap32 (n : Z) : Z := (n + 2 ^ 31) mod 2 ^ 32 - 2 ^ 31.
Definition wrapU32 (n : Z) : Z := n mod 2 ^ 32.

Definition to_int32 (v : value) : Z := wrap32 (truncate (to_number v)).

Definition to_uint32 (v : value) : Z := wrapU32 (truncate (to_number v)).

(** The arithmetic operators other than [+], on the numbers of their
    operands. *)
Definition arith (op : spec_float -> spec_float -> spec_float)
    (a b : value) : value :=
  number_value (op (to_number a) (to_number b)).

(** [a + b] is a sum of numbers unless an operand is an array or an object:
    then it is a string, outside the fragment, and refused as malformed text
    is. *)
Definition addition (a b : value) : result value :=
  if is_object a || is_object b then Throw SyntaxError
  else Ok (arith (SFadd prec emax) a b).

(** [a < b], [a > b], [a <= b] and [a >= b] compare numbers unless both
    operands are arrays or objects: then they compare strings, outside the
    fragment.  A comparison with NaN is false. *)
Definition relational (test : spec_float -> spec_float -> bool) (a b : value)
  : result value :=
  if is_object a && is_object b then Throw SyntaxError
  else Ok (VBool (test (to_number a) (to_number b))).

(** [l[i]] on an array for an integer key: [undefined] out of range. *)
Definition arr_get (l : list byte) (i : Z) : value :=
  if i <? 0 then VUndef
  else match nth_error l (Z.to_nat i) with
       | Some b => VNum (byte_to_Z b)
       | None => VUndef
       end.

(** [base[key]].  Reading a property of [undefined] or [null] throws; a
    property key is the string form of the key value, so only a number (with
    [-0] for 0), or an array holding one number, names an element. *)
Definition get_index (base key : value) : result value :=
  match base with
  | VUndef => Throw (TypeError "Cannot read properties of undefined")
  | VNull => Throw (TypeError "Cannot read properties of null")
  | VArr _ l =>
      match key with
      | VNum i => Ok (arr_get l i)
      | VFloat (S754_zero _) => Ok (arr_get l 0)
      | VArr _ [b] => Ok (arr_get l (byte_to_Z b))
      | _ => Ok VUndef
      end
  | VNum _ | VFloat _ | VBool _ | VObj _ => Ok VUndef
  end.

End Js.

(** ** Formulas: [evalSafe] *)

Module Formula.
Import Js.

(** [evalSafe] hands the text [return (<expr>)] to the [Function]
    constructor, which compiles it as the body of a function in sloppy mode.
    The model compiles that text itself, for a fragment of JavaScript's
    expressions:

    - numeric literals: decimal with fraction and exponent, hexadecimal,
      octal and binary after [0x], [0o] and [0b], and the legacy forms that
      start with [0]; [true], [false], [null]; the globals [undefined],
      [NaN] and [Infinity];
    - identifiers, indexing [e[e]], parentheses;
    - the unary [-], [+], [!], [~];
    - [*], [/], [%]; [+], [-]; [<<], [>>], [>>>]; [<], [>], [<=], [>=];
      [==], [!=], [===], [!==]; [&], [^], [|]; [&&], [||]; [? :],
      with JavaScript's precedences.

    Text outside this fragment (strings, calls, property names after a dot,
    assignments, [**], [??], the comma, comments, the keywords, characters
    outside ASCII) is not modelled: it is refused as malformed text is. *)

Inductive expr : Type :=
| ENum (n : Z)
| EVar (x : string)
| EIndex (e i : expr)
| ENot (e : expr)
| EAnd (a b : expr)
| EXor (a b : expr)
| EOr (a b : expr)
| EShl (a b : expr)
| EShr (a b : expr)
| EUshr (a b : expr)
| EFloat (f : spec_float)
| EBool (b : bool)
| ENull
| ENeg (e : expr)
| EPos (e : expr)
| ELNot (e : expr)
| EMul (a b : expr)
| EDiv (a b : expr)
| ERem (a b : expr)
| EAdd (a b : expr)
| ESub (a b : expr)
| ELt (a b : expr)
| EGt (a b : expr)
| ELe (a b : expr)
| EGe (a b : expr)
| EEq (a b : expr)
| ENe (a b : expr)
| ESeq (a b : expr)
| ESne (a b : expr)
| EAndAnd (a b : expr)
| EOrOr (a b : expr)
| ECond (c a b : expr).

Inductive token : Type :=
| TNum (n : Z)
| TId (x : string)
| TReturn
| TLBrack | TRBrack | TLParen | TRParen
| TTilde | TAmp | TCaret | TBar
| TShl | TShr | TUshr
| TFloat (f : spec_float)
| TTrue | TFalse | TNull
| TPlus | TMinus | TStar | TSlash | TPercent
| TLt | TGt | TLe | TGe
| TEqEq | TNotEq | TEqEqEq | TNotEqEq
| TBang | TAndAnd | TOrOr | TQuestion | TColon.

(** *** Lexer *)

Definition code (c : ascii) : N := N_of_ascii c.

Definition is_space (c : ascii) : bool :=
  let n := code c in
  ((n =? 32) || ((9 <=? n) && (n <=? 13)))%N.

Definition is_digit (c : ascii) : bool :=
  let n := code c in ((48 <=? n) && (n <=? 57))%N.

Definition is_ident_start (c : ascii) : bool :=
  let n := code c in
  (((65 <=? n) && (n <=? 90)) || ((97 <=? n) && (n <=? 122))
   || (n =? 95) || (n =? 36))%N.

Definition is_ident_part (c : ascii) : bool :=
  is_ident_start c || is_digit c.

Definition digit_val (c : ascii) : Z := Z.of_N (code c - 48).

Definition hex_val (c : ascii) : option Z :=
  let n := code c in
  if ((48 <=? n) && (n <=? 57))%N then Some (Z.of_N (n - 48))
  else if ((65 <=? n) && (n <=? 70))%N then Some (Z.of_N (n - 55))
  else if ((97 <=? n) && (n <=? 102))%N then Some (Z.of_N (n - 87))
  else None.

(** The letter [c], in either case; [lower] is its code in lower case. *)
Definition is_letter (lower : N) (c : ascii) : bool :=
  ((code c =? lower) || (code c =? lower - 32))%N.

(** Words that are not plain identifier references in the body of a
    function: keywords, and bindings of the function itself. *)
Definition reserved : list string :=
  ["break"; "case"; "catch"; "class"; "const"; "continue"; "debugger";
   "default"; "delete"; "do"; "else"; "enum"; "export"; "extends";
   "finally"; "for"; "function"; "if"; "import"; "in"; "instanceof"; "new";
   "super"; "switch"; "this"; "throw"; "try"; "typeof";
   "var"; "void"; "while"; "with"; "let"; "static"; "yield"; "await";
   "implements"; "interface"; "package"; "private"; "protected"; "public";
   "arguments"; "eval"]%string.

Definition ident_token (x : string) : option token :=
  if String.eqb x "return" then Some TReturn
  else if String.eqb x "true" then Some TTrue
  else if String.eqb x "false" then Some TFalse
  else if String.eqb x "null" then Some TNull
  else if existsb (String.eqb x) reserved then None
  else Some (TId x).

(** The token of the literal [n * 10^e10]: the number nearest to it. *)
Definition literal (n e10 : Z) : token :=
  let f := if 0 <=? e10 then of_Z (n * 10 ^ e10)
           else ratio n (10 ^ (- e10)) in
  match integral f with
  | Some k => TNum k
  | None => TFloat f
  end.

Definition num_token (n : Z) : token := literal n 0.

(** The states of the lexer.  In a decimal literal [n] is the number the
    digits read so far make, [k] how many of them stand behind the point,
    [x] the exponent with [neg] its sign.  A literal that starts with [0]
    and goes on with digits is octal as long as no digit is 8 or 9. *)
Inductive lexst : Type :=
| LStart
| LIdent (acc : string)
| LZero
| LDec (n : Z)
| LHexStart
| LHex (n : Z)
| LLt
| LGt
| LGtGt
| LLegacy (oct dec : Z) (octal : bool)
| LOctStart
| LOct (n : Z)
| LBinStart
| LBin (n : Z)
| LDot
| LFrac (n k : Z)
| LExpStart (n k : Z)
| LExpSign (n k : Z) (neg : bool)
| LExp (n k : Z) (neg : bool) (x : Z)
| LEq
| LEqEq
| LBang
| LBangEq
| LAmp
| LBar
| LPlus
| LMinus
| LStar
| LSlash
| LQuestion.

(** The tokens completed when the state is left. *)
Definition flush (st : lexst) : option (list token) :=
  match st with
  | LStart => Some []
  | LIdent acc => t ← ident_token acc; Some [t]
  | LZero => Some [TNum 0]
  | LDec n | LHex n | LOct n | LBin n => Some [num_token n]
  | LLegacy oct dec octal => Some [num_token (if octal then oct else dec)]
  | LFrac n k => Some [literal n (- k)]
  | LExp n k neg x => Some [literal n ((if neg then - x else x) - k)]
  | LHexStart | LOctStart | LBinStart | LDot | LExpStart _ _ | LExpSign _ _ _
  | LEq => None
  | LLt => Some [TLt]
  | LGt => Some [TGt]
  | LGtGt => Some [TShr]
  | LEqEq => Some [TEqEq]
  | LBang => Some [TBang]
  | LBangEq => Some [TNotEq]
  | LAmp => Some [TAmp]
  | LBar => Some [TBar]
  | LPlus => Some [TPlus]
  | LMinus => Some [TMinus]
  | LStar => Some [TStar]
  | LSlash => Some [TSlash]
  | LQuestion => Some [TQuestion]
  end.

(** A character read in the start state. *)
Definition start (c : ascii) : option (list token * lexst) :=
  if is_space c then Some ([], LStart)
  else if is_ident_start c then Some ([], LIdent (String c EmptyString))
  else if is_digit c then
    Some ([], if (code c =? 48)%N then LZero else LDec (digit_val c))
  else
    match c with
    | "["%char => Some ([TLBrack], LStart)
    | "]"%char => Some ([TRBrack], LStart)
    | "("%char => Some ([TLParen], LStart)
    | ")"%char => Some ([TRParen], LStart)
    | "~"%char => Some ([TTilde], LStart)
    | "&"%char => Some ([], LAmp)
    | "^"%char => Some ([TCaret], LStart)
    | "|"%char => Some ([], LBar)
    | "<"%char => Some ([], LLt)
    | ">"%char => Some ([], LGt)
    | "."%char => Some ([], LDot)
    | "="%char => Some ([], LEq)
    | "!"%char => Some ([], LBang)
    | "+"%char => Some ([], LPlus)
    | "-"%char => Some ([], LMinus)
    | "*"%char => Some ([], LStar)
    | "/"%char => Some ([], LSlash)
    | "%"%char => Some ([TPercent], LStart)
    | "?"%char => Some ([], LQuestion)
    | ":"%char => Some ([TColon], LStart)
    | _ => None
    end.

Definition restart (st : lexst) (c : ascii) : option (list token * lexst) :=
  ts ← flush st;
  '(ts', st') ← start c;
  Some (ts ++ ts', st').

(** The end of a numeric literal: no identifier and no digit may follow
    it. *)
Definition after_number (st : lexst) (c : ascii)
  : option (list token * lexst) :=
  if is_ident_part c then None else restart st c.

(** One character read in state [st].  The longest token is taken, as the
    language does; the tokens [++], [--], [**], [??], [?.], [=] alone and the
    comment marks [//] and [/*] are outside the fragment and refused. *)
Definition step (st : lexst) (c : ascii) : option (list token * lexst) :=
  match st with
  | LStart => start c
  | LIdent acc =>
      if is_ident_part c then Some ([], LIdent (acc +:+ String c EmptyString))
      else restart st c
  | LZero =>
      if is_letter 120 c then Some ([], LHexStart)
      else if is_letter 111 c then Some ([], LOctStart)
      else if is_letter 98 c then Some ([], LBinStart)
      else if is_letter 101 c then Some ([], LExpStart 0 0)
      else if (code c =? 46)%N then Some ([], LFrac 0 0)
      else if is_digit c then
        Some ([], LLegacy (digit_val c) (digit_val c) (digit_val c <? 8))
      else after_number st c
  | LLegacy oct dec octal =>
      if is_digit c then
        Some ([], LLegacy (8 * oct + digit_val c) (10 * dec + digit_val c)
                    (octal && (digit_val c <? 8)))
      else if octal then after_number st c
      else if is_letter 101 c then Some ([], LExpStart dec 0)
      else if (code c =? 46)%N then Some ([], LFrac dec 0)
      else after_number st c
  | LDec n =>
      if is_digit c then Some ([], LDec (10 * n + digit_val c))
      else if is_letter 101 c then Some ([], LExpStart n 0)
      else if (code c =? 46)%N then Some ([], LFrac n 0)
      else after_number st c
  | LDot =>
      if is_digit c then Some ([], LFrac (digit_val c) 1) else None
  | LFrac n k =>
      if is_digit c then Some ([], LFrac (10 * n + digit_val c) (k + 1))
      else if is_letter 101 c then Some ([], LExpStart n k)
      else after_number st c
  | LExpStart n k =>
      if is_digit c then Some ([], LExp n k false (digit_val c))
      else if (code c =? 43)%N then Some ([], LExpSign n k false)
      else if (code c =? 45)%N then Some ([], LExpSign n k true)
      else None
  | LExpSign n k neg =>
      if is_digit c then Some ([], LExp n k neg (digit_val c)) else None
  | LExp n k neg x =>
      if is_digit c then Some ([], LExp n k neg (10 * x + digit_val c))
      else after_number st c
  | LHexStart =>
      match hex_val c with
      | Some d => Some ([], LHex d)
      | None => None
      end
  | LHex n =>
      match hex_val c with
      | Some d => Some ([], LHex (16 * n + d))
      | None => after_number st c
      end
  | LOctStart =>
      if is_digit c && (digit_val c <? 8) then Some ([], LOct (digit_val c))
      else None
  | LOct n =>
      if is_digit c && (digit_val c <? 8)
      then Some ([], LOct (8 * n + digit_val c))
      else after_number st c
  | LBinStart =>
      if is_digit c && (digit_val c <? 2) then Some ([], LBin (digit_val c))
      else None
  | LBin n =>
      if is_digit c && (digit_val c <? 2)
      then Some ([], LBin (2 * n + digit_val c))
      else after_number st c
  | LLt =>
      if (code c =? 60)%N then Some ([TShl], LStart)
      else if (code c =? 61)%N then Some ([TLe], LStart)
      else restart st c
  | LGt =>
      if (code c =? 62)%N then Some ([], LGtGt)
      else if (code c =? 61)%N then Some ([TGe], LStart)
      else restart st c
  | LGtGt =>
      if (code c =? 62)%N then Some ([TUshr], LStart) else restart st c
  | LEq => if (code c =? 61)%N then Some ([], LEqEq) else None
  | LEqEq =>
      if (code c =? 61)%N then Some ([TEqEqEq], LStart) else restart st c
  | LBang => if (code c =? 61)%N then Some ([], LBangEq) else restart st c
  | LBangEq =>
      if (code c =? 61)%N then Some ([TNotEqEq], LStart) else restart st c
  | LAmp => if (code c =? 38)%N then Some ([TAndAnd], LStart) else restart st c
  | LBar => if (code c =? 124)%N then Some ([TOrOr], LStart) else restart st c
  | LPlus => if (code c =? 43)%N then None else restart st c
  | LMinus => if (code c =? 45)%N then None else restart st c
  | LStar => if (code c =? 42)%N then None else restart st c
  | LSlash =>
      if (code c =? 47)%N || (code c =? 42)%N then None else restart st c
  | LQuestion =>
      if (code c =? 63)%N || (code c =? 46)%N then None else restart st c
  end.

Fixpoint lex (st : lexst) (s : string) : option (list token) :=
  match s with
  | EmptyString => flush st
  | String c s' =>
      '(ts, st') ← step st c;
      rest ← lex st' s';
      Some (ts ++ rest)
  end.

Definition tokenize (s : string) : option (list token) := lex LStart s.

(** *** Parser *)

(** The binary operator of precedence level [lvl] at the head of [ts]:
    level 0 is [||], 1 is [&&], 2 is [|], 3 is [^], 4 is [&], 5 the
    equalities, 6 the comparisons, 7 the shifts, 8 [+] and [-], 9 [*], [/]
    and [%]. *)
Definition binop_at (lvl : nat) (ts : list token)
  : option ((expr -> expr -> expr) * list token) :=
  match lvl, ts with
  | 0%nat, TOrOr :: r => Some (EOrOr, r)
  | 1%nat, TAndAnd :: r => Some (EAndAnd, r)
  | 2%nat, TBar :: r => Some (EOr, r)
  | 3%nat, TCaret :: r => Some (EXor, r)
  | 4%nat, TAmp :: r => Some (EAnd, r)
  | 5%nat, TEqEq :: r => Some (EEq, r)
  | 5%nat, TNotEq :: r => Some (ENe, r)
  | 5%nat, TEqEqEq :: r => Some (ESeq, r)
  | 5%nat, TNotEqEq :: r => Some (ESne, r)
  | 6%nat, TLt :: r => Some (ELt, r)
  | 6%nat, TGt :: r => Some (EGt, r)
  | 6%nat, TLe :: r => Some (ELe, r)
  | 6%nat, TGe :: r => Some (EGe, r)
  | 7%nat, TShl :: r => Some (EShl, r)
  | 7%nat, TShr :: r => Some (EShr, r)
  | 7%nat, TUshr :: r => Some (EUshr, r)
  | 8%nat, TPlus :: r => Some (EAdd, r)
  | 8%nat, TMinus :: r => Some (ESub, r)
  | 9%nat, TStar :: r => Some (EMul, r)
  | 9%nat, TSlash :: r => Some (EDiv, r)
  | 9%nat, TPercent :: r => Some (ERem, r)
  | _, _ => None
  end.

Fixpoint parse_cond (fuel : nat) (ts : list token)
  : option (expr * list token) :=
  match fuel with
  | O => None
  | S f =>
      '(c, r) ← parse_level f 0 ts;
      match r with
      | TQuestion :: r1 =>
          '(a, r2) ← parse_cond f r1;
          match r2 with
          | TColon :: r3 =>
              '(b, r4) ← parse_cond f r3;
              Some (ECond c a b, r4)
          | _ => None
          end
      | _ => Some (c, r)
      end
  end
with parse_level (fuel lvl : nat) (ts : list token)
  : option (expr * list token) :=
  match fuel with
  | O => None
  | S f =>
      if (lvl <? 10)%nat then
        '(l, r) ← parse_level f (S lvl) ts;
        parse_binrest f lvl l r
      else
        match ts with
        | TTilde :: r =>
            '(e, r') ← parse_level f lvl r;
            Some (ENot e, r')
        | TBang :: r =>
            '(e, r') ← parse_level f lvl r;
            Some (ELNot e, r')
        | TMinus :: r =>
            '(e, r') ← parse_level f lvl r;
            Some (ENeg e, r')
        | TPlus :: r =>
            '(e, r') ← parse_level f lvl r;
            Some (EPos e, r')
        | TNum n :: r => parse_postfix f (ENum n) r
        | TFloat x :: r => parse_postfix f (EFloat x) r
        | TTrue :: r => parse_postfix f (EBool true) r
        | TFalse :: r => parse_postfix f (EBool false) r
        | TNull :: r => parse_postfix f ENull r
        | TId x :: r => parse_postfix f (EVar x) r
        | TLParen :: r =>
            '(e, r') ← parse_cond f r;
            match r' with
            | TRParen :: r'' => parse_postfix f e r''
            | _ => None
            end
        | _ => None
        end
  end
with parse_binrest (fuel lvl : nat) (l : expr) (ts : list token)
  : option (expr * list token) :=
  match fuel with
  | O => None
  | S f =>
      match binop_at lvl ts with
      | Some (mk, r) =>
          '(rhs, r') ← parse_level f (S lvl) r;
          parse_binrest f lvl (mk l rhs) r'
      | None => Some (l, ts)
      end
  end
with parse_postfix (fuel : nat) (e : expr) (ts : list token)
  : option (expr * list token) :=
  match fuel with
  | O => None
  | S f =>
      match ts with
      | TLBrack :: r =>
          '(i, r') ← parse_cond f r;
          match r' with
          | TRBrack :: r'' => parse_postfix f (EIndex e i) r''
          | _ => None
          end
      | TLParen :: _ => None
      | _ => Some (e, ts)
      end
  end.

(** A function body of the form [return <expression>]. *)
Definition compile (body : string) : option expr :=
  ts ← tokenize body;
  match ts with
  | TReturn :: r =>
      match parse_cond (16 * length r + 16) r with
      | Some (e, []) => Some e
      | _ => None
      end
  | _ => None
  end.

(** *** Evaluation *)

Section Eval.

(** The bindings of the global scope, which a function made by [Function]
    closes over. *)
Variable globals : list (string * value).

(** An identifier: a parameter of the function, else a global; the globals
    [undefined], [NaN] and [Infinity] cannot be bound anew. *)
Definition lookup_ident (params : list (string * value)) (x : string)
  : result value :=
  match assoc x params with
  | Some v => Ok v
  | None =>
      if String.eqb x "undefined" then Ok VUndef
      else if String.eqb x "NaN" then Ok (VFloat S754_nan)
      else if String.eqb x "Infinity" then Ok (VFloat (S754_infinity false))
      else match assoc x globals with
           | Some v => Ok v
           | None => Throw (ReferenceError x)
           end
  end.

Definition shift_count (v : value) : Z := to_uint32 v mod 32.

Fixpoint eval (params : list (string * value)) (e : expr) : result value :=
  match e with
  | ENum n => Ok (VNum n)
  | EFloat f => Ok (VFloat f)
  | EBool b => Ok (VBool b)
  | ENull => Ok VNull
  | EVar x => lookup_ident params x
  | EIndex b i =>
      vb ← eval params b; vi ← eval params i; get_index vb vi
  | ENot a =>
      va ← eval params a; Ok (VNum (Z.lnot (to_int32 va)))
  | ENeg a =>
      va ← eval params a; Ok (number_value (SFopp (to_number va)))
  | EPos a =>
      va ← eval params a; Ok (number_value (to_number va))
  | ELNot a =>
      va ← eval params a; Ok (VBool (negb (to_boolean va)))
  | EAnd a b =>
      va ← eval params a; vb ← eval params b;
      Ok (VNum (Z.land (to_int32 va) (to_int32 vb)))
  | EXor a b =>
      va ← eval params a; vb ← eval params b;
      Ok (VNum (Z.lxor (to_int32 va) (to_int32 vb)))
  | EOr a b =>
      va ← eval params a; vb ← eval params b;
      Ok (VNum (Z.lor (to_int32 va) (to_int32 vb)))
  | EShl a b =>
      va ← eval params a; vb ← eval params b;
      Ok (VNum (wrap32 (Z.shiftl (to_int32 va) (shift_count vb))))
  | EShr a b =>
      va ← eval params a; vb ← eval params b;
      Ok (VNum (Z.shiftr (to_int32 va) (shift_count vb)))
  | EUshr a b =>
      va ← eval params a; vb ← eval params b;
      Ok (VNum (Z.shiftr (to_uint32 va) (shift_count vb)))
  | EMul a b =>
      va ← eval params a; vb ← eval params b;
      Ok (arith (SFmul prec emax) va vb)
  | EDiv a b =>
      va ← eval params a; vb ← eval params b;
      Ok (arith (SFdiv prec emax) va vb)
  | ERem a b =>
      va ← eval params a; vb ← eval params b; Ok (arith SFrem va vb)
  | EAdd a b =>
      va ← eval params a; vb ← eval params b; addition va vb
  | ESub a b =>
      va ← eval params a; vb ← eval params b;
      Ok (arith (SFsub prec emax) va vb)
  | ELt a b =>
      va ← eval params a; vb ← eval params b; relational SFltb va vb
  | EGt a b =>
      va ← eval params a; vb ← eval params b;
      relational (fun x y => SFltb y x) va vb
  | ELe a b =>
      va ← eval params a; vb ← eval params b; relational SFleb va vb
  | EGe a b =>
      va ← eval params a; vb ← eval params b;
      relational (fun x y => SFleb y x) va vb
  | EEq a b =>
      va ← eval params a; vb ← eval params b; Ok (VBool (loose_eq va vb))
  | ENe a b =>
      va ← eval params a; vb ← eval params b;
      Ok (VBool (negb (loose_eq va vb)))
  | ESeq a b =>
      va ← eval params a; vb ← eval params b; Ok (VBool (strict_eq va vb))
  | ESne a b =>
      va ← eval params a; vb ← eval params b;
      Ok (VBool (negb (strict_eq va vb)))
  | EAndAnd a b =>
      va ← eval params a; if to_boolean va then eval params b else Ok va
  | EOrOr a b =>
      va ← eval params a; if to_boolean va then Ok va else eval params b
  | ECond c a b =>
      vc ← eval params c;
      if to_boolean vc then eval params a else eval params b
  end.

(** [Function(...names, body)]: a syntax error when the body does not
    compile, else the function, applied to its arguments. *)
Definition Function (names : list string) (body : string)
  : result (list value -> result value) :=
  match compile body with
  | Some e => Ok (fun args => eval (combine names args) e)
  | None => Throw SyntaxError
  end.

(** [evalSafe(expr, context)]. *)
Definition evalSafe (expr : string) (context : list (string * value))
  : result value :=
  f ← Function (map fst context) ("return (" +:+ expr +:+ ")");
  f (map snd context).

End Eval.

End Formula.

(** ** Sensor descriptions: [loadConfig] *)

Module Config.

(** A number or a string of the descriptor document. *)
Inductive scalar : Type :=
| SNum (n : Z)
| SStr (s : string).

(** [frame.startByte] and [frame.endByte]: one value (the string ["none"]
    among them) or an array of values. *)
Inductive byteField : Type :=
| BOne (v : scalar)
| BMany (vs : list scalar).

(** The sub-objects of an entry, with the keys the program reads; a key may
    be missing, in a raw entry as in a resolved one. *)
Record frameSpec : Type := {
  frame_length : option Z;
  frame_startByte : option byteField;
  frame_endByte : option byteField }.

Record checksumSpec : Type := {
  checksum_eval : option string;
  checksum_compare : option string }.

(** A field of [data]: the formula itself, or an object with the formula
    under [value]. *)
Inductive fieldMeta : Type :=
| MetaExpr (expr : string)
| MetaObj (value : option string).

Record sensorEntry : Type := {
  name : option string;
  inherits_from : option string;
  command : option string;
  send_cmd_period : option Z;
  port : option (obj scalar);
  frame : option frameSpec;
  checksum : option checksumSpec;
  data : option (obj fieldMeta) }.

(** Truthiness of an optional string: present and not empty. *)
Definition truthy (o : option string) : bool :=
  match o with
  | Some s => negb (String.eqb s "")
  | None => false
  end.

(** *** Object spread *)

(** [{ ...base, ...child }]: the keys of [base] in their order, each with
    the value of [child] when [child] has the key, then the keys only [child]
    has (keys that are array indices, which an object enumerates first, are
    not told apart here). *)
Class Spread (A : Type) : Type := {
  empty_obj : A;
  spread : A -> A -> A }.

Definition or_else {A} (child base : option A) : option A :=
  match child with
  | Some v => Some v
  | None => base
  end.

Definition has_key {A} (k : string) (o : obj A) : bool :=
  match assoc k o with
  | Some _ => true
  | None => false
  end.

Definition spread_obj {A} (base child : obj A) : obj A :=
  map (fun kv => (fst kv, default (snd kv) (assoc (fst kv) child))) base
  ++ List.filter (fun kv => negb (has_key (fst kv) base)) child.

#[global] Instance spread_assoc {A} : Spread (obj A) := {|
  empty_obj := [];
  spread := spread_obj |}.

#[global] Instance spread_frame : Spread frameSpec := {|
  empty_obj := {| frame_length := None; frame_startByte := None;
                  frame_endByte := None |};
  spread base child := {|
    frame_length := or_else (frame_length child) (frame_length base);
    frame_startByte := or_else (frame_startByte child) (frame_startByte base);
    frame_endByte := or_else (frame_endByte child) (frame_endByte base) |} |}.

#[global] Instance spread_checksum : Spread checksumSpec := {|
  empty_obj := {| checksum_eval := None; checksum_compare := None |};
  spread base child := {|
    checksum_eval := or_else (checksum_eval child) (checksum_eval base);
    checksum_compare :=
      or_else (checksum_compare child) (checksum_compare base) |} |}.

(** [{ ...base, ...(child || {}) }] where either may be missing. *)
Definition spread_opt {A} `{Spread A} (base child : option A) : option A :=
  Some (spread (default empty_obj base) (default empty_obj child)).

(** The object literal that [resolveInheritance] returns for an entry and
    its resolved base. *)
Definition merged (sensor resolvedBase : sensorEntry) : sensorEntry := {|
  name := name sensor;
  inherits_from := None;
  command := or_else (command sensor) (command resolvedBase);
  send_cmd_period :=
    or_else (send_cmd_period sensor) (send_cmd_period resolvedBase);
  port := spread_opt (port resolvedBase) (port sensor);
  frame := spread_opt (frame resolvedBase) (frame sensor);
  checksum := spread_opt (checksum resolvedBase) (checksum sensor);
  data := spread_opt (data resolvedBase) (data sensor) |}.

(** *** [nameMap] *)

(** [nameMap] is a plain object: a key it does not own is looked up in
    [Object.prototype]. *)
Definition object_prototype : list string :=
  ["constructor"; "__defineGetter__"; "__defineSetter__"; "hasOwnProperty";
   "__lookupGetter__"; "__lookupSetter__"; "isPrototypeOf";
   "propertyIsEnumerable"; "toString"; "valueOf"; "__proto__";
   "toLocaleString"]%string.

Inductive found : Type :=
| Own (s : sensorEntry)
| Inherited
| Missing.

Definition nameMap_get (nameMap : gmap string sensorEntry) (k : string) : found :=
  match nameMap !! k with
  | Some s => Own s
  | None => if existsb (String.eqb k) object_prototype then Inherited
            else Missing
  end.

(** [rawSensors.forEach(s => { if (s.name) nameMap[s.name] = s; })]: the
    own properties of [nameMap].  An entry named [__proto__] makes none: the
    assignment makes that entry the prototype of [nameMap], and a key that
    [nameMap] does not own is then looked up in the entry.  The model does
    not follow this: [nameMap_get] below is the lookup for a document without
    an entry of that name, where the prototype is [Object.prototype]. *)
Definition nameMap_add (nameMap : gmap string sensorEntry) (s : sensorEntry)
  : gmap string sensorEntry :=
  match name s with
  | Some n =>
      if truthy (name s) && negb (String.eqb n "__proto__")
      then <[n := s]> nameMap else nameMap
  | None => nameMap
  end.

Definition build_nameMap (rawSensors : list sensorEntry) : gmap string sensorEntry :=
  foldl nameMap_add ∅ rawSensors.

(** Every entry of [nameMap] sits under its own name. *)
Definition well_keyed (nameMap : gmap string sensorEntry) : Prop :=
  forall (k : string) (s : sensorEntry), nameMap !! k = Some s -> name s = Some k.

(** *** [resolveInheritance] *)

(** The second argument of [resolveInheritance]: an array of names, or the
    number that [Array.prototype.map] passes as the index of the element. *)
Inductive stackArg : Type :=
| StackArr (names : list string)
| StackIdx (i : nat).

(** The default value [stack = []] of a call without a second argument. *)
Definition default_stack : stackArg := StackArr [].

(** The lines passed to [console.warn]. *)
Inductive diag : Type :=
| WarnCircular (path : string)
| WarnBaseNotFound (base : string).

Definition includes (stack : list string) (n : string) : bool :=
  existsb (String.eqb n) stack.

Fixpoint resolveInheritance (fuel : nat) (nameMap : gmap string sensorEntry)
    (sensor : sensorEntry) (stack : stackArg)
  : list diag * outcome (option sensorEntry) :=
  match fuel with
  | O => ([], OutOfFuel)
  | S fuel' =>
      if negb (truthy (name sensor)) then ([], Returns None)
      else if negb (truthy (inherits_from sensor)) then
        ([], Returns (Some sensor))
      else
        let n := default "" (name sensor) in
        let b := default "" (inherits_from sensor) in
        match stack with
        | StackIdx _ =>
            ([], Throws (TypeError "stack.includes is not a function"))
        | StackArr stack =>
            if includes stack n then
              ([WarnCircular (String.concat " -> " (stack ++ [n]))],
               Returns (Some sensor))
            else
              match nameMap_get nameMap b with
              | Missing => ([WarnBaseNotFound b], Returns (Some sensor))
              | Inherited =>
                  (* the base is not an entry: it resolves to null *)
                  ([], Throws (TypeError "Cannot read properties of null"))
              | Own base =>
                  let '(ds, r) :=
                    resolveInheritance fuel' nameMap base
                      (StackArr (stack ++ [n])) in
                  match r with
                  | Returns (Some resolvedBase) =>
                      (ds, Returns (Some (merged sensor resolvedBase)))
                  | Returns None =>
                      (ds, Throws (TypeError "Cannot read properties of null"))
                  | Throws e => (ds, Throws e)
                  | OutOfFuel => (ds, OutOfFuel)
                  end
              end
        end
  end.

(** *** [loadConfig] *)

(** The parsed document: an object with an array under [sensors], or one
    entry on its own. *)
Inductive document : Type :=
| DocSensors (sensors : list sensorEntry)
| DocSingle (entry : sensorEntry).

Definition rawSensors_of (json : document) : list sensorEntry :=
  match json with
  | DocSensors sensors => sensors
  | DocSingle entry => [entry]
  end.

(** Each nested call adds a name that the stack does not hold yet, so the
    depth of the recursion is bounded by the number of names. *)
Definition resolve_fuel (nameMap : gmap string sensorEntry) : nat :=
  S (S (size nameMap)).

(** [rawSensors.map(resolveInheritance)]: [map] calls its function with the
    element and its index (and the array), so [stack] is the index. *)
Fixpoint map_resolveInheritance (nameMap : gmap string sensorEntry)
    (i : nat) (rawSensors : list sensorEntry)
  : list diag * outcome (list (option sensorEntry)) :=
  match rawSensors with
  | [] => ([], Returns [])
  | s :: rest =>
      let '(ds, r) :=
        resolveInheritance (resolve_fuel nameMap) nameMap s (StackIdx i) in
      match r with
      | Returns x =>
          let '(ds', r') := map_resolveInheritance nameMap (S i) rest in
          (ds ++ ds',
           match r' with
           | Returns xs => Returns (x :: xs)
           | Throws e => Throws e
           | OutOfFuel => OutOfFuel
           end)
      | Throws e => (ds, Throws e)
      | OutOfFuel => (ds, OutOfFuel)
      end
  end.

Definition name_is (sensorName : string) (s : sensorEntry) : bool :=
  match name s with
  | Some n => String.eqb n sensorName
  | None => false
  end.

(** [loadConfig(url, sensorName)], from the parsed document on. *)
Definition loadConfig (json : document) (sensorName : option string)
  : list diag * outcome (list sensorEntry) :=
  let rawSensors := rawSensors_of json in
  let nameMap := build_nameMap rawSensors in
  let '(ds, r) := map_resolveInheritance nameMap 0 rawSensors in
  match r with
  | Returns resolved =>
      let sensors := omap id resolved in
      if truthy sensorName then
        match List.find (name_is (default "" sensorName)) sensors with
        | Some match_ => (ds, Returns [match_])
        | None =>
            (ds, Throws (Error ("Sensor '" +:+ default "" sensorName
                                +:+ "' not found in configuration")))
        end
      else (ds, Returns sensors)
  | Throws e => (ds, Throws e)
  | OutOfFuel => (ds, OutOfFuel)
  end.

End Config.

(** ** Sessions *)

Module Session.
Import Js Formula Config.

Definition callback : Type := nat.

(** The object [parsed]: field names with their values, in the order of
    assignment. *)
Definition reading : Type := obj value.

(** The texts handed to [handleError]. *)
Inductive message : Type :=
| ChecksumFailed                 (* "Checksum failed" *)
| ReadLoopError (e : exn).       (* "Read loop error: " + e.message *)

(** What a session does to the outside: calls of the callbacks it was
    given, promises of [readNext] it resolves, the console, the timer and
    the transport. *)
Inductive event : Type :=
| ConsoleError (msg : message)
| OnError (cb : callback) (msg : message)
| OnRawFrame (cb : callback) (frame : list byte)
| Resolve (promise : nat) (parsed : reading)
| OnData (cb : callback) (parsed : reading)
| ClearInterval (timer : nat)
| ReaderCancel
| ReaderReleaseLock
| PortClose.

(** The fields of a [PolluSensSerial] or [PolluSens] object.  The class
    [PolluSensSerial] has no [onRawFrame]: there the field stays [None].
    Callbacks are taken to return without touching the session. *)
Record session : Type := {
  config : sensorEntry;
  port : option nat;
  reader : option nat;
  writer : option nat;
  buffer : list byte;
  commandInterval : option nat;
  readQueue : list nat;
  onData : option callback;
  onError : option callback;
  onRawFrame : option callback }.

Definition set_buffer (st : session) (b : list byte) : session := {|
  config := config st; port := port st; reader := reader st;
  writer := writer st; buffer := b; commandInterval := commandInterval st;
  readQueue := readQueue st; onData := onData st; onError := onError st;
  onRawFrame := onRawFrame st |}.

Definition set_readQueue (st : session) (q : list nat) : session := {|
  config := config st; port := port st; reader := reader st;
  writer := writer st; buffer := buffer st;
  commandInterval := commandInterval st; readQueue := q; onData := onData st;
  onError := onError st; onRawFrame := onRawFrame st |}.

Definition set_commandInterval (st : session) (t : option nat) : session := {|
  config := config st; port := port st; reader := reader st;
  writer := writer st; buffer := buffer st; commandInterval := t;
  readQueue := readQueue st; onData := onData st; onError := onError st;
  onRawFrame := onRawFrame st |}.

Definition set_reader (st : session) (r : option nat) : session := {|
  config := config st; port := port st; reader := r; writer := writer st;
  buffer := buffer st; commandInterval := commandInterval st;
  readQueue := readQueue st; onData := onData st; onError := onError st;
  onRawFrame := onRawFrame st |}.

Definition set_port (st : session) (p : option nat) : session := {|
  config := config st; port := p; reader := reader st; writer := writer st;
  buffer := buffer st; commandInterval := commandInterval st;
  readQueue := readQueue st; onData := onData st; onError := onError st;
  onRawFrame := onRawFrame st |}.

(** The constructor. *)
Definition new (config : sensorEntry) : session := {|
  config := config; port := None; reader := None; writer := None;
  buffer := []; commandInterval := None; readQueue := []; onData := None;
  onError := None; onRawFrame := None |}.

(** [handleError(msg)]. *)
Definition handleError (st : session) (msg : message) : list event :=
  ConsoleError msg ::
  match onError st with
  | Some cb => [OnError cb msg]
  | None => []
  end.


(** *** Marker fields *)

(** A marker after [parseByteValue]: a number, NaN, a string left as it
    was, [undefined] for a missing field, or the infinity that [parseInt]
    gives for digits past the largest number. *)
Inductive pval : Type :=
| PNum (n : Z)
| PNaN
| PStr (s : string)
| PUndef
| PInfinity.

Inductive pfield : Type :=
| PArr (vs : list pval)
| PVal (v : pval).

(** [parseInt(s, 16)] on the text after [0x]: the longest run of
    hexadecimal digits, NaN when there is none. *)
Fixpoint hex_digits (acc : option Z) (s : string) : option Z :=
  match s with
  | EmptyString => acc
  | String c s' =>
      match hex_val c with
      | Some d => hex_digits (Some (16 * default 0 acc + d)) s'
      | None => acc
      end
  end.

Definition parseByteValue (v : option scalar) : pval :=
  match v with
  | None => PUndef
  | Some (SNum n) => PNum n
  | Some (SStr s) =>
      if String.prefix "0x" s then
        match hex_digits None (String.substring 2 (String.length s - 2) s) with
        | Some n =>
            if nearest_double n <? 2 ^ 1024 then PNum (nearest_double n)
            else PInfinity
        | None => PNaN
        end
      else PStr s
  end.

Definition is_none (field : option byteField) : bool :=
  match field with
  | Some (BOne (SStr s)) => String.eqb s "none"
  | _ => false
  end.

Definition parseByteField (field : option byteField) : pfield :=
  if is_none field then PVal (PStr "none")
  else match field with
       | Some (BMany vs) => PArr (map (fun v => parseByteValue (Some v)) vs)
       | Some (BOne v) => PVal (parseByteValue (Some v))
       | None => PVal PUndef
       end.

(** *** Arrays *)

(** A relative index of [slice], clamped to the array. *)
Definition rel_index (len : nat) (n : Z) : nat :=
  if n <? 0 then Z.to_nat (Z.max (Z.of_nat len + n) 0)
  else Nat.min (Z.to_nat n) len.

(** [l.slice(0, n)] and [l.slice(n)]. *)
Definition slice_to {A} (l : list A) (n : Z) : list A :=
  firstn (rel_index (length l) n) l.
Definition slice_from {A} (l : list A) (n : Z) : list A :=
  skipn (rel_index (length l) n) l.

(** [l[i]]: [None] is [undefined]. *)
Definition at_index {A} (l : list A) (i : Z) : option A :=
  if i <? 0 then None else nth_error l (Z.to_nat i).

(** [x === v] for an element of the window and a marker. *)
Definition elem_is (x : option byte) (v : pval) : bool :=
  match x, v with
  | Some b, PNum n => byte_to_Z b =? n
  | None, PUndef => true
  | _, _ => false
  end.

(** [l.every((v, i) => f(v, i))], from index [i] on. *)
Fixpoint every {A} (f : A -> nat -> bool) (i : nat) (l : list A) : bool :=
  match l with
  | [] => true
  | v :: l' => f v i && every f (S i) l'
  end.

(** *** Objects *)

(** The number a text of decimal digits denotes. *)
Fixpoint decimal (acc : Z) (s : string) : option Z :=
  match s with
  | EmptyString => Some acc
  | String c s' =>
      if is_digit c then decimal (10 * acc + digit_val c) s' else None
  end.

(** A key that is an array index: the decimal text, without a leading zero,
    of an integer from 0 to 2^32 - 2. *)
Definition array_index (k : string) : option Z :=
  match k with
  | EmptyString => None
  | String c rest =>
      if (code c =? 48)%N && negb (String.eqb rest "") then None
      else match decimal 0 k with
           | Some n => if n <=? 4294967294 then Some n else None
           | None => None
           end
  end.

(** A property put at its place among properties sorted by index. *)
Fixpoint place {A} (n : Z) (kv : string * A) (l : list (Z * (string * A)))
  : list (Z * (string * A)) :=
  match l with
  | [] => [(n, kv)]
  | (m, kv') :: l' =>
      if n <? m then (n, kv) :: l else (m, kv') :: place n kv l'
  end.

Definition by_index {A} (o : obj A) : list (Z * (string * A)) :=
  foldr (fun kv sorted =>
           match array_index (fst kv) with
           | Some n => place n kv sorted
           | None => sorted
           end) [] o.

Definition named {A} (kv : string * A) : bool :=
  match array_index (fst kv) with
  | Some _ => false
  | None => true
  end.

(** [Object.entries(o)]: the properties whose keys are array indices first,
    by ascending index, then the others in the order of their creation. *)
Definition entries {A} (o : obj A) : obj A :=
  map snd (by_index o) ++ List.filter named o.

Fixpoint update {A} (k : string) (v : A) (o : obj A) : obj A :=
  match o with
  | [] => []
  | (y, a) :: o' =>
      if String.eqb k y then (y, v) :: o' else (y, a) :: update k v o'
  end.

(** [parsed[name] = v] on an object made by [{}]: the key [__proto__] is
    the accessor of [Object.prototype] and makes no own property (an object
    or [null] becomes the prototype of [parsed], another value is dropped);
    a key [parsed] has keeps its place; a new key comes last.  The
    properties of an array are plain data, so with the frame as prototype
    the later assignments still make own properties; what they do through
    the accessors of another object is not modelled. *)
Definition put (parsed : reading) (name : string) (v : value) : reading :=
  if String.eqb name "__proto__" then parsed
  else if has_key name parsed then update name v parsed
  else parsed ++ [(name, v)].

(** The fields that make a property of the reading. *)
Definition kept {A} (kv : string * A) : bool :=
  negb (String.eqb (fst kv) "__proto__").

(** *** [startReadLoop] *)

Section ReadLoop.

(** The global scope the formulas are evaluated in. *)
Variable globals : list (string * value).

(** The constants [startReadLoop] computes before it starts the loop. *)
Record loopEnv : Type := {
  useStart : bool;
  useEnd : bool;
  frameLength : option Z;
  startByte : pfield;
  endByte : pfield;
  checksum_ : option checksumSpec;
  dataFields : option (obj fieldMeta) }.

(** The head of [startReadLoop]; reading [frame.startByte] throws when the
    descriptor has no [frame]. *)
Definition loopEnv_of (config : sensorEntry) : result loopEnv :=
  match frame config with
  | None => Throw (TypeError "Cannot read properties of undefined")
  | Some frame =>
      Ok {| useStart := negb (is_none (frame_startByte frame));
            useEnd := negb (is_none (frame_endByte frame));
            frameLength := frame_length frame;
            startByte := parseByteField (frame_startByte frame);
            endByte := parseByteField (frame_endByte frame);
            checksum_ := checksum config;
            dataFields := data config |}
  end.

(** The text that the template [`return (${expr})`] gives for a formula,
    [undefined] for a missing one. *)
Definition formula_text (expr : option string) : string :=
  default "undefined" expr.

(** [typeof meta === 'object' ? meta.value : meta]. *)
Definition field_expr (meta : fieldMeta) : option string :=
  match meta with
  | MetaExpr expr => Some expr
  | MetaObj value => value
  end.

(** The object [{ data }]; the frame has reference 0. *)
Definition context (data : list byte) : obj value := [("data", VArr 0 data)].

(** The loop [for (const [name, meta] of Object.entries(dataFields))
    parsed[name] = evalSafe(expr, { data })], from the object [parsed] it
    has filled so far. *)
Fixpoint fill (parsed : reading) (es : obj fieldMeta) (data : list byte)
  : result reading :=
  match es with
  | [] => Ok parsed
  | (name, meta) :: rest =>
      v ← evalSafe globals (formula_text (field_expr meta)) (context data);
      fill (put parsed name v) rest data
  end.

(** The object [parsed] that [handleFrame] builds. *)
Definition extract (fields : obj fieldMeta) (data : list byte)
  : result reading :=
  fill [] (entries fields) data.

(** [const valid = evalSafe(checksum.eval, { data }) ===
    evalSafe(checksum.compare, { data })]. *)
Definition valid (env : loopEnv) (data : list byte) : result bool :=
  match checksum_ env with
  | None => Throw (TypeError "Cannot read properties of undefined")
  | Some checksum =>
      a ← evalSafe globals (formula_text (checksum_eval checksum))
            (context data);
      b ← evalSafe globals (formula_text (checksum_compare checksum))
            (context data);
      Ok (strict_eq a b)
  end.

(** What [handleFrame] does with [parsed]: the oldest pending request, then
    the subscriber. *)
Definition deliver (st : session) (parsed : reading) : session * list event :=
  let '(st', resolved) :=
    match readQueue st with
    | resolve :: rest => (set_readQueue st rest, [Resolve resolve parsed])
    | [] => (st, [])
    end in
  (st', resolved ++ match onData st' with
                    | Some cb => [OnData cb parsed]
                    | None => []
                    end).

(** [if (typeof this.onRawFrame === 'function') this.onRawFrame(...)]. *)
Definition rawFrame (st : session) (data : list byte) : list event :=
  match onRawFrame st with
  | Some cb => [OnRawFrame cb data]
  | None => []
  end.

(** [handleFrame(data)]: the session after it, what it did, and the value
    it returned or the exception that left it. *)
Definition handleFrame (env : loopEnv) (st : session) (data : list byte)
  : session * list event * result bool :=
  match valid env data with
  | Throw e => (st, [], Throw e)
  | Ok false => (st, [], Ok false)
  | Ok true =>
      let raw := rawFrame st data in
      match dataFields env with
      | None =>
          (st, raw, Throw (TypeError "Cannot convert undefined to object"))
      | Some fields =>
          match extract fields data with
          | Throw e => (st, raw, Throw e)
          | Ok parsed =>
              let '(st', evs) := deliver st parsed in
              (st', raw ++ evs, Ok true)
          end
      end
  end.

(** A formula of the descriptor throws [e] on [data], and is the first one
    to throw in the order [handleFrame] evaluates them: [checksum.eval],
    [checksum.compare] and, when these agree, the fields of [data] in the
    order of [Object.entries]. *)
Inductive formula_fault (env : loopEnv) (data : list byte) (e : exn) : Prop :=
| fault_eval (ck : checksumSpec) :
    checksum_ env = Some ck ->
    evalSafe globals (formula_text (checksum_eval ck)) (context data) = Throw e ->
    formula_fault env data e
| fault_compare (ck : checksumSpec) (a : value) :
    checksum_ env = Some ck ->
    evalSafe globals (formula_text (checksum_eval ck)) (context data) = Ok a ->
    evalSafe globals (formula_text (checksum_compare ck)) (context data)
    = Throw e ->
    formula_fault env data e
| fault_field (fields before after : obj fieldMeta) (name : string)
    (meta : fieldMeta) :
    valid env data = Ok true ->
    dataFields env = Some fields ->
    entries fields = before ++ (name, meta) :: after ->
    Forall (fun kv =>
              exists v : value,
                evalSafe globals (formula_text (field_expr (snd kv)))
                  (context data) = Ok v) before ->
    evalSafe globals (formula_text (field_expr meta)) (context data) = Throw e ->
    formula_fault env data e.

(** [matchesStart] and [matchesEnd] for the candidate [slice]. *)
Definition matchesStart (env : loopEnv) (slice : list byte) : bool :=
  match startByte env with
  | PArr vs => every (fun v i => elem_is (nth_error slice i) v) 0 vs
  | PVal v => negb (useStart env) || elem_is (nth_error slice 0) v
  end.

Definition matchesEnd (env : loopEnv) (fl : Z) (slice : list byte) : bool :=
  negb (useEnd env) ||
  match endByte env with
  | PArr vs =>
      every (fun v i =>
               elem_is (at_index slice (fl - Z.of_nat (length vs) + Z.of_nat i))
                 v) 0 vs
  | PVal v => elem_is (at_index slice (fl - 1)) v
  end.

Definition markers_match (env : loopEnv) (fl : Z) (slice : list byte) : bool :=
  matchesStart env slice && matchesEnd env fl slice.

(** One turn of [while (this.buffer.length >= frameLength)]. *)
Inductive turn : Type :=
| Leave
| Again (st : session) (evs : list event)
| Raise (st : session) (evs : list event) (e : exn).

(** The session that a turn of the inner loop leaves behind. *)
Definition turn_session (t : turn) : option session :=
  match t with
  | Leave => None
  | Again st _ | Raise st _ _ => Some st
  end.

(** The branch for a candidate whose markers match, once the candidate is
    off the buffer: [if (!handleFrame(data)) this.handleError(...)]. *)
Definition accept (env : loopEnv) (st : session) (data : list byte) : turn :=
  match handleFrame env st data with
  | (st', evs, Ok true) => Again st' evs
  | (st', evs, Ok false) => Again st' (evs ++ handleError st' ChecksumFailed)
  | (st', evs, Throw e) => Raise st' evs e
  end.

Definition scan_turn (env : loopEnv) (st : session) : turn :=
  match frameLength env with
  | None => Leave
  | Some fl =>
      if Z.of_nat (length (buffer st)) <? fl then Leave
      else
        let slice := slice_to (buffer st) fl in
        if markers_match env fl slice then
          accept env (set_buffer st (slice_from (buffer st) fl)) slice
        else Again (set_buffer st (tail (buffer st))) []
  end.

(** [n] turns in a row that stay in the loop: the session they lead to and
    what was done on the way. *)
Fixpoint turns (n : nat) (env : loopEnv) (st : session)
  : option (session * list event) :=
  match n with
  | O => Some (st, [])
  | S n' =>
      match scan_turn env st with
      | Again st' evs =>
          '(st'', evs') ← turns n' env st';
          Some (st'', evs ++ evs')
      | _ => None
      end
  end.

(** The inner loop. *)
Fixpoint scan (fuel : nat) (env : loopEnv) (st : session)
  : session * list event * outcome unit :=
  match fuel with
  | O => (st, [], OutOfFuel)
  | S fuel' =>
      match scan_turn env st with
      | Leave => (st, [], Returns tt)
      | Again st' evs =>
          let '(st'', evs', o) := scan fuel' env st' in
          (st'', evs ++ evs', o)
      | Raise st' evs e => (st', evs, Throws e)
      end
  end.

(** What [reader.read()] settles to. *)
Inductive readResult : Type :=
| Chunk (value : list byte)
| EndOfStream
| ReadFails (e : exn).

(** Where [loop] stands after the reads that have settled: waiting for the
    next one, left by [break], left through [catch], or still inside the
    inner loop when the fuel ran out. *)
Inductive status : Type :=
| Reading
| Finished
| Caught (e : exn)
| Scanning.

(** [loop()], over the reads that settle, in their order.  [fuel] bounds the
    turns of the inner loop after each chunk. *)
Fixpoint loop (fuel : nat) (env : loopEnv) (reads : list readResult)
    (st : session) : session * list event * status :=
  match reads with
  | [] => (st, [], Reading)
  | EndOfStream :: _ => (st, [], Finished)
  | ReadFails e :: _ => (st, handleError st (ReadLoopError e), Caught e)
  | Chunk value :: rest =>
      let st1 := set_buffer st (buffer st ++ value) in
      match scan fuel env st1 with
      | (st2, evs, Returns _) =>
          let '(st3, evs', s) := loop fuel env rest st2 in
          (st3, evs ++ evs', s)
      | (st2, evs, Throws e) =>
          (st2, evs ++ handleError st2 (ReadLoopError e), Caught e)
      | (st2, evs, OutOfFuel) => (st2, evs, Scanning)
      end
  end.

End ReadLoop.

(** *** [disconnect] *)

(** How the transport answers during [disconnect]: whether
    [reader.cancel()] succeeds (what [reader.releaseLock()] does after it is
    swallowed by the same [catch]), and the exception [port.close()] rejects
    with, if any.  A timer is the truthy handle [setInterval] gave. *)
Record transport : Type := {
  cancel_ok : bool;
  close_error : option exn }.

Definition disconnect (t : transport) (st : session)
  : session * list event * result unit :=
  let '(st1, evs1) :=
    match commandInterval st with
    | Some timer => (set_commandInterval st None, [ClearInterval timer])
    | None => (st, [])
    end in
  let '(st2, evs2) :=
    match reader st1 with
    | Some _ =>
        (set_reader st1 None,
         ReaderCancel :: if cancel_ok t then [ReaderReleaseLock] else [])
    | None => (st1, [])
    end in
  match port st2 with
  | Some _ =>
      match close_error t with
      | Some e => (st2, evs1 ++ evs2 ++ [PortClose], Throw e)
      | None => (set_port st2 None, evs1 ++ evs2 ++ [PortClose], Ok tt)
      end
  | None => (st2, evs1 ++ evs2, Ok tt)
  end.

(** [PolluSens.disconnectAndCleanup(instance)]; [None] is an argument that
    is no [PolluSens]. *)
Definition disconnectAndCleanup (t : transport) (instance : option session)
  : option session * list event * result unit :=
  match instance with
  | None => (None, [], Ok tt)
  | Some st =>
      match disconnect t st with
      | (st', evs, Throw e) => (Some st', evs, Throw e)
      | (st', evs, Ok _) =>
          (Some {| config := config st'; port := port st';
                   reader := reader st'; writer := writer st';
                   buffer := []; commandInterval := commandInterval st';
                   readQueue := []; onData := None; onError := None;
                   onRawFrame := None |},
           evs, Ok tt)
      end
  end.

End Session.

(** ** Observations *)

Module Trace.
Import Js Formula Config Session.

(** The promises resolved, the calls of the subscriber and the messages
    reported, each in the order of the events. *)
Definition resolutions (evs : list event) : list (nat * reading) :=
  omap (fun ev => match ev with
                  | Resolve r parsed => Some (r, parsed)
                  | _ => None
                  end) evs.

Definition notifications (evs : list event) : list (callback * reading) :=
  omap (fun ev => match ev with
                  | OnData cb parsed => Some (cb, parsed)
                  | _ => None
                  end) evs.

Definition reports (evs : list event) : list message :=
  omap (fun ev => match ev with
                  | ConsoleError msg => Some msg
                  | _ => None
                  end) evs.



End Trace.

(** ** Scenarios *)

Module Scenario.
Import Js Formula Config Session.

(** A frame of five bytes that starts with [0xAA], without end marker. *)
Definition frame5 : frameSpec := {|
  frame_length := Some 5;
  frame_startByte := Some (BOne (SStr "0xAA"));
  frame_endByte := Some (BOne (SStr "none")) |}.

Definition descriptor (eval compare temp : string) : sensorEntry := {|
  name := Some "scenario"%string;
  inherits_from := None;
  command := None;
  send_cmd_period := None;
  Config.port := None;
  frame := Some frame5;
  checksum := Some {| checksum_eval := Some eval;
                      checksum_compare := Some compare |};
  data := Some [("temp"%string, MetaExpr temp)] |}.

(** The formulas written over [window], over [data], and over [data] with
    the start marker left out of the sum. *)
Definition window_descriptor : sensorEntry :=
  descriptor "window[4]" "window[0]^window[1]^window[2]^window[3]" "window[1]".
Definition data_descriptor : sensorEntry :=
  descriptor "data[4]" "data[0]^data[1]^data[2]^data[3]" "data[1]".
Definition payload_descriptor : sensorEntry :=
  descriptor "data[4]" "data[1]^data[2]^data[3]" "data[1]".

(** A checksum that is the sum of the payload modulo 256. *)
Definition sum_descriptor : sensorEntry :=
  descriptor "data[4]" "(data[1] + data[2] + data[3]) % 256" "data[1]".

(** A checksum formula, and a field formula, with a bracket left open. *)
Definition broken_descriptor : sensorEntry :=
  descriptor "data[4" "data[1]^data[2]^data[3]" "data[1]".
Definition broken_field_descriptor : sensorEntry :=
  descriptor "data[4]" "data[1]^data[2]^data[3]" "data[1".

Definition stream : list byte :=
  [xaa; x10; x00; x00; x10; xff; xaa; x05; x00; x00; x05].

(** A connected session with a subscriber (callback 1), an error callback
    (callback 2) and nothing else. *)
Definition listening (config : sensorEntry) : session := {|
  config := config; port := Some 0%nat; reader := Some 0%nat; writer := None;
  buffer := []; commandInterval := None; readQueue := [];
  onData := Some 1%nat; onError := Some 2%nat; onRawFrame := None |}.

(** The global scope of a browser page without sub-frames, as far as the
    formulas above reach into it. *)
Definition browser : list (string * value) := [("window"%string, VObj 0)].

(** Two entries that inherit from each other. *)
Definition entryA : sensorEntry := {|
  name := Some "A"%string; inherits_from := Some "B"%string;
  command := Some "01 03"%string; send_cmd_period := None;
  Config.port := None; frame := None; checksum := None;
  data := Some [("x"%string, MetaExpr "data[1]")] |}.

Definition entryB : sensorEntry := {|
  name := Some "B"%string; inherits_from := Some "A"%string;
  command := None; send_cmd_period := Some 5;
  Config.port := None; frame := None; checksum := None;
  data := Some [("y"%string, MetaExpr "data[2]")] |}.

(** An entry whose base is not in the document, and one whose
    [inherits_from] is the empty string. *)
Definition orphan : sensorEntry := {|
  name := Some "orphan"%string; inherits_from := Some "missing"%string;
  command := None; send_cmd_period := None;
  Config.port := None; frame := Some frame5; checksum := None;
  data := None |}.

Definition unnamed_base : sensorEntry := {|
  name := Some "plain"%string; inherits_from := Some ""%string;
  command := None; send_cmd_period := None;
  Config.port := None; frame := Some frame5; checksum := None;
  data := None |}.

(** A parent, and a child that overrides the frame length and one field. *)
Definition parent : sensorEntry := {|
  name := Some "parent"%string; inherits_from := None;
  command := Some "01 03 00 00 00 02"%string; send_cmd_period := Some 2;
  Config.port := Some [("baudRate"%string, SNum 9600)];
  frame := Some frame5;
  checksum := Some {| checksum_eval := Some "data[4]"%string;
                      checksum_compare :=
                        Some "data[1]^data[2]^data[3]"%string |};
  data := Some [("temp"%string, MetaExpr "data[1]");
                ("hum"%string, MetaExpr "data[2]")] |}.

Definition child : sensorEntry := {|
  name := Some "child"%string; inherits_from := Some "parent"%string;
  command := None; send_cmd_period := None;
  Config.port := None;
  frame := Some {| frame_length := Some 7; frame_startByte := None;
                   frame_endByte := None |};
  checksum := None;
  data := Some [("hum"%string, MetaExpr "data[3]")] |}.

(** A session in mid-stream: the timer armed, two bytes of a frame in the
    buffer, one request pending. *)
Definition midstream : session := {|
  config := payload_descriptor; port := Some 0%nat; reader := Some 0%nat;
  writer := None; buffer := [xaa; x10]; commandInterval := Some 3%nat;
  readQueue := [7%nat]; onData := Some 1%nat; onError := Some 2%nat;
  onRawFrame := None |}.

(** A transport that lets go without error. *)
Definition willing : transport := {|
  cancel_ok := true; close_error := None |}.

(** The constants of the read loop for a descriptor that has a frame. *)
Definition env_of (config : sensorEntry) : loopEnv :=
  match loopEnv_of config with
  | Ok env => env
  | Throw _ =>
      {| useStart := true; useEnd := true; frameLength := None;
         startByte := PVal PUndef; endByte := PVal PUndef;
         checksum_ := None; dataFields := None |}
  end.

(** The read loop of a listening session on a descriptor: the bytes left in
    the buffer, what the session did, and where the loop stands. *)
Definition run (globals : list (string * value)) (config : sensorEntry)
    (reads : list readResult) : option (list byte * list event * status) :=
  match loopEnv_of config with
  | Ok env =>
      let '(st, evs, s) := loop globals 64 env reads (listening config) in
      Some (buffer st, evs, s)
  | Throw _ => None
  end.

End Scenario.

(** ** Commands: [sendCommandIfNeeded] *)

Module Command.
Import Js Formula Config Session.

(** A string is a sequence of code units below 256.  Among these, [\s]
    matches the tabulations 9 to 13, the space and the no-break space. *)
Definition is_ws (c : ascii) : bool :=
  let n := code c in
  (((9 <=? n) && (n <=? 13)) || (n =? 32) || (n =? 160))%N.

(** [toLowerCase] on a code unit below 256. *)
Definition lower (c : ascii) : ascii :=
  let n := code c in
  if (((65 <=? n) && (n <=? 90))
      || ((192 <=? n) && (n <=? 222) && negb (n =? 215)))%N
  then ascii_of_N (n + 32) else c.

Fixpoint toLowerCase (s : string) : string :=
  match s with
  | EmptyString => EmptyString
  | String c s' => String (lower c) (toLowerCase s')
  end.

(** [s.split(/\s+/)]: [cur] is the piece being read, [in_ws] tells that the
    last code unit was white space.  White space at either end leaves an
    empty piece there. *)
Fixpoint split_go (in_ws : bool) (cur : string) (s : string) : list string :=
  match s with
  | EmptyString => [cur]
  | String c s' =>
      if is_ws c then
        if in_ws then split_go true EmptyString s'
        else cur :: split_go true EmptyString s'
      else split_go false (cur +:+ String c EmptyString) s'
  end.

Definition split_ws (s : string) : list string := split_go false EmptyString s.

Fixpoint trim_start (s : string) : string :=
  match s with
  | String c s' => if is_ws c then trim_start s' else s
  | EmptyString => s
  end.

(** [parseInt(s, 16)], as the integer it denotes; [None] is NaN.  White
    space in front is dropped, then a sign, then [0x] or [0X]; the digits
    run as far as they are hexadecimal. *)
Definition parseInt16 (s : string) : option Z :=
  let s1 := trim_start s in
  let '(sign, s2) :=
    match s1 with
    | String "-"%char r => (-1, r)
    | String "+"%char r => (1, r)
    | _ => (1, s1)
    end in
  let s3 :=
    match s2 with
    | String "0"%char (String x r) =>
        if (code x =? 120)%N || (code x =? 88)%N then r else s2
    | _ => s2
    end in
  match hex_digits None s3 with
  | Some n => Some (sign * n)
  | None => None
  end.

(** An element of [new Uint8Array(bytes)]: NaN becomes 0, a number is taken
    modulo 256 (an infinity becomes 0, as does the multiple of 2^971 that
    [nearest_double] puts in its place). *)
Definition toUint8 (v : option Z) : byte :=
  match v with
  | None => x00
  | Some n => default x00 (Byte.of_N (Z.to_N (nearest_double n mod 256)))
  end.

(** [new Uint8Array(cmd.split(/\s+/).map(hex => parseInt(hex, 16)))]. *)
Definition payload (cmd : string) : list byte :=
  map (fun hex => toUint8 (parseInt16 hex)) (split_ws cmd).

(** The negation of [!cmd || cmd.toLowerCase() === "none"]. *)
Definition enabled (cmd : option string) : bool :=
  match cmd with
  | None => false
  | Some c =>
      negb (String.eqb c "") && negb (String.eqb (toLowerCase c) "none")
  end.

(** What the port does with one transmission: it takes the bytes, through
    the writer it hands out, or [getWriter] or [write] fails. *)
Inductive attempt : Type :=
| Succeeds (writer : nat)
| Fails (e : exn).

(** What [sendCommandIfNeeded] and [sendOnce] do to the outside.  The two
    error events are those of [handleError] for the text
    ["Error sending command: " + e.message]. *)
Inductive effect : Type :=
| Wrote (data : list byte)
| ConsoleErrorSending (e : exn)
| OnErrorSending (cb : callback) (e : exn)
| SetInterval (timer : nat) (ms : Z).

Definition set_writer (st : session) (w : option nat) : session := {|
  config := config st; port := port st; reader := reader st; writer := w;
  buffer := buffer st; commandInterval := commandInterval st;
  readQueue := readQueue st; onData := onData st; onError := onError st;
  onRawFrame := onRawFrame st |}.

Definition report (st : session) (e : exn) : list effect :=
  ConsoleErrorSending e ::
  match onError st with
  | Some cb => [OnErrorSending cb e]
  | None => []
  end.

(** [sendOnce()], for the payload it closes over.  Without a port the read
    of [this.port.writable] throws inside the [try]. *)
Definition sendOnce (a : attempt) (data : list byte) (st : session)
  : session * list effect :=
  match port st with
  | None =>
      (set_writer st None,
       report st (TypeError "Cannot read properties of null"))
  | Some _ =>
      match a with
      | Succeeds w => (set_writer st (Some w), [Wrote data])
      | Fails e => (set_writer st None, report st e)
      end
  end.

(** [sendCommandIfNeeded()]; [timer] is the handle [setInterval] gives. *)
Definition sendCommandIfNeeded (a : attempt) (timer : nat) (st : session)
  : session * list effect :=
  let cmd := command (config st) in
  let period := send_cmd_period (config st) in
  if enabled cmd then
    let data := payload (default "" cmd) in
    let '(st1, evs) := sendOnce a data st in
    match period with
    | Some p =>
        if 0 <? p then
          (set_commandInterval st1 (Some timer),
           evs ++ [SetInterval timer (p * 1000)])
        else (st1, evs)
    | None => (st1, evs)
    end
  else (st, []).

(** The text of a payload: two hexadecimal digits a byte, a space between
    bytes. *)
Definition hex_digit (n : N) : ascii :=
  if (n <? 10)%N then ascii_of_N (48 + n) else ascii_of_N (55 + n).

Definition two_hex (b : byte) : string :=
  let n := Byte.to_N b in
  String (hex_digit (n / 16)) (String (hex_digit (n mod 16)) EmptyString).

Fixpoint hex_command (bs : list byte) : string :=
  match bs with
  | [] => EmptyString
  | [b] => two_hex b
  | b :: rest => two_hex b +:+ " " +:+ hex_command rest
  end.

End Command.

(** ** [connect] *)

Module Connect.
Import Js Formula Config Session Command.

(** How the browser answers [connect]: the port the user grants, or the
    exception [requestPort] rejects with; the exception [open] rejects with,
    if any; the reader [getReader] hands out. *)
Record access : Type := {
  granted : result nat;
  opened : option exn;
  reader_lock : nat }.

Inductive step : Type :=
| RequestPort
| Open (settings : option (obj scalar))
| GetReader
| Loop
| Sending (e : effect).

(** [PolluSensSerial.connect()]: the session after it, what it did, and the
    constants of the read loop it started, or the exception it rejects
    with. *)
Definition connect (ac : access) (a : attempt) (timer : nat) (st : session)
  : session * list step * result loopEnv :=
  match granted ac with
  | Throw e => (st, [RequestPort], Throw e)
  | Ok p =>
      let st1 := set_port st (Some p) in
      let evs1 := [RequestPort; Open (Config.port (config st))] in
      match opened ac with
      | Some e => (st1, evs1, Throw e)
      | None =>
          let st2 := set_reader st1 (Some (reader_lock ac)) in
          match loopEnv_of (config st2) with
          | Throw e => (st2, evs1 ++ [GetReader], Throw e)
          | Ok env =>
              let '(st3, evs) := sendCommandIfNeeded a timer st2 in
              (st3, evs1 ++ [GetReader; Loop] ++ map Sending evs, Ok env)
          end
      end
  end.

End Connect.

(** ** [listSensorNames] and the default address *)

Module Listing.
Import Js Formula Config Session.

(** [rawSensors.map(s => s.name).filter(Boolean)]. *)
Definition listSensorNames (json : document) : list string :=
  omap (fun s => if truthy (name s) then name s else None)
       (rawSensors_of json).

(** [s.lastIndexOf('/')], from index [i] on with [found] so far. *)
Fixpoint lastIndexOf_slash (i : Z) (found : Z) (s : string) : Z :=
  match s with
  | EmptyString => found
  | String c s' =>
      lastIndexOf_slash (i + 1) (if (code c =? 47)%N then i else found) s'
  end.

(** [script.substring(0, script.lastIndexOf('/') + 1)]. *)
Definition basePath (script : string) : string :=
  String.substring 0 (Z.to_nat (lastIndexOf_slash 0 (-1) script + 1)) script.

(** [getDefaultConfigUrl()], for the address of the script. *)
Definition getDefaultConfigUrl (script : string) : string :=
  basePath script +:+ "sensors.json".

End Listing.

(** ** Where a reading comes from *)

Module Delivery.
Import Js Formula Config Session.

(** The reading is what the fields give on some window whose markers match
    and whose checksum passes. *)
Definition from_valid_frame (globals : list (string * value)) (env : loopEnv)
    (fl : Z) (fields : obj fieldMeta) (parsed : reading) : Prop :=
  exists w : list byte,
    markers_match env fl w = true /\
    valid globals env w = Ok true /\
    extract globals fields w = Ok parsed.

(** An event that carries a reading carries one that comes from such a
    window. *)
Definition sound (globals : list (string * value)) (env : loopEnv)
    (fl : Z) (fields : obj fieldMeta) (ev : event) : Prop :=
  match ev with
  | Resolve _ parsed | OnData _ parsed =>
      from_valid_frame globals env fl fields parsed
  | _ => True
  end.

End Delivery.

(** ** Chains of inheritance *)

Module Chain.
Import Js Formula Config Session.

(** The entries [l], each with a name and an [inherits_from] under which
    [nameMap] holds the next one, lead to [root], which has a name and no
    [inherits_from]. *)
Fixpoint linked (nameMap : gmap string sensorEntry) (l : list sensorEntry)
    (root : sensorEntry) : Prop :=
  match l with
  | [] => truthy (name root) = true /\ truthy (inherits_from root) = false
  | s :: rest =>
      truthy (name s) = true /\
      truthy (inherits_from s) = true /\
      nameMap !! default "" (inherits_from s) = Some (hd root rest) /\
      linked nameMap rest root
  end.

(** The first of the entries that declares something. *)
Definition nearest {A} (get : sensorEntry -> option A) (l : list sensorEntry)
  : option A :=
  head (omap get l).

End Chain.

Import Js Formula Config Session.

(** * Properties *)

(** ** The inner loop *)

Section Scan.

Variable globals : list (string * value).

Lemma set_buffer_same (st : session) : set_buffer st (buffer st) = st.
Proof. by destruct st. Qed.


Lemma deliver_buffer (st st' : session) (parsed : reading) (evs : list event) :
  deliver st parsed = (st', evs) -> buffer st' = buffer st.
Proof.
  unfold deliver. destruct (readQueue st); intros [= <- _]; reflexivity.
Qed.

(** [handleFrame] leaves the buffer alone. *)
Lemma handleFrame_buffer (env : loopEnv) (st st' : session) (data : list byte)
    (evs : list event) (r : result bool) :
  handleFrame globals env st data = (st', evs, r) -> buffer st' = buffer st.
Proof.
  unfold handleFrame.
  destruct (valid globals env data) as [[] | e]; try (intros [= <- _ _]; reflexivity).
  destruct (dataFields env) as [fields |]; try (intros [= <- _ _]; reflexivity).
  destruct (extract globals fields data) as [parsed | e];
    try (intros [= <- _ _]; reflexivity).
  destruct (deliver st parsed) as [st1 evs1] eqn:Hd.
  intros [= <- _ _]. eapply deliver_buffer, Hd.
Qed.

Lemma rel_index_nonneg (len : nat) (n : Z) :
  0 <= n -> n <= Z.of_nat len -> rel_index len n = Z.to_nat n.
Proof.
  intros H0 Hle. unfold rel_index.
  destruct (Z.ltb_spec n 0); lia.
Qed.

Lemma length_slice_from {A} (l : list A) (n : Z) :
  0 <= n -> n <= Z.of_nat (length l) ->
  Z.of_nat (length (slice_from l n)) = Z.of_nat (length l) - n.
Proof.
  intros H0 Hle. unfold slice_from.
  rewrite rel_index_nonneg by assumption.
  rewrite length_skipn. lia.
Qed.

Lemma length_tail_pos {A} (l : list A) :
  (0 < length l)%nat -> Z.of_nat (length (tail l)) = Z.of_nat (length l) - 1.
Proof. destruct l; simpl; lia. Qed.

(** A turn that does not leave the loop shortens the buffer: by the frame
    length when the markers match, by one byte otherwise. *)
Lemma scan_turn_shrinks (env : loopEnv) (st : session) (fl : Z) :
  frameLength env = Some fl -> 1 <= fl ->
  fl <= Z.of_nat (length (buffer st)) ->
  exists st',
    turn_session (scan_turn globals env st) = Some st' /\
    Z.of_nat (length (buffer st')) =
      Z.of_nat (length (buffer st))
      - (if markers_match env fl (slice_to (buffer st) fl) then fl else 1).
Proof.
  intros Hfl Hpos Hlen. unfold scan_turn. rewrite Hfl.
  destruct (Z.ltb_spec (Z.of_nat (length (buffer st))) fl) as [Hlt | _]; [lia |].
  destruct (markers_match env fl (slice_to (buffer st) fl)).
  - unfold accept.
    destruct (handleFrame globals env
                (set_buffer st (slice_from (buffer st) fl))
                (slice_to (buffer st) fl)) as [[st2 evs] r] eqn:Hh.
    apply handleFrame_buffer in Hh. simpl in Hh.
    exists st2. split.
    + destruct r as [[] | e]; reflexivity.
    + rewrite Hh. apply length_slice_from; lia.
  - eexists. split; [reflexivity |]. simpl.
    apply length_tail_pos. lia.
Qed.

Lemma scan_turn_short (env : loopEnv) (st : session) (fl : Z) :
  frameLength env = Some fl -> Z.of_nat (length (buffer st)) < fl ->
  scan_turn globals env st = Leave.
Proof.
  intros Hfl Hlt. unfold scan_turn. rewrite Hfl.
  destruct (Z.ltb_spec (Z.of_nat (length (buffer st))) fl); [reflexivity | lia].
Qed.

Lemma scan_enough_fuel (env : loopEnv) (fl : Z) :
  frameLength env = Some fl -> 1 <= fl ->
  forall (fuel : nat) (st : session),
    (length (buffer st) < fuel)%nat ->
    snd (scan globals fuel env st) <> OutOfFuel.
Proof.
  intros Hfl Hpos. induction fuel as [| fuel IH]; intros st Hlt; [lia |].
  simpl.
  destruct (Z.ltb_spec (Z.of_nat (length (buffer st))) fl) as [Hshort | Hlong].
  - rewrite (scan_turn_short env st fl Hfl Hshort). simpl. discriminate.
  - destruct (scan_turn_shrinks env st fl Hfl Hpos Hlong) as (st' & Ht & Hlen).
    destruct (scan_turn globals env st) as [| st1 evs | st1 evs e];
      simpl in Ht; try discriminate.
    injection Ht as ->.
      specialize (IH st').
      destruct (scan globals fuel env st') as [[st2 evs2] o] eqn:Hs.
      simpl in *. apply IH.
      destruct (markers_match env fl (slice_to (buffer st) fl)); lia.
Qed.

Lemma set_buffer_twice (st : session) (b b' : list byte) :
  set_buffer (set_buffer st b) b' = set_buffer st b'.
Proof. reflexivity. Qed.

Lemma slice_to_app {A} (w rest : list A) :
  slice_to (w ++ rest) (Z.of_nat (length w)) = w.
Proof.
  unfold slice_to. rewrite rel_index_nonneg.
  - rewrite Nat2Z.id. apply take_app_length.
  - lia.
  - rewrite length_app. lia.
Qed.

Lemma slice_from_app {A} (w rest : list A) :
  slice_from (w ++ rest) (Z.of_nat (length w)) = rest.
Proof.
  unfold slice_from. rewrite rel_index_nonneg.
  - rewrite Nat2Z.id. apply drop_app_length.
  - lia.
  - rewrite length_app. lia.
Qed.

(** A candidate whose markers match is taken off the buffer and handed to
    [handleFrame]. *)
Lemma scan_turn_match (env : loopEnv) (st : session) (w rest : list byte) :
  frameLength env = Some (Z.of_nat (length w)) ->
  buffer st = w ++ rest ->
  markers_match env (Z.of_nat (length w)) w = true ->
  scan_turn globals env st = accept globals env (set_buffer st rest) w.
Proof.
  intros Hfl Hbuf Hm. unfold scan_turn. rewrite Hfl, Hbuf.
  destruct (Z.ltb_spec (Z.of_nat (length (w ++ rest))) (Z.of_nat (length w)))
    as [Hlt | _].
  - rewrite length_app in Hlt. lia.
  - cbv zeta. rewrite slice_to_app, Hm, slice_from_app. reflexivity.
Qed.

(** A candidate that fails a marker costs the leading byte, and nothing
    else happens. *)
Lemma scan_turn_mismatch (env : loopEnv) (st : session) (fl : Z) :
  frameLength env = Some fl ->
  fl <= Z.of_nat (length (buffer st)) ->
  markers_match env fl (slice_to (buffer st) fl) = false ->
  scan_turn globals env st = Again (set_buffer st (tail (buffer st))) [].
Proof.
  intros Hfl Hlen Hm. unfold scan_turn. rewrite Hfl.
  destruct (Z.ltb_spec (Z.of_nat (length (buffer st))) fl); [lia |].
  cbv zeta. rewrite Hm. reflexivity.
Qed.

Lemma skipn_tail {A} (i : nat) (l : list A) : skipn i (tail l) = skipn (S i) l.
Proof. destruct l; [destruct i |]; reflexivity. Qed.

Lemma scan_skips_garbage (env : loopEnv) (fl : Z) (tl : list byte) :
  frameLength env = Some fl ->
  fl <= Z.of_nat (length tl) ->
  forall (garbage : list byte) (st : session) (fuel : nat),
    buffer st = garbage ++ tl ->
    (forall i : nat, (i < length garbage)%nat ->
       markers_match env fl (slice_to (skipn i (buffer st)) fl) = false) ->
    scan globals (length garbage + fuel) env st
    = scan globals fuel env (set_buffer st tl).
Proof.
  intros Hfl Htl. induction garbage as [| g garbage IH]; intros st fuel Hbuf Hg.
  - simpl in *. rewrite <- Hbuf, set_buffer_same. reflexivity.
  - cbn [length Nat.add scan].
    rewrite (scan_turn_mismatch env st fl Hfl).
    + rewrite (IH (set_buffer st (tail (buffer st))) fuel).
      * rewrite set_buffer_twice.
        destruct (scan globals fuel env (set_buffer st tl)) as [[st' evs] o].
        reflexivity.
      * simpl. rewrite Hbuf. reflexivity.
      * intros i Hi. simpl. rewrite skipn_tail.
        apply (Hg (S i)). simpl. lia.
    + rewrite Hbuf, length_app. simpl. lia.
    + apply (Hg 0%nat). simpl. lia.
Qed.

Lemma tail_skipn {A} (i : nat) (l : list A) : tail (skipn i l) = skipn (S i) l.
Proof.
  revert l. induction i as [| i IH]; intros l; destruct l as [| x l];
    simpl; auto.
Qed.

Lemma scan_short (env : loopEnv) (st : session) (fl : Z) (fuel : nat) :
  frameLength env = Some fl -> Z.of_nat (length (buffer st)) < fl ->
  scan globals (S fuel) env st = (st, [], Returns tt).
Proof.
  intros Hfl Hlt. simpl. rewrite (scan_turn_short env st fl Hfl Hlt).
  reflexivity.
Qed.

Lemma valid_results (env : loopEnv) (data : list byte) (ck : checksumSpec)
    (a b : value) :
  checksum_ env = Some ck ->
  evalSafe globals (formula_text (checksum_eval ck)) (context data) = Ok a ->
  evalSafe globals (formula_text (checksum_compare ck)) (context data) = Ok b ->
  valid globals env data = Ok (strict_eq a b).
Proof.
  intros Hck Ha Hb. unfold valid. rewrite Hck.
  unfold mbind, result_bind. rewrite Ha, Hb. reflexivity.
Qed.

Lemma handleFrame_invalid (env : loopEnv) (st : session) (data : list byte) :
  valid globals env data = Ok false ->
  handleFrame globals env st data = (st, [], Ok false).
Proof. intros Hv. unfold handleFrame. rewrite Hv. reflexivity. Qed.

Lemma handleFrame_valid (env : loopEnv) (st : session) (data : list byte)
    (fields : obj fieldMeta) (parsed : reading) :
  valid globals env data = Ok true ->
  dataFields env = Some fields ->
  extract globals fields data = Ok parsed ->
  handleFrame globals env st data
  = (fst (deliver st parsed), rawFrame st data ++ snd (deliver st parsed),
     Ok true).
Proof.
  intros Hv Hf He. unfold handleFrame. rewrite Hv, Hf, He.
  destruct (deliver st parsed). reflexivity.
Qed.

Lemma handleFrame_not_false (env : loopEnv) (st : session) (data : list byte) :
  valid globals env data = Ok true ->
  snd (handleFrame globals env st data) <> Ok false.
Proof.
  intros Hv. unfold handleFrame. rewrite Hv.
  destruct (dataFields env) as [fields |]; [| discriminate].
  destruct (extract globals fields data) as [parsed | e]; [| discriminate].
  destruct (deliver st parsed). discriminate.
Qed.

Lemma deliver_pops (st : session) (parsed : reading) :
  deliver st parsed
  = (set_readQueue st (tail (readQueue st)),
     match readQueue st with r :: _ => [Resolve r parsed] | [] => [] end
     ++ match onData st with Some cb => [OnData cb parsed] | None => [] end).
Proof. destruct st as [c p r w b t q d e f]. destruct q; reflexivity. Qed.





Lemma fill_throws (before after : obj fieldMeta) (name : string)
    (meta : fieldMeta) (data : list byte) (e : exn) :
  Forall (fun kv =>
            exists v : value,
              evalSafe globals (formula_text (field_expr (snd kv)))
                (context data) = Ok v) before ->
  evalSafe globals (formula_text (field_expr meta)) (context data) = Throw e ->
  forall parsed : reading,
    fill globals parsed (before ++ (name, meta) :: after) data = Throw e.
Proof.
  intros Hb Hm. induction Hb as [| [k m] before [v Hv] Hb IH];
    intros parsed; simpl.
  - rewrite Hm. reflexivity.
  - simpl in Hv. rewrite Hv. cbn [mbind result_bind]. apply IH.
Qed.

Lemma extract_throws (fields before after : obj fieldMeta) (name : string)
    (meta : fieldMeta) (data : list byte) (e : exn) :
  entries fields = before ++ (name, meta) :: after ->
  Forall (fun kv =>
            exists v : value,
              evalSafe globals (formula_text (field_expr (snd kv)))
                (context data) = Ok v) before ->
  evalSafe globals (formula_text (field_expr meta)) (context data) = Throw e ->
  extract globals fields data = Throw e.
Proof.
  intros He Hb Hm. unfold extract. rewrite He.
  apply fill_throws; assumption.
Qed.

(** What [handleFrame] has done when a formula throws: the call of the
    raw-frame callback, if the checksum had passed. *)
Lemma handleFrame_fault (env : loopEnv) (st : session) (data : list byte)
    (e : exn) :
  formula_fault globals env data e ->
  handleFrame globals env st data
  = (st,
     match valid globals env data with
     | Ok true => rawFrame st data
     | _ => []
     end,
     Throw e).
Proof.
  intros [ck Hck He | ck a Hck Ha He
         | fields before after name meta Hv Hf Hes Hb He];
    unfold handleFrame.
  - unfold valid. rewrite Hck, He. reflexivity.
  - unfold valid. rewrite Hck, Ha, He. reflexivity.
  - rewrite Hv, Hf,
      (extract_throws fields before after name meta data e Hes Hb He).
    reflexivity.
Qed.

(** The inner loop after [n] turns that stayed in it. *)
Lemma scan_after_turns (env : loopEnv) (n : nat) :
  forall (st st' : session) (evs : list event) (fuel : nat),
    turns globals n env st = Some (st', evs) ->
    scan globals (n + fuel) env st
    = let '(st'', evs', o) := scan globals fuel env st' in
      (st'', evs ++ evs', o).
Proof.
  induction n as [| n IH]; intros st st' evs fuel Ht; simpl in Ht.
  - injection Ht as <- <-. simpl.
    destruct (scan globals fuel env st) as [[st'' evs'] o]. reflexivity.
  - cbn [Nat.add scan].
    destruct (scan_turn globals env st) as [| st1 evs1 | st1 evs1 e];
      try discriminate.
    destruct (turns globals n env st1) as [[st2 evs2] |] eqn:Ht2;
      try discriminate.
    injection Ht as <- <-.
    rewrite (IH st1 st2 evs2 fuel Ht2).
    destruct (scan globals fuel env st2) as [[st'' evs'] o].
    rewrite app_assoc. reflexivity.
Qed.












End Scan.

(** ** C10: the inner loop ends *)

(** C10.  With a frame length of at least 1, a turn of the inner loop that
    finds [frameLength] bytes or more shortens the buffer, by exactly
    [frameLength] bytes when both markers match and by exactly one byte
    otherwise; a turn that finds fewer leaves the loop; and the loop is over
    within [length buffer + 1] turns. *)
Theorem C10_scan_terminates (globals : list (string * value))
    (env : loopEnv) (st : session) (fl : Z) :
  frameLength env = Some fl -> 1 <= fl ->
  (fl <= Z.of_nat (length (buffer st)) ->
   exists st',
     turn_session (scan_turn globals env st) = Some st' /\
     Z.of_nat (length (buffer st')) =
       Z.of_nat (length (buffer st))
       - (if markers_match env fl (slice_to (buffer st) fl) then fl else 1)) /\
  (Z.of_nat (length (buffer st)) < fl -> scan_turn globals env st = Leave) /\
  (forall fuel : nat,
     (length (buffer st) < fuel)%nat ->
     snd (scan globals fuel env st) <> OutOfFuel).
Proof.
  intros Hfl Hpos. split; [| split].
  - apply scan_turn_shrinks; assumption.
  - apply scan_turn_short; assumption.
  - intros fuel Hlt. eapply scan_enough_fuel; eassumption.
Qed.

Lemma C10_scan_terminates_witness :
  let env := Scenario.env_of Scenario.payload_descriptor in
  let st := set_buffer (Scenario.listening Scenario.payload_descriptor)
              Scenario.stream in
  frameLength env = Some 5 /\ 1 <= 5 /\
  snd (scan [] 12 env st) <> OutOfFuel.
Proof.
  intros env st.
  assert (Hfl : frameLength env = Some 5) by reflexivity.
  assert (Hpos : 1 <= 5) by lia.
  split; [exact Hfl | split; [exact Hpos |]].
  apply (C10_scan_terminates [] env st 5 Hfl Hpos).
  simpl. lia.
Defined.

(** ** C6: resynchronisation *)

(** C6, as stated, fails.  Garbage that begins like a frame is taken for
    one.  The frame [AA 10 00 00 10] alone is accepted and its reading
    delivered.  Behind the two bytes [AA 01] it is not: the first turn finds
    both markers in place at the first byte of the garbage, takes five bytes
    off the buffer, not one, and reports a checksum failure; two bytes are
    left, the frame is never a candidate and nothing is delivered. *)
Lemma C6_counterexample :
  let env := Scenario.env_of Scenario.payload_descriptor in
  let st := Scenario.listening Scenario.payload_descriptor in
  let garbage := [xaa; x01] in
  let frame := [xaa; x10; x00; x00; x10] in
  frameLength env = Some 5 /\
  markers_match env 5 frame = true /\
  Scenario.run [] Scenario.payload_descriptor [Chunk frame]
  = Some ([], [OnData 1%nat [("temp"%string, VNum 16)]], Reading) /\
  scan_turn [] env (set_buffer st (garbage ++ frame))
  = Again (set_buffer st [x00; x10])
      [ConsoleError ChecksumFailed; OnError 2%nat ChecksumFailed] /\
  Scenario.run [] Scenario.payload_descriptor [Chunk (garbage ++ frame)]
  = Some ([x00; x10],
          [ConsoleError ChecksumFailed; OnError 2%nat ChecksumFailed],
          Reading).
Proof. repeat split; vm_compute; reflexivity. Qed.

(** C6, amended.  Let the buffer hold K bytes at none of whose offsets the
    candidate window passes both marker checks, followed by a frame whose
    markers match.  Then each of the first K turns of the inner loop removes
    exactly the leading byte and does nothing else, the next turn takes the
    frame off the buffer and hands it to [handleFrame], and a turn that finds
    fewer than [frameLength] bytes leaves the loop with the buffer untouched
    and nothing attempted. *)
Theorem C6_resynchronises (globals : list (string * value)) (env : loopEnv)
    (st : session) (garbage frame rest : list byte) :
  let fl := Z.of_nat (length frame) in
  frameLength env = Some fl ->
  buffer st = garbage ++ frame ++ rest ->
  markers_match env fl frame = true ->
  (forall i : nat, (i < length garbage)%nat ->
     markers_match env fl (slice_to (skipn i (buffer st)) fl) = false) ->
  (forall i : nat, (i < length garbage)%nat ->
     scan_turn globals env (set_buffer st (skipn i (buffer st)))
     = Again (set_buffer st (skipn (S i) (buffer st))) []) /\
  scan_turn globals env (set_buffer st (frame ++ rest))
  = accept globals env (set_buffer st rest) frame /\
  (forall fuel : nat,
     scan globals (length garbage + fuel) env st
     = scan globals fuel env (set_buffer st (frame ++ rest))) /\
  (forall (short : session) (fuel : nat),
     Z.of_nat (length (buffer short)) < fl ->
     scan_turn globals env short = Leave /\
     scan globals (S fuel) env short = (short, [], Returns tt)).
Proof.
  intros fl Hfl Hbuf Hm Hg. repeat split.
  - intros i Hi.
    rewrite (scan_turn_mismatch globals env _ fl Hfl).
    + simpl. rewrite tail_skipn. reflexivity.
    + simpl. rewrite length_skipn, Hbuf, !length_app. unfold fl. lia.
    + simpl. apply Hg, Hi.
  - rewrite (scan_turn_match globals env (set_buffer st (frame ++ rest))
               frame rest Hfl eq_refl Hm).
    reflexivity.
  - intros fuel. apply (scan_skips_garbage globals env fl); try assumption.
    rewrite length_app. unfold fl. lia.
  - eapply scan_turn_short; eassumption.
  - eapply scan_short; eassumption.
Qed.

Lemma C6_resynchronises_witness :
  let env := Scenario.env_of Scenario.payload_descriptor in
  let st := set_buffer (Scenario.listening Scenario.payload_descriptor)
              ([xff; x01] ++ [xaa; x10; x00; x00; x10] ++ [xaa]) in
  scan [] (2 + 5) env st
  = scan [] 5 env (set_buffer st ([xaa; x10; x00; x00; x10] ++ [xaa])).
Proof.
  intros env st.
  refine (proj1 (proj2 (proj2
    (C6_resynchronises [] env st [xff; x01] [xaa; x10; x00; x00; x10] [xaa]
       _ _ _ _))) 5%nat).
  - reflexivity.
  - reflexivity.
  - reflexivity.
  - intros [| [| i]] Hi; [reflexivity | reflexivity | simpl in Hi; lia].
Defined.

(** ** C7: the checksum decides *)

Lemma strict_eq_identical (a b : value) :
  strict_eq a b = true <-> identical a b.
Proof.
  split.
  - destruct a, b; cbn [strict_eq]; try discriminate; intros H.
    + apply Z.eqb_eq in H. subst. constructor.
    + apply identical_right. unfold SFeqb in H. cbn [to_number] in H.
      destruct (SFcompare (of_Z n) f) as [[| |] |]; try discriminate.
      reflexivity.
    + constructor.
    + apply Nat.eqb_eq in H. subst. constructor.
    + apply Nat.eqb_eq in H. subst. constructor.
    + apply identical_left; [reflexivity |]. unfold SFeqb in H.
      cbn [to_number] in *.
      destruct (SFcompare f (of_Z n)) as [[| |] |]; try discriminate.
      reflexivity.
    + apply identical_left; [reflexivity |]. unfold SFeqb in H.
      cbn [to_number] in *.
      destruct (SFcompare f f0) as [[| |] |]; try discriminate.
      reflexivity.
    + apply Bool.eqb_prop in H. subst. constructor.
    + constructor.
  - intros [n | f v Hn Hc | n f Hc | | | v | r l l' | r]; cbn [strict_eq].
    + apply Z.eqb_refl.
    + destruct v; try discriminate; unfold SFeqb; cbn [to_number] in *;
        rewrite Hc; reflexivity.
    + unfold SFeqb. cbn [to_number]. rewrite Hc. reflexivity.
    + reflexivity.
    + reflexivity.
    + destruct v; reflexivity.
    + apply Nat.eqb_refl.
    + apply Nat.eqb_refl.
Qed.

(** C7.  For a candidate whose markers match and whose two checksum formulas
    evaluate, the check passes exactly when the two results are equal; for
    results that are integers, exactly when they are the same integer.
    [handleFrame] returns [false] exactly when they are not equal: then
    "Checksum failed" is reported, the bytes of the candidate are off the
    buffer and the inner loop goes on with the rest.  When the results are
    equal and the fields evaluate, the reading is delivered and no error is
    reported. *)
Theorem C7_checksum_decides (globals : list (string * value)) (env : loopEnv)
    (st : session) (frame rest : list byte) (ck : checksumSpec) (a b : value) :
  let fl := Z.of_nat (length frame) in
  frameLength env = Some fl ->
  buffer st = frame ++ rest ->
  markers_match env fl frame = true ->
  checksum_ env = Some ck ->
  evalSafe globals (formula_text (checksum_eval ck)) (context frame) = Ok a ->
  evalSafe globals (formula_text (checksum_compare ck)) (context frame) = Ok b ->
  (valid globals env frame = Ok true <-> identical a b) /\
  (forall x y : Z,
     a = VNum x -> b = VNum y ->
     (valid globals env frame = Ok true <-> x = y)) /\
  (snd (handleFrame globals env (set_buffer st rest) frame) = Ok false
   <-> ~ identical a b) /\
  (~ identical a b ->
   scan_turn globals env st
   = Again (set_buffer st rest) (handleError st ChecksumFailed) /\
   forall fuel : nat,
     scan globals (S fuel) env st
     = let '(st', evs, o) := scan globals fuel env (set_buffer st rest) in
       (st', handleError st ChecksumFailed ++ evs, o)) /\
  (identical a b ->
   forall (fields : obj fieldMeta) (parsed : reading),
     dataFields env = Some fields ->
     extract globals fields frame = Ok parsed ->
     scan_turn globals env st
     = Again (fst (deliver (set_buffer st rest) parsed))
         (rawFrame st frame ++ snd (deliver (set_buffer st rest) parsed))).
Proof.
  intros fl Hfl Hbuf Hm Hck Ha Hb.
  pose proof (valid_results globals env frame ck a b Hck Ha Hb) as Hv.
  pose proof (scan_turn_match globals env st frame rest Hfl Hbuf Hm) as Ht.
  pose proof (strict_eq_identical a b) as Hid.
  assert (Hpass : valid globals env frame = Ok true <-> identical a b).
  { rewrite Hv, <- Hid. split; [intros [= ->] | intros ->]; reflexivity. }
  assert (Hfail : ~ identical a b -> valid globals env frame = Ok false).
  { intros Hne. rewrite Hv. destruct (strict_eq a b); [| reflexivity].
    exfalso. apply Hne, Hid. reflexivity. }
  split; [exact Hpass |]. split; [| split; [| split]].
  - intros x y -> ->. rewrite Hpass. split.
    + intros Hxy. inversion Hxy. reflexivity.
    + intros ->. constructor.
  - split.
    + intros Hfalse Heq. apply Hpass in Heq.
      exact (handleFrame_not_false globals env _ frame Heq Hfalse).
    + intros Hne.
      rewrite (handleFrame_invalid globals env _ frame (Hfail Hne)).
      reflexivity.
  - intros Hne.
    assert (Hturn : scan_turn globals env st
                    = Again (set_buffer st rest) (handleError st ChecksumFailed)).
    { rewrite Ht. unfold accept.
      rewrite (handleFrame_invalid globals env _ frame (Hfail Hne)).
      reflexivity. }
    split; [exact Hturn |].
    intros fuel. cbn [scan]. rewrite Hturn. reflexivity.
  - intros Heq fields parsed Hf He. apply Hpass in Heq.
    rewrite Ht. unfold accept.
    rewrite (handleFrame_valid globals env _ frame fields parsed Heq Hf He).
    reflexivity.
Qed.

Lemma C7_checksum_decides_witness :
  let env := Scenario.env_of Scenario.sum_descriptor in
  let st := Scenario.listening Scenario.sum_descriptor in
  let good := [xf0; x20; x05] in
  let bad := [xf0; x20; x06] in
  scan_turn [] env (set_buffer st ([xaa; xf0; x20; x05; x15] ++ good))
  = Again (set_buffer st good) [OnData 1%nat [("temp"%string, VNum 240)]] /\
  scan_turn [] env (set_buffer st ([xaa; xf0; x20; x05; x16] ++ bad))
  = Again (set_buffer st bad)
      [ConsoleError ChecksumFailed; OnError 2%nat ChecksumFailed].
Proof.
  intros env st good bad.
  pose (ck := {| checksum_eval := Some "data[4]"%string;
                 checksum_compare :=
                   Some "(data[1] + data[2] + data[3]) % 256"%string |}).
  split.
  - refine (proj2 (proj2 (proj2 (proj2
      (C7_checksum_decides [] env
         (set_buffer st ([xaa; xf0; x20; x05; x15] ++ good))
         [xaa; xf0; x20; x05; x15] good ck (VNum 21) (VNum 21)
         _ _ _ _ _ _)))) _
      [("temp"%string, MetaExpr "data[1]")]
      [("temp"%string, VNum 240)] _ _).
    + reflexivity.
    + reflexivity.
    + reflexivity.
    + reflexivity.
    + reflexivity.
    + reflexivity.
    + constructor.
    + reflexivity.
    + reflexivity.
  - refine (proj1 (proj1 (proj2 (proj2 (proj2
      (C7_checksum_decides [] env
         (set_buffer st ([xaa; xf0; x20; x05; x16] ++ bad))
         [xaa; xf0; x20; x05; x16] bad ck (VNum 22) (VNum 21)
         _ _ _ _ _ _)))) _)).
    + reflexivity.
    + reflexivity.
    + reflexivity.
    + reflexivity.
    + reflexivity.
    + reflexivity.
    + intros Heq. inversion Heq.
Defined.

(** ** C9: requests are served first in, first out *)



(** ** C1: a formula that throws *)

(** C1, as stated, fails.  The checksum formula [data[4] of the descriptor
    has a bracket left open.  The first frame is taken off the buffer, the
    syntax error leaves [handleFrame] and is caught around the whole loop: it
    is reported as a read loop error, not as a checksum failure, and the loop
    is over.  The second chunk, a frame that would pass, is never read.  The
    same happens when the formula of a field is the broken one. *)
Lemma C1_counterexample :
  Scenario.run [] Scenario.broken_descriptor
    [Chunk [xaa; x10; x00; x00; x10]; Chunk [xaa; x05; x00; x00; x05]]
  = Some ([],
          [ConsoleError (ReadLoopError SyntaxError);
           OnError 2%nat (ReadLoopError SyntaxError)],
          Caught SyntaxError)
  /\
  Scenario.run [] Scenario.broken_field_descriptor
    [Chunk [xaa; x10; x00; x00; x10]; Chunk [xaa; x05; x00; x00; x05]]
  = Some ([],
          [ConsoleError (ReadLoopError SyntaxError);
           OnError 2%nat (ReadLoopError SyntaxError)],
          Caught SyntaxError)
  /\
  Scenario.run [] Scenario.payload_descriptor
    [Chunk [xaa; x10; x00; x00; x10]; Chunk [xaa; x05; x00; x00; x05]]
  = Some ([],
          [OnData 1%nat [("temp"%string, VNum 16)];
           OnData 1%nat [("temp"%string, VNum 5)]],
          Reading).
Proof. repeat split; vm_compute; reflexivity. Qed.

(** C1, amended.  Let the inner loop, after the chunk just read and any
    number of turns, find at the head of the buffer a frame whose markers
    match, and let a checksum or field formula throw on it.  Then the frame is
    off the buffer, no request is resolved and the subscriber is not called
    for it, no checksum failure is reported for it: the exception is reported
    once, by [handleError], as a read loop error, and the loop is over,
    whatever reads would follow. *)
Theorem C1_formula_fault_ends_loop (globals : list (string * value))
    (env : loopEnv) (st0 st : session) (value frame rest : list byte)
    (n : nat) (before : list event) (e : exn) (more : list readResult)
    (fuel : nat) :
  let fl := Z.of_nat (length frame) in
  frameLength env = Some fl ->
  turns globals n env (set_buffer st0 (buffer st0 ++ value))
  = Some (st, before) ->
  buffer st = frame ++ rest ->
  markers_match env fl frame = true ->
  formula_fault globals env frame e ->
  exists evs : list event,
    loop globals (n + S fuel) env (Chunk value :: more) st0
    = (set_buffer st rest, before ++ evs, Caught e) /\
    evs = match valid globals env frame with
          | Ok true => rawFrame st frame
          | _ => []
          end ++ handleError st (ReadLoopError e) /\
    Trace.reports evs = [ReadLoopError e] /\
    Trace.resolutions evs = [] /\
    Trace.notifications evs = [].
Proof.
  intros fl Hfl Hturns Hbuf Hm Hfault.
  eexists. split; [| split; [reflexivity |]].
  - cbn [loop].
    rewrite (scan_after_turns globals env n _ st before (S fuel) Hturns).
    cbn [scan].
    rewrite (scan_turn_match globals env st frame rest Hfl Hbuf Hm).
    unfold accept.
    rewrite (handleFrame_fault globals env _ frame e Hfault).
    rewrite <- app_assoc. reflexivity.
  - unfold handleError, rawFrame.
    destruct (valid globals env frame) as [[] | e'];
      destruct (onRawFrame st); destruct (onError st); repeat split.
Qed.

Lemma C1_formula_fault_ends_loop_witness :
  let env := Scenario.env_of Scenario.broken_descriptor in
  let st0 := Scenario.listening Scenario.broken_descriptor in
  exists evs : list event,
    loop [] (1 + 1) env
      [Chunk [xff; xaa; x10; x00; x00; x10]; Chunk [xaa; x05; x00; x00; x05]]
      st0
    = (set_buffer st0 [], [] ++ evs, Caught SyntaxError) /\
    Trace.reports evs = [ReadLoopError SyntaxError].
Proof.
  intros env st0.
  destruct (C1_formula_fault_ends_loop [] env st0
              (set_buffer st0 [xaa; x10; x00; x00; x10])
              [xff; xaa; x10; x00; x00; x10]
              [xaa; x10; x00; x00; x10] [] 1 [] SyntaxError
              [Chunk [xaa; x05; x00; x00; x05]] 0)
    as (evs & Hloop & _ & Hrep & _).
  - reflexivity.
  - reflexivity.
  - reflexivity.
  - reflexivity.
  - apply (fault_eval [] env _ _
             {| checksum_eval := Some "data[4"%string;
                checksum_compare := Some "data[1]^data[2]^data[3]"%string |});
      reflexivity.
  - exists evs. split; [exact Hloop | exact Hrep].
Defined.

(** ** C2: the name of the window *)

(** C2, as stated, fails.  [evalSafe] binds the frame to the name [data], so
    a formula over [window] reads the global scope.  Where no global is called
    [window] the first frame ends the loop with a reference error; in a
    browser [window[i]] is [undefined], [checksum.eval] gives [undefined] and
    [checksum.compare] gives 0, and both frames fail the checksum.  Written
    over [data], the formulas of the claim still reject both frames of the
    stream: the sum of the first frame includes the marker, 0xAA ^ 0x10 is
    0xBA and not 0x10.  In no case is a reading delivered. *)
Lemma C2_counterexample :
  Scenario.run [] Scenario.window_descriptor [Chunk Scenario.stream]
  = Some ([xff; xaa; x05; x00; x00; x05],
          [ConsoleError (ReadLoopError (ReferenceError "window"));
           OnError 2%nat (ReadLoopError (ReferenceError "window"))],
          Caught (ReferenceError "window"))
  /\
  Scenario.run Scenario.browser Scenario.window_descriptor
    [Chunk Scenario.stream]
  = Some ([],
          [ConsoleError ChecksumFailed; OnError 2%nat ChecksumFailed;
           ConsoleError ChecksumFailed; OnError 2%nat ChecksumFailed],
          Reading)
  /\
  Scenario.run [] Scenario.data_descriptor [Chunk Scenario.stream]
  = Some ([],
          [ConsoleError ChecksumFailed; OnError 2%nat ChecksumFailed;
           ConsoleError ChecksumFailed; OnError 2%nat ChecksumFailed],
          Reading)
  /\
  evalSafe [] "data[0]^data[1]^data[2]^data[3]"
    (context [xaa; x10; x00; x00; x10]) = Ok (VNum 186).
Proof. repeat split; vm_compute; reflexivity. Qed.

(** C2, amended.  [evalSafe] gives a formula the frame under the name
    [data]: [data] is the frame and [data[i]] its byte [i].  For a descriptor
    with frame length 5, start byte 0xAA, no end marker, checksum eval
    [data[4]], compare [data[1]^data[2]^data[3]] and data [{temp: data[1]}],
    the stream AA 10 00 00 10 FF AA 05 00 00 05 delivers [{temp: 16}] for the
    first frame, loses the byte FF to the turn that follows, and delivers
    [{temp: 5}] for the second frame. *)
Theorem C2_data_names_the_frame (globals : list (string * value)) :
  (forall data : list byte,
     evalSafe globals "data" (context data) = Ok (VArr 0 data)) /\
  (forall (data : list byte) (i : Z),
     compile "return (data[4])" = Some (EIndex (EVar "data") (ENum 4)) /\
     eval globals (context data) (EIndex (EVar "data") (ENum i))
     = Ok (arr_get data i)) /\
  Scenario.run globals Scenario.payload_descriptor [Chunk Scenario.stream]
  = Some ([],
          [OnData 1%nat [("temp"%string, VNum 16)];
           OnData 1%nat [("temp"%string, VNum 5)]],
          Reading) /\
  (let env := Scenario.env_of Scenario.payload_descriptor in
   let st := Scenario.listening Scenario.payload_descriptor in
   scan_turn globals env (set_buffer st Scenario.stream)
   = Again (set_buffer st [xff; xaa; x05; x00; x00; x05])
       [OnData 1%nat [("temp"%string, VNum 16)]] /\
   scan_turn globals env (set_buffer st [xff; xaa; x05; x00; x00; x05])
   = Again (set_buffer st [xaa; x05; x00; x00; x05]) []).
Proof.
  split; [| split; [| split; [| split]]].
  - intros data. reflexivity.
  - intros data i. split; reflexivity.
  - reflexivity.
  - reflexivity.
  - reflexivity.
Qed.

(** ** Resolution of [inherits_from] *)

Section Resolve.

Lemma assoc_app {A} (k : string) (l1 l2 : obj A) :
  assoc k (l1 ++ l2) = or_else (assoc k l1) (assoc k l2).
Proof.
  induction l1 as [| [y v] l1 IH]; simpl; [reflexivity |].
  destruct (String.eqb k y); [reflexivity | exact IH].
Qed.

Lemma assoc_spread_base {A} (k : string) (base child : obj A) :
  assoc k (map (fun kv => (fst kv, default (snd kv) (assoc (fst kv) child)))
             base)
  = match assoc k base with
    | Some v => Some (default v (assoc k child))
    | None => None
    end.
Proof.
  induction base as [| [y v] base IH]; simpl; [reflexivity |].
  destruct (String.eqb_spec k y) as [-> | _]; [reflexivity | exact IH].
Qed.

Lemma assoc_spread_child {A} (k : string) (base child : obj A) :
  assoc k (List.filter (fun kv => negb (has_key (fst kv) base)) child)
  = if has_key k base then None else assoc k child.
Proof.
  induction child as [| [y v] child IH]; simpl.
  - destruct (has_key k base); reflexivity.
  - destruct (has_key y base) eqn:Hy; simpl.
    + rewrite IH. destruct (String.eqb_spec k y) as [-> | _].
      * rewrite Hy. reflexivity.
      * reflexivity.
    + destruct (String.eqb_spec k y) as [-> | _].
      * rewrite Hy. reflexivity.
      * exact IH.
Qed.

(** A spread is read key by key: the value of the child where the child has
    the key, the value of the base elsewhere. *)
Lemma assoc_spread_obj {A} (k : string) (base child : obj A) :
  assoc k (spread_obj base child) = or_else (assoc k child) (assoc k base).
Proof.
  unfold spread_obj.
  rewrite assoc_app, assoc_spread_base, assoc_spread_child.
  unfold has_key.
  destruct (assoc k base), (assoc k child); reflexivity.
Qed.

Lemma spread_opt_obj {A} (base child : option (obj A)) :
  default [] (spread_opt base child)
  = spread_obj (default [] base) (default [] child).
Proof. reflexivity. Qed.

Lemma truthy_Some (s : string) : s <> ""%string -> truthy (Some s) = true.
Proof.
  intros Hs. unfold truthy.
  destruct (String.eqb_spec s ""); [contradiction | reflexivity].
Qed.

Lemma nameMap_get_own (nameMap : gmap string sensorEntry) (k : string)
    (s : sensorEntry) :
  nameMap !! k = Some s -> nameMap_get nameMap k = Own s.
Proof. intros H. unfold nameMap_get. rewrite H. reflexivity. Qed.

(** The step of [resolveInheritance] for an entry with a base in
    [nameMap], called with an array that does not hold its name. *)
Lemma resolveInheritance_step (fuel : nat) (nameMap : gmap string sensorEntry)
    (sensor base : sensorEntry) (n b : string) (stack : list string) :
  name sensor = Some n -> n <> ""%string ->
  inherits_from sensor = Some b -> b <> ""%string ->
  includes stack n = false ->
  nameMap !! b = Some base ->
  resolveInheritance (S fuel) nameMap sensor (StackArr stack)
  = let '(ds, r) :=
      resolveInheritance fuel nameMap base (StackArr (stack ++ [n])) in
    match r with
    | Returns (Some resolvedBase) =>
        (ds, Returns (Some (merged sensor resolvedBase)))
    | Returns None =>
        (ds, Throws (TypeError "Cannot read properties of null"))
    | Throws e => (ds, Throws e)
    | OutOfFuel => (ds, OutOfFuel)
    end.
Proof.
  intros Hn Hn0 Hb Hb0 Hstack Hbase. cbn [resolveInheritance].
  rewrite Hn, Hb, (truthy_Some n Hn0), (truthy_Some b Hb0).
  cbn [negb default from_option id].
  rewrite Hstack, (nameMap_get_own nameMap b base Hbase).
  reflexivity.
Qed.

(** The fallback for a name that the stack already holds. *)
Lemma resolveInheritance_cycle (fuel : nat) (nameMap : gmap string sensorEntry)
    (sensor : sensorEntry) (n b : string) (stack : list string) :
  name sensor = Some n -> n <> ""%string ->
  inherits_from sensor = Some b -> b <> ""%string ->
  includes stack n = true ->
  resolveInheritance (S fuel) nameMap sensor (StackArr stack)
  = ([WarnCircular (String.concat " -> " (stack ++ [n]))],
     Returns (Some sensor)).
Proof.
  intros Hn Hn0 Hb Hb0 Hstack. cbn [resolveInheritance].
  rewrite Hn, Hb, (truthy_Some n Hn0), (truthy_Some b Hb0).
  cbn [negb default from_option id]. rewrite Hstack. reflexivity.
Qed.

Lemma well_keyed_add (nameMap : gmap string sensorEntry) (s : sensorEntry) :
  well_keyed nameMap -> well_keyed (nameMap_add nameMap s).
Proof.
  intros Hw. unfold nameMap_add.
  destruct (name s) as [n |] eqn:Hn; [| exact Hw].
  destruct (truthy (Some n) && negb (String.eqb n "__proto__")); [| exact Hw].
  intros k s' Hk. destruct (decide (n = k)) as [<- | Hne].
  - rewrite lookup_insert_eq in Hk. congruence.
  - rewrite lookup_insert_ne in Hk by assumption. exact (Hw k s' Hk).
Qed.

Lemma well_keyed_build (rawSensors : list sensorEntry) :
  well_keyed (build_nameMap rawSensors).
Proof.
  unfold build_nameMap.
  assert (H : forall (l : list sensorEntry) (m : gmap string sensorEntry),
             well_keyed m -> well_keyed (foldl nameMap_add m l)).
  { induction l as [| x l IH]; intros m Hm; [exact Hm |].
    apply IH, well_keyed_add, Hm. }
  apply H. intros k s Hk. rewrite lookup_empty in Hk. discriminate.
Qed.

Lemma includes_spec (stack : list string) (n : string) :
  includes stack n = true <-> n ∈ stack.
Proof.
  unfold includes. rewrite existsb_exists, list_elem_of_In.
  split.
  - intros (x & Hin & Heq). apply String.eqb_eq in Heq. subst x. exact Hin.
  - intros Hin. exists n. split; [exact Hin | apply String.eqb_refl].
Qed.

(** Below an entry of [nameMap], every nested call adds to the stack a key
    of [nameMap] that the stack did not hold: the names still outside the
    stack bound the depth. *)
Lemma resolveInheritance_total_keyed (nameMap : gmap string sensorEntry) :
  well_keyed nameMap ->
  forall (fuel : nat) (sensor : sensorEntry) (stack : list string),
    (truthy (name sensor) = true ->
     is_Some (nameMap !! default "" (name sensor))) ->
    (size (dom nameMap ∖ list_to_set stack) < fuel)%nat ->
    snd (resolveInheritance fuel nameMap sensor (StackArr stack)) <> OutOfFuel.
Proof.
  intros Hw. induction fuel as [| fuel IH]; intros sensor stack Hkey Hfuel;
    [lia |].
  cbn [resolveInheritance].
  destruct (truthy (name sensor)) eqn:Hn; cbn [negb]; [| discriminate].
  destruct (truthy (inherits_from sensor)) eqn:Hi; cbn [negb]; [| discriminate].
  destruct (includes stack (default "" (name sensor))) eqn:Hs; [discriminate |].
  unfold nameMap_get.
  destruct (nameMap !! default "" (inherits_from sensor)) as [base |] eqn:Hb.
  - specialize (IH base (stack ++ [default "" (name sensor)])).
    destruct (resolveInheritance fuel nameMap base
                (StackArr (stack ++ [default "" (name sensor)])))
      as [ds [[rb |] | e |]]; try discriminate.
    exfalso. apply IH; [| | reflexivity].
    + intros _. rewrite (Hw _ _ Hb). simpl. rewrite Hb. eauto.
    + assert (Hin : default "" (name sensor)
                    ∈ dom nameMap ∖ list_to_set stack).
      { apply elem_of_difference. split.
        - apply elem_of_dom, Hkey. reflexivity.
        - rewrite elem_of_list_to_set, <- includes_spec, Hs. discriminate. }
      assert (Heq : dom nameMap ∖ list_to_set (stack ++ [default "" (name sensor)])
                    = (dom nameMap ∖ list_to_set stack)
                      ∖ {[default "" (name sensor)]}).
      { rewrite list_to_set_app_L. simpl.
        rewrite (right_id_L ∅ (∪)), difference_difference_l_L.
        reflexivity. }
      rewrite Heq, size_difference by (apply singleton_subseteq_l, Hin).
      rewrite size_singleton.
      assert (size (dom nameMap ∖ list_to_set stack) <> 0)%nat.
      { apply size_non_empty_iff. intros Hempty.
        apply Hempty in Hin. exact (not_elem_of_empty _ Hin). }
      lia.
  - destruct (existsb _ object_prototype); discriminate.
Qed.

(** [resolveInheritance] returns or throws within [resolve_fuel] calls, for
    any entry and the empty stack. *)
Lemma resolveInheritance_total (nameMap : gmap string sensorEntry)
    (sensor : sensorEntry) :
  well_keyed nameMap ->
  snd (resolveInheritance (resolve_fuel nameMap) nameMap sensor default_stack)
  <> OutOfFuel.
Proof.
  intros Hw. unfold resolve_fuel, default_stack.
  remember (S (size nameMap)) as fuel eqn:Hfuel.
  cbn [resolveInheritance].
  destruct (truthy (name sensor)) eqn:Hn; cbn [negb]; [| discriminate].
  destruct (truthy (inherits_from sensor)) eqn:Hi; cbn [negb]; [| discriminate].
  cbn [includes existsb]. unfold nameMap_get.
  destruct (nameMap !! default "" (inherits_from sensor)) as [base |] eqn:Hb.
  - pose proof (resolveInheritance_total_keyed nameMap Hw fuel
                  base ([] ++ [default "" (name sensor)])) as Ht.
    destruct (resolveInheritance fuel nameMap base
                (StackArr ([] ++ [default "" (name sensor)])))
      as [ds [[rb |] | e |]]; try discriminate.
    exfalso. apply Ht; [| | reflexivity].
    + intros _. rewrite (Hw _ _ Hb). simpl. rewrite Hb. eauto.
    + subst fuel. apply Nat.lt_succ_r. rewrite <- size_dom.
      apply subseteq_size, subseteq_difference_l. reflexivity.
  - destruct (existsb _ object_prototype); discriminate.
Qed.

End Resolve.

(** ** C3: two entries that inherit from each other *)

(** C3, as stated, fails.  Called on [A] with the empty stack,
    [resolveInheritance] descends to [B] and from there to [A] again, where it
    warns and falls back to the raw [A]; on the way up [B] is merged over that
    [A] and [A] over the result.  The descriptor for [A] so has the
    [send_cmd_period] and the field [y] that only [B] declares, and the one
    for [B] the [command] and the field [x] of [A].  And [loadConfig], which
    calls the function through [map], throws on the two entries. *)
Lemma C3_counterexample :
  let nameMap := build_nameMap [Scenario.entryA; Scenario.entryB] in
  loadConfig (DocSensors [Scenario.entryA; Scenario.entryB]) None
  = ([], Throws (TypeError "stack.includes is not a function"))
  /\
  resolveInheritance (resolve_fuel nameMap) nameMap Scenario.entryA
    default_stack
  = ([WarnCircular "A -> B -> A"],
     Returns (Some {|
       name := Some "A"%string; inherits_from := None;
       command := Some "01 03"%string; send_cmd_period := Some 5;
       Config.port := Some [];
       frame := Some empty_obj; checksum := Some empty_obj;
       data := Some [("x"%string, MetaExpr "data[1]");
                     ("y"%string, MetaExpr "data[2]")] |}))
  /\
  resolveInheritance (resolve_fuel nameMap) nameMap Scenario.entryB
    default_stack
  = ([WarnCircular "B -> A -> B"],
     Returns (Some {|
       name := Some "B"%string; inherits_from := None;
       command := Some "01 03"%string; send_cmd_period := Some 5;
       Config.port := Some [];
       frame := Some empty_obj; checksum := Some empty_obj;
       data := Some [("y"%string, MetaExpr "data[2]");
                     ("x"%string, MetaExpr "data[1]")] |})).
Proof. repeat split; vm_compute; reflexivity. Qed.

(** C3, amended.  For two entries [A] and [B] of [nameMap] that inherit from
    each other, [resolveInheritance] with the empty stack returns after three
    calls, for either entry, with one warning that names the cycle.  The
    entry met for the second time contributes its raw fields; the result for
    [A] is [A] merged over [B] merged over the raw [A], so a field that only
    [B] declares is taken from [B], and likewise for [B]. *)
Theorem C3_cycle_resolves_merged (nameMap : gmap string sensorEntry)
    (A B : sensorEntry) (a b : string) (fuel : nat) :
  name A = Some a -> name B = Some b ->
  a <> ""%string -> b <> ""%string -> a <> b ->
  inherits_from A = Some b -> inherits_from B = Some a ->
  nameMap !! a = Some A -> nameMap !! b = Some B ->
  (3 <= fuel)%nat ->
  resolveInheritance fuel nameMap A default_stack
  = ([WarnCircular (a +:+ " -> " +:+ b +:+ " -> " +:+ a)],
     Returns (Some (merged A (merged B A)))) /\
  resolveInheritance fuel nameMap B default_stack
  = ([WarnCircular (b +:+ " -> " +:+ a +:+ " -> " +:+ b)],
     Returns (Some (merged B (merged A B)))) /\
  command (merged A (merged B A)) = or_else (command A) (command B) /\
  send_cmd_period (merged A (merged B A))
  = or_else (send_cmd_period A) (send_cmd_period B) /\
  forall k : string,
    assoc k (default [] (data (merged A (merged B A))))
    = or_else (assoc k (default [] (data A))) (assoc k (default [] (data B))).
Proof.
  intros HnA HnB Ha Hb Hab HiA HiB HmA HmB Hfuel.
  destruct fuel as [| [| [| fuel]]]; try lia.
  assert (Hnot : forall x y : string, x <> y -> includes [x] y = false).
  { intros x y Hxy. unfold includes. simpl.
    destruct (String.eqb_spec y x); [congruence | reflexivity]. }
  assert (Hin : forall x y : string, includes [x; y] x = true).
  { intros x y. unfold includes. simpl. rewrite String.eqb_refl. reflexivity. }
  split; [| split; [| split; [| split]]].
  - rewrite (resolveInheritance_step _ nameMap A B a b [] HnA Ha HiA Hb
               eq_refl HmB).
    rewrite (resolveInheritance_step _ nameMap B A b a [a] HnB Hb HiB Ha
               (Hnot a b Hab) HmA).
    rewrite (resolveInheritance_cycle _ nameMap A a b [a; b] HnA Ha HiA Hb
               (Hin a b)).
    reflexivity.
  - rewrite (resolveInheritance_step _ nameMap B A b a [] HnB Hb HiB Ha
               eq_refl HmA).
    rewrite (resolveInheritance_step _ nameMap A B a b [b] HnA Ha HiA Hb
               (Hnot b a (not_eq_sym Hab)) HmB).
    rewrite (resolveInheritance_cycle _ nameMap B b a [b; a] HnB Hb HiB Ha
               (Hin b a)).
    reflexivity.
  - simpl. destruct (command A), (command B); reflexivity.
  - simpl. destruct (send_cmd_period A), (send_cmd_period B); reflexivity.
  - intros k. cbn [data merged spread_opt spread spread_assoc empty_obj].
    rewrite !spread_opt_obj, !assoc_spread_obj.
    destruct (assoc k (default [] (data A))),
             (assoc k (default [] (data B))); reflexivity.
Qed.

Lemma C3_cycle_resolves_merged_witness :
  let nameMap := build_nameMap [Scenario.entryA; Scenario.entryB] in
  resolveInheritance 3 nameMap Scenario.entryA default_stack
  = ([WarnCircular "A -> B -> A"],
     Returns (Some (merged Scenario.entryA
                      (merged Scenario.entryB Scenario.entryA)))).
Proof.
  intros nameMap.
  refine (proj1 (C3_cycle_resolves_merged nameMap Scenario.entryA
                   Scenario.entryB "A" "B" 3 _ _ _ _ _ _ _ _ _ _)).
  - reflexivity.
  - reflexivity.
  - discriminate.
  - discriminate.
  - discriminate.
  - reflexivity.
  - reflexivity.
  - vm_compute. reflexivity.
  - vm_compute. reflexivity.
  - lia.
Defined.

(** ** C4: what is left of [inherits_from] *)

(** C4, as stated, fails.  For an entry whose base is missing,
    [resolveInheritance], called with the empty stack, warns and returns the
    entry itself, reference included; and [loadConfig] returns an entry whose
    [inherits_from] is the empty string as it is, field included. *)
Lemma C4_counterexample :
  let nameMap := build_nameMap [Scenario.orphan] in
  resolveInheritance (resolve_fuel nameMap) nameMap Scenario.orphan
    default_stack
  = ([WarnBaseNotFound "missing"], Returns (Some Scenario.orphan))
  /\ inherits_from Scenario.orphan = Some "missing"%string
  /\ loadConfig (DocSensors [Scenario.unnamed_base]) None
     = ([], Returns [Scenario.unnamed_base])
  /\ inherits_from Scenario.unnamed_base = Some ""%string.
Proof. repeat split; vm_compute; reflexivity. Qed.

(** C4, amended.  A descriptor that [resolveInheritance], called with an
    array as stack, builds by merging an entry with its resolved base has no
    [inherits_from].  In every other case the function returns the entry it
    was given, with the [inherits_from] it has: an entry whose
    [inherits_from] is missing or empty, the entry met again on a cycle, and
    the entry whose base is missing. *)
Theorem C4_inherits_from_after_resolution (fuel : nat)
    (nameMap : gmap string sensorEntry) (sensor r : sensorEntry)
    (stack : list string) (ds : list diag) :
  resolveInheritance fuel nameMap sensor (StackArr stack)
  = (ds, Returns (Some r)) ->
  (inherits_from r = None /\
   exists resolvedBase : sensorEntry, r = merged sensor resolvedBase) \/
  (r = sensor /\
   (truthy (inherits_from sensor) = false \/
    includes stack (default "" (name sensor)) = true \/
    nameMap_get nameMap (default "" (inherits_from sensor)) = Missing)).
Proof.
  destruct fuel as [| fuel]; [discriminate |]. cbn [resolveInheritance].
  destruct (truthy (name sensor)); cbn [negb]; [| discriminate].
  destruct (truthy (inherits_from sensor)) eqn:Hi; cbn [negb].
  - destruct (includes stack (default "" (name sensor))) eqn:Hs.
    + intros [= _ <-]. right. auto.
    + destruct (nameMap_get nameMap (default "" (inherits_from sensor)))
        as [base | |] eqn:Hg.
      * destruct (resolveInheritance fuel nameMap base _) as [ds' [[rb |] | e |]];
          try discriminate.
        intros [= _ <-]. left. split; [reflexivity | eauto].
      * discriminate.
      * intros [= _ <-]. right. auto.
  - intros [= _ <-]. right. auto.
Qed.

Lemma C4_inherits_from_after_resolution_witness :
  (inherits_from (merged Scenario.child Scenario.parent) = None /\
   exists resolvedBase : sensorEntry,
     merged Scenario.child Scenario.parent
     = merged Scenario.child resolvedBase) \/
  (merged Scenario.child Scenario.parent = Scenario.child /\
   (truthy (inherits_from Scenario.child) = false \/
    includes [] (default "" (name Scenario.child)) = true \/
    nameMap_get (build_nameMap [Scenario.parent; Scenario.child])
      (default "" (inherits_from Scenario.child)) = Missing)).
Proof.
  apply (C4_inherits_from_after_resolution 2
           (build_nameMap [Scenario.parent; Scenario.child])
           Scenario.child (merged Scenario.child Scenario.parent) [] []).
  vm_compute. reflexivity.
Defined.

(** ** C8: the merge *)

(** The merge of an entry with its resolved base, read key by key. *)
Lemma merged_key_by_key (sensor resolvedBase : sensorEntry) :
  let m := merged sensor resolvedBase in
  name m = name sensor /\
  command m = or_else (command sensor) (command resolvedBase) /\
  send_cmd_period m
  = or_else (send_cmd_period sensor) (send_cmd_period resolvedBase) /\
  (forall k : string,
     assoc k (default [] (Config.port m))
     = or_else (assoc k (default [] (Config.port sensor)))
         (assoc k (default [] (Config.port resolvedBase)))) /\
  (forall k : string,
     assoc k (default [] (data m))
     = or_else (assoc k (default [] (data sensor)))
         (assoc k (default [] (data resolvedBase)))) /\
  (let f := default empty_obj (frame m) in
   let fs := default empty_obj (frame sensor) in
   let fb := default empty_obj (frame resolvedBase) in
   frame_length f = or_else (frame_length fs) (frame_length fb) /\
   frame_startByte f = or_else (frame_startByte fs) (frame_startByte fb) /\
   frame_endByte f = or_else (frame_endByte fs) (frame_endByte fb)) /\
  (let c := default empty_obj (checksum m) in
   let cs := default empty_obj (checksum sensor) in
   let cb := default empty_obj (checksum resolvedBase) in
   checksum_eval c = or_else (checksum_eval cs) (checksum_eval cb) /\
   checksum_compare c = or_else (checksum_compare cs) (checksum_compare cb)).
Proof.
  repeat split; try reflexivity.
  - intros k. cbn [Config.port merged]. rewrite spread_opt_obj.
    apply assoc_spread_obj.
  - intros k. cbn [data merged]. rewrite spread_opt_obj.
    apply assoc_spread_obj.
Qed.

(** Called with an array as stack, [resolveInheritance] merges a child with
    a base that has no base of its own: the child of the scenario keeps the
    checksum of its parent and the field it does not declare, and overrides
    the frame length and the field it declares again. *)
Lemma resolveInheritance_child_by_design :
  let nameMap := build_nameMap [Scenario.parent; Scenario.child] in
  resolveInheritance (resolve_fuel nameMap) nameMap Scenario.child
    default_stack
  = ([], Returns (Some {|
       name := Some "child"%string; inherits_from := None;
       command := Some "01 03 00 00 00 02"%string;
       send_cmd_period := Some 2;
       Config.port := Some [("baudRate"%string, SNum 9600)];
       frame := Some {| frame_length := Some 7;
                        frame_startByte := Some (BOne (SStr "0xAA"));
                        frame_endByte := Some (BOne (SStr "none")) |};
       checksum := checksum Scenario.parent;
       data := Some [("temp"%string, MetaExpr "data[1]");
                     ("hum"%string, MetaExpr "data[3]")] |})).
Proof. vm_compute. reflexivity. Qed.

Lemma map_resolveInheritance_throws (nameMap : gmap string sensorEntry)
    (s : sensorEntry) (sensors : list sensorEntry) :
  In s sensors ->
  truthy (name s) = true -> truthy (inherits_from s) = true ->
  forall i : nat,
    snd (map_resolveInheritance nameMap i sensors)
    = Throws (TypeError "stack.includes is not a function").
Proof.
  intros Hin Hn Hi. induction sensors as [| x sensors IH]; [destruct Hin |].
  intros i. cbn [map_resolveInheritance resolve_fuel resolveInheritance].
  destruct Hin as [-> | Hin].
  - rewrite Hn, Hi. reflexivity.
  - specialize (IH Hin (S i)).
    destruct (truthy (name x)); cbn [negb].
    + destruct (truthy (inherits_from x)); cbn [negb]; [reflexivity |].
      destruct (map_resolveInheritance nameMap (S i) sensors) as [ds r].
      simpl in *. rewrite IH. reflexivity.
    + destruct (map_resolveInheritance nameMap (S i) sensors) as [ds r].
      simpl in *. rewrite IH. reflexivity.
Qed.

(** Called through [map], [resolveInheritance] makes no nested call: it
    returns or throws at once, whatever the fuel. *)
Lemma loadConfig_needs_no_fuel (json : document) (sensorName : option string) :
  snd (loadConfig json sensorName) <> OutOfFuel.
Proof.
  unfold loadConfig.
  assert (H : forall (nameMap : gmap string sensorEntry)
                (l : list sensorEntry) (i : nat),
             snd (map_resolveInheritance nameMap i l) <> OutOfFuel).
  { intros nameMap l. induction l as [| x l IH]; intros i;
      cbn [map_resolveInheritance resolve_fuel resolveInheritance];
      [discriminate |].
    specialize (IH (S i)).
    destruct (truthy (name x)); cbn [negb];
      [destruct (truthy (inherits_from x)); cbn [negb]; [discriminate |] |];
      destruct (map_resolveInheritance nameMap (S i) l) as [ds [xs | e |]];
      simpl in *; congruence. }
  specialize (H (build_nameMap (rawSensors_of json)) (rawSensors_of json) 0%nat).
  destruct (map_resolveInheritance _ 0 (rawSensors_of json)) as [ds [xs | e |]];
    simpl in *; try congruence.
  destruct (truthy sensorName); [| discriminate].
  destruct (List.find _ _); discriminate.
Qed.

(** C8, on the code.  [loadConfig] calls [resolveInheritance] through
    [rawSensors.map], which passes the index of the entry where the function
    expects its stack.  For an entry with a name and an [inherits_from] the
    call [stack.includes] then throws: a document that holds such an entry
    yields no descriptor at all, merged or not. *)
Theorem C8_loadConfig_throws_on_inheritance (sensors : list sensorEntry)
    (s : sensorEntry) (sensorName : option string) :
  In s sensors ->
  truthy (name s) = true -> truthy (inherits_from s) = true ->
  snd (loadConfig (DocSensors sensors) sensorName)
  = Throws (TypeError "stack.includes is not a function").
Proof.
  intros Hin Hn Hi. unfold loadConfig. cbn [rawSensors_of].
  pose proof (map_resolveInheritance_throws (build_nameMap sensors) s sensors
                Hin Hn Hi 0%nat) as Hm.
  destruct (map_resolveInheritance (build_nameMap sensors) 0 sensors)
    as [ds r].
  simpl in Hm. rewrite Hm. reflexivity.
Qed.

Lemma C8_loadConfig_throws_on_inheritance_witness :
  snd (loadConfig (DocSensors [Scenario.parent; Scenario.child]) None)
  = Throws (TypeError "stack.includes is not a function").
Proof.
  apply (C8_loadConfig_throws_on_inheritance
           [Scenario.parent; Scenario.child] Scenario.child None).
  - right. left. reflexivity.
  - reflexivity.
  - reflexivity.
Defined.

(** ** C5: what [disconnect] leaves behind *)

(** C5, as stated, fails.  [disconnect] clears the timer and lets go of the
    reader and the port, and that is all: the two bytes stay in the buffer and
    the request stays in the queue.  When the session is connected again and
    its loop reads the bytes 00 00 10, they complete the stale AA 10 to a
    frame, and its reading resolves the request that was pending before the
    disconnect. *)
Lemma C5_counterexample :
  let '(st, evs, r) := disconnect Scenario.willing Scenario.midstream in
  r = Ok tt /\
  evs = [ClearInterval 3; ReaderCancel; ReaderReleaseLock; PortClose] /\
  buffer st = [xaa; x10] /\
  readQueue st = [7%nat] /\
  snd (fst (loop [] 8 (Scenario.env_of Scenario.payload_descriptor)
              [Chunk [x00; x00; x10]] st))
  = [Resolve 7 [("temp"%string, VNum 16)];
     OnData 1%nat [("temp"%string, VNum 16)]].
Proof. vm_compute. repeat split. Qed.

(** C5, amended.  After [disconnect] completes on a session, the periodic
    timer is cleared and forgotten, the reader and the port are let go of and
    forgotten; the buffer, the pending requests and the callbacks are as they
    were.  [disconnectAndCleanup] does the same and then empties the buffer
    and the queue of pending requests and drops the callbacks. *)
Theorem C5_disconnect_releases (t : transport) (st st' : session)
    (evs : list event) :
  disconnect t st = (st', evs, Ok tt) ->
  (commandInterval st' = None /\
   forall timer : nat,
     commandInterval st = Some timer -> In (ClearInterval timer) evs) /\
  (reader st' = None /\ (reader st <> None -> In ReaderCancel evs)) /\
  (port st' = None /\ (port st <> None -> In PortClose evs)) /\
  (buffer st' = buffer st /\ readQueue st' = readQueue st /\
   onData st' = onData st /\ onError st' = onError st /\
   onRawFrame st' = onRawFrame st) /\
  exists st'' : session,
    disconnectAndCleanup t (Some st) = (Some st'', evs, Ok tt) /\
    buffer st'' = [] /\ readQueue st'' = [] /\
    onData st'' = None /\ onError st'' = None /\ onRawFrame st'' = None /\
    commandInterval st'' = None /\ reader st'' = None /\ port st'' = None.
Proof.
  intros Hd.
  assert (Hc : disconnectAndCleanup t (Some st)
               = (Some {| config := config st'; port := port st';
                          reader := reader st'; writer := writer st';
                          buffer := []; commandInterval := commandInterval st';
                          readQueue := []; onData := None; onError := None;
                          onRawFrame := None |}, evs, Ok tt)).
  { unfold disconnectAndCleanup. rewrite Hd. reflexivity. }
  revert Hc Hd. unfold disconnect.
  destruct st as [c p r w b tm q d e f]; cbn.
  destruct tm as [timer |], r as [rd |], p as [pt |]; cbn;
    destruct (close_error t) as [err |]; cbn;
    intros Hc [= <- <-]; cbn in *;
    (repeat split; try reflexivity; try congruence;
     try (intros; simplify_eq; cbn; tauto);
     try (eexists; split; [exact Hc | cbn; repeat split])).
  all: intros _; destruct (cancel_ok t); cbn; tauto.
Qed.

Lemma C5_disconnect_releases_witness :
  exists st'' : session,
    disconnectAndCleanup Scenario.willing (Some Scenario.midstream)
    = (Some st'',
       [ClearInterval 3; ReaderCancel; ReaderReleaseLock; PortClose], Ok tt) /\
    buffer st'' = [] /\ readQueue st'' = [].
Proof.
  destruct (C5_disconnect_releases Scenario.willing Scenario.midstream
              (fst (fst (disconnect Scenario.willing Scenario.midstream)))
              [ClearInterval 3; ReaderCancel; ReaderReleaseLock; PortClose])
    as (_ & _ & _ & _ & st'' & Hc & Hb & Hq & _).
  - reflexivity.
  - exists st''. repeat split; assumption.
Defined.

(** * Further properties *)

(** ** The read loop and the chunks of the stream *)

Section Chunks.

Variable globals : list (string * value).

Lemma deliver_set_buffer (st : session) (b : list byte) (parsed : reading) :
  deliver (set_buffer st b) parsed
  = (set_buffer (fst (deliver st parsed)) b, snd (deliver st parsed)).
Proof. rewrite !deliver_pops. reflexivity. Qed.

(** [handleFrame] neither reads nor writes the buffer. *)
Lemma handleFrame_set_buffer (env : loopEnv) (st : session) (b data : list byte) :
  handleFrame globals env (set_buffer st b) data
  = let '(st', evs, r) := handleFrame globals env st data in
    (set_buffer st' b, evs, r).
Proof.
  unfold handleFrame.
  destruct (valid globals env data) as [[] | e]; try reflexivity.
  destruct (dataFields env) as [fields |]; try reflexivity.
  destruct (extract globals fields data) as [parsed | e]; try reflexivity.
  rewrite deliver_set_buffer.
  destruct (deliver st parsed) as [st1 evs1]. reflexivity.
Qed.

Lemma accept_set_buffer (env : loopEnv) (st : session) (b data : list byte) :
  accept globals env (set_buffer st b) data
  = match accept globals env st data with
    | Leave => Leave
    | Again st' evs => Again (set_buffer st' b) evs
    | Raise st' evs e => Raise (set_buffer st' b) evs e
    end.
Proof.
  unfold accept. rewrite handleFrame_set_buffer.
  destruct (handleFrame globals env st data) as [[st' evs] [[] | e]];
    reflexivity.
Qed.

Lemma slice_to_more {A} (l c : list A) (n : Z) :
  0 <= n -> n <= Z.of_nat (length l) ->
  slice_to (l ++ c) n = slice_to l n.
Proof.
  intros H0 Hn. unfold slice_to.
  rewrite !rel_index_nonneg by (rewrite ?length_app; lia).
  apply take_app_le. lia.
Qed.

Lemma slice_from_more {A} (l c : list A) (n : Z) :
  0 <= n -> n <= Z.of_nat (length l) ->
  slice_from (l ++ c) n = slice_from l n ++ c.
Proof.
  intros H0 Hn. unfold slice_from.
  rewrite !rel_index_nonneg by (rewrite ?length_app; lia).
  apply drop_app_le. lia.
Qed.

(** A turn that finds a whole candidate does the same whatever follows the
    candidate in the buffer. *)
Lemma scan_turn_more (env : loopEnv) (st : session) (c : list byte) (fl : Z) :
  frameLength env = Some fl -> 1 <= fl ->
  fl <= Z.of_nat (length (buffer st)) ->
  scan_turn globals env (set_buffer st (buffer st ++ c))
  = match scan_turn globals env st with
    | Leave => Leave
    | Again st' evs => Again (set_buffer st' (buffer st' ++ c)) evs
    | Raise st' evs e => Raise (set_buffer st' (buffer st' ++ c)) evs e
    end.
Proof.
  intros Hfl Hpos Hlen. unfold scan_turn. rewrite Hfl. cbn [buffer set_buffer].
  destruct (Z.ltb_spec (Z.of_nat (length (buffer st ++ c))) fl) as [Hlt | _];
    [rewrite length_app in Hlt; lia |].
  destruct (Z.ltb_spec (Z.of_nat (length (buffer st))) fl) as [Hlt | _];
    [lia |].
  cbv zeta. rewrite slice_to_more, slice_from_more by lia.
  destruct (markers_match env fl (slice_to (buffer st) fl)).
  - rewrite !set_buffer_twice, !accept_set_buffer.
    destruct (accept globals env st (slice_to (buffer st) fl))
      as [| st' evs | st' evs e]; reflexivity.
  - rewrite !set_buffer_twice. cbn [buffer set_buffer].
    destruct (buffer st) as [| x l]; [simpl in Hlen; lia | reflexivity].
Qed.

(** Fuel beyond the length of the buffer makes no difference. *)
Lemma scan_fuel_irrelevant (env : loopEnv) (fl : Z) :
  frameLength env = Some fl -> 1 <= fl ->
  forall (f1 f2 : nat) (st : session),
    (length (buffer st) < f1)%nat -> (length (buffer st) < f2)%nat ->
    scan globals f1 env st = scan globals f2 env st.
Proof.
  intros Hfl Hpos. induction f1 as [| f1 IH]; intros f2 st H1 H2; [lia |].
  destruct f2 as [| f2]; [lia |]. cbn [scan].
  destruct (Z.ltb_spec (Z.of_nat (length (buffer st))) fl) as [Hs | Hl].
  - rewrite (scan_turn_short globals env st fl Hfl Hs). reflexivity.
  - destruct (scan_turn_shrinks globals env st fl Hfl Hpos Hl)
      as (st' & Ht & Hlen).
    destruct (scan_turn globals env st) as [| st1 evs | st1 evs e];
      simpl in Ht; try discriminate; try reflexivity.
    injection Ht as ->.
    rewrite (IH f2 st'); [reflexivity | |];
      destruct (markers_match env fl (slice_to (buffer st) fl)); lia.
Qed.

Lemma scan_S (env : loopEnv) (fuel : nat) (st : session) :
  scan globals (S fuel) env st
  = match scan_turn globals env st with
    | Leave => (st, [], Returns tt)
    | Again st' evs =>
        let '(st'', evs', o) := scan globals fuel env st' in
        (st'', evs ++ evs', o)
    | Raise st' evs e => (st', evs, Throws e)
    end.
Proof. reflexivity. Qed.

(** Scanning a buffer with more bytes behind it: the turns are those on the
    buffer alone, and then those on what is left with the bytes behind. *)
Lemma scan_more (env : loopEnv) (fl : Z) (c : list byte) :
  frameLength env = Some fl -> 1 <= fl ->
  forall (fuel : nat) (st : session),
    (length (buffer st) + length c < fuel)%nat ->
    scan globals fuel env (set_buffer st (buffer st ++ c))
    = match scan globals fuel env st with
      | (s1, e1, Returns _) =>
          let '(s2, e2, o) :=
            scan globals fuel env (set_buffer s1 (buffer s1 ++ c)) in
          (s2, e1 ++ e2, o)
      | (s1, e1, Throws e) => (set_buffer s1 (buffer s1 ++ c), e1, Throws e)
      | (s1, e1, OutOfFuel) => (set_buffer s1 (buffer s1 ++ c), e1, OutOfFuel)
      end.
Proof.
  intros Hfl Hpos. induction fuel as [| fuel IH]; intros st Hfuel; [lia |].
  destruct (Z.ltb_spec (Z.of_nat (length (buffer st))) fl) as [Hs | Hl].
  - rewrite (scan_short globals env st fl fuel Hfl Hs).
    destruct (scan globals (S fuel) env (set_buffer st (buffer st ++ c)))
      as [[s2 e2] o]. reflexivity.
  - rewrite (scan_S env fuel st),
            (scan_S env fuel (set_buffer st (buffer st ++ c))).
    rewrite (scan_turn_more env st c fl Hfl Hpos Hl).
    destruct (scan_turn_shrinks globals env st fl Hfl Hpos Hl)
      as (st' & Ht & Hlen).
    destruct (scan_turn globals env st) as [| st1 evs | st1 evs e];
      simpl in Ht; try discriminate; try reflexivity.
    injection Ht as ->.
    assert (Hshort : (length (buffer st') < length (buffer st))%nat)
      by (destruct (markers_match env fl (slice_to (buffer st) fl)); lia).
    rewrite (IH st') by lia.
    destruct (scan globals fuel env st') as [[s1 e1] [[] | e |]] eqn:Hs1;
      try reflexivity.
    assert (Hs1len : (length (buffer s1) <= length (buffer st'))%nat).
    { pose proof (scan_enough_fuel globals env fl Hfl Hpos fuel st') as Hne.
      clear -Hs1 Hfl Hpos. revert st' s1 e1 Hs1.
      induction fuel as [| fuel IHf]; intros st' s1 e1; cbn [scan];
        [discriminate |].
      destruct (Z.ltb_spec (Z.of_nat (length (buffer st'))) fl) as [Hs | Hl].
      - rewrite (scan_turn_short globals env st' fl Hfl Hs).
        intros [= <- _]. lia.
      - destruct (scan_turn_shrinks globals env st' fl Hfl Hpos Hl)
          as (st2 & Ht & Hlen).
        destruct (scan_turn globals env st') as [| st3 evs3 | st3 evs3 e3];
          simpl in Ht; try discriminate.
        injection Ht as ->.
        destruct (scan globals fuel env st2) as [[s4 e4] o4] eqn:Hs4.
        intros [= <- _ ->]. specialize (IHf st2 s4 e4 Hs4).
        destruct (markers_match env fl (slice_to (buffer st') fl)); lia. }
    rewrite (scan_fuel_irrelevant env fl Hfl Hpos fuel (S fuel)
               (set_buffer s1 (buffer s1 ++ c)))
      by (cbn [buffer set_buffer]; rewrite length_app; lia).
    destruct (scan globals (S fuel) env (set_buffer s1 (buffer s1 ++ c)))
      as [[s2 e2] o].
    rewrite app_assoc. reflexivity.
Qed.

(** X1.  How the stream is cut into chunks does not matter: two chunks read
    one after the other lead to the same events, in the same order, and to
    the same standing of the loop as the one chunk that holds the bytes of
    both; the sessions are the same too, unless a formula threw and ended
    the loop (the bytes not yet pushed are then missing from the buffer). *)
Theorem X1_chunking_does_not_matter (env : loopEnv) (st : session)
    (a b : list byte) (more : list readResult) (fl : Z) (fuel : nat) :
  frameLength env = Some fl -> 1 <= fl ->
  (length (buffer st) + length a + length b < fuel)%nat ->
  let '(s1, e1, r1) := loop globals fuel env (Chunk a :: Chunk b :: more) st in
  let '(s2, e2, r2) := loop globals fuel env (Chunk (a ++ b) :: more) st in
  e1 = e2 /\ r1 = r2 /\ (s1 = s2 \/ exists e : exn, r1 = Caught e).
Proof.
  intros Hfl Hpos Hfuel. cbn [loop].
  replace (set_buffer st (buffer st ++ a ++ b))
    with (set_buffer (set_buffer st (buffer st ++ a))
            (buffer (set_buffer st (buffer st ++ a)) ++ b))
    by (cbn [buffer set_buffer]; rewrite <- app_assoc; reflexivity).
  rewrite (scan_more env fl b Hfl Hpos fuel (set_buffer st (buffer st ++ a)))
    by (cbn [buffer set_buffer]; rewrite length_app; lia).
  pose proof (scan_enough_fuel globals env fl Hfl Hpos fuel
                (set_buffer st (buffer st ++ a))) as Hne.
  destruct (scan globals fuel env (set_buffer st (buffer st ++ a)))
    as [[s e] [[] | e0 |]].
  - destruct (scan globals fuel env (set_buffer s (buffer s ++ b)))
      as [[s' e'] [[] | e0 |]].
    + destruct (loop globals fuel env more s') as [[s3 e3] r3].
      rewrite app_assoc. auto.
    + rewrite app_assoc. auto.
    + auto.
  - split; [reflexivity |]. split; [reflexivity |]. right. eauto.
  - exfalso. apply Hne; [| reflexivity].
    cbn [buffer set_buffer]. rewrite length_app. lia.
Qed.

End Chunks.

Lemma X1_chunking_does_not_matter_witness :
  let env := Scenario.env_of Scenario.payload_descriptor in
  let st := Scenario.listening Scenario.payload_descriptor in
  let '(s1, e1, r1) :=
    loop [] 12 env [Chunk [xaa; x10; x00]; Chunk [x00; x10; xff]] st in
  let '(s2, e2, r2) :=
    loop [] 12 env [Chunk ([xaa; x10; x00] ++ [x00; x10; xff])] st in
  e1 = e2 /\ r1 = r2 /\ (s1 = s2 \/ exists e : exn, r1 = Caught e).
Proof.
  intros env st.
  apply (X1_chunking_does_not_matter [] env st [xaa; x10; x00] [x00; x10; xff]
           [] 5 12).
  - reflexivity.
  - lia.
  - simpl. lia.
Defined.

(** ** The buffer between two reads *)

Section Buffer.

Variable globals : list (string * value).

Lemma accept_not_leave (env : loopEnv) (st : session) (data : list byte) :
  accept globals env st data <> Leave.
Proof.
  unfold accept.
  destruct (handleFrame globals env st data) as [[st' evs] [[] | e]];
    discriminate.
Qed.

(** The inner loop is left only on a buffer shorter than a frame. *)
Lemma scan_turn_leave (env : loopEnv) (st : session) (fl : Z) :
  frameLength env = Some fl ->
  scan_turn globals env st = Leave ->
  Z.of_nat (length (buffer st)) < fl.
Proof.
  intros Hfl. unfold scan_turn. rewrite Hfl.
  destruct (Z.ltb_spec (Z.of_nat (length (buffer st))) fl) as [Hlt | _];
    [intros _; exact Hlt |].
  cbv zeta. destruct (markers_match env fl (slice_to (buffer st) fl)).
  - intros H. destruct (accept_not_leave env _ _ H).
  - discriminate.
Qed.

Lemma scan_returns_short (env : loopEnv) (fl : Z) :
  frameLength env = Some fl ->
  forall (fuel : nat) (st st' : session) (evs : list event),
    scan globals fuel env st = (st', evs, Returns tt) ->
    Z.of_nat (length (buffer st')) < fl.
Proof.
  intros Hfl. induction fuel as [| fuel IH]; intros st st' evs; cbn [scan];
    [discriminate |].
  destruct (scan_turn globals env st) as [| st1 evs1 | st1 evs1 e] eqn:Ht.
  - intros [= <- _]. exact (scan_turn_leave env st fl Hfl Ht).
  - destruct (scan globals fuel env st1) as [[st2 evs2] o] eqn:Hs.
    intros [= <- _ ->]. exact (IH st1 st2 evs2 Hs).
  - discriminate.
Qed.

(** X2.  Between two reads the buffer holds less than one frame: a loop
    that started on such a buffer and stands waiting for its next read has
    such a buffer again, whatever it has read. *)
Theorem X2_buffer_stays_below_a_frame (env : loopEnv) (fl : Z) (fuel : nat)
    (reads : list readResult) (st st' : session) (evs : list event) :
  frameLength env = Some fl ->
  Z.of_nat (length (buffer st)) < fl ->
  loop globals fuel env reads st = (st', evs, Reading) ->
  Z.of_nat (length (buffer st')) < fl.
Proof.
  intros Hfl. revert st st' evs.
  induction reads as [| [value | | e] reads IH]; intros st st' evs Hshort;
    cbn [loop]; try discriminate.
  - intros [= <- _]. exact Hshort.
  - destruct (scan globals fuel env (set_buffer st (buffer st ++ value)))
      as [[st2 evs2] [[] | e |]] eqn:Hs; try discriminate.
    destruct (loop globals fuel env reads st2) as [[st3 evs3] s3] eqn:Hl.
    intros [= <- _ ->].
    apply (IH st2 st3 evs3); [| exact Hl].
    exact (scan_returns_short env fl Hfl fuel _ _ _ Hs).
Qed.

Lemma scan_never_returns (env : loopEnv) (fl : Z) :
  frameLength env = Some fl -> fl <= 0 ->
  forall (fuel : nat) (st : session),
    snd (scan globals fuel env st) <> Returns tt.
Proof.
  intros Hfl Hneg fuel st Hret.
  destruct (scan globals fuel env st) as [[st' evs] o] eqn:Hs.
  simpl in Hret. subst o.
  pose proof (scan_returns_short env fl Hfl fuel st st' evs Hs). lia.
Qed.

(** X3.  With a frame length of zero or less the inner loop is never left
    by its condition: the first chunk the loop reads is the last, and the
    loop never comes to wait for a read again.  It turns without end, unless
    a formula throws and ends it. *)
Theorem X3_no_frame_length_no_return (env : loopEnv) (fl : Z) (fuel : nat)
    (value : list byte) (more : list readResult) (st : session) :
  frameLength env = Some fl -> fl <= 0 ->
  snd (scan globals fuel env (set_buffer st (buffer st ++ value)))
  <> Returns tt /\
  (snd (loop globals fuel env (Chunk value :: more) st) = Scanning \/
   exists e : exn,
     snd (loop globals fuel env (Chunk value :: more) st) = Caught e).
Proof.
  intros Hfl Hneg.
  pose proof (scan_never_returns env fl Hfl Hneg fuel
                (set_buffer st (buffer st ++ value))) as Hnr.
  split; [exact Hnr |]. cbn [loop].
  destruct (scan globals fuel env (set_buffer st (buffer st ++ value)))
    as [[st2 evs2] [[] | e |]].
  - exfalso. apply Hnr. reflexivity.
  - right. eauto.
  - left. reflexivity.
Qed.

(** X4.  Without a frame length the loop decodes nothing: every chunk is
    appended to the buffer, which grows by all that is read, and no event
    occurs. *)
Theorem X4_without_length_nothing_is_decoded (env : loopEnv) (fuel : nat)
    (chunks : list (list byte)) (st : session) :
  frameLength env = None ->
  loop globals (S fuel) env (map Chunk chunks) st
  = (set_buffer st (buffer st ++ concat chunks), [], Reading).
Proof.
  intros Hfl. revert st. induction chunks as [| value chunks IH]; intros st.
  - simpl. rewrite app_nil_r, set_buffer_same. reflexivity.
  - cbn [map loop scan]. unfold scan_turn at 1. rewrite Hfl.
    rewrite IH. cbn [buffer set_buffer concat].
    rewrite set_buffer_twice, <- app_assoc. reflexivity.
Qed.

End Buffer.

Lemma X2_buffer_stays_below_a_frame_witness :
  let env := Scenario.env_of Scenario.payload_descriptor in
  let st := Scenario.listening Scenario.payload_descriptor in
  Z.of_nat (length (buffer (fst (fst (loop [] 12 env
                                        [Chunk Scenario.stream; Chunk [xaa]]
                                        st))))) < 5.
Proof.
  intros env st.
  apply (X2_buffer_stays_below_a_frame [] env 5 12
           [Chunk Scenario.stream; Chunk [xaa]] st _
           (snd (fst (loop [] 12 env [Chunk Scenario.stream; Chunk [xaa]] st)))).
  - reflexivity.
  - simpl. lia.
  - reflexivity.
Defined.

Lemma X3_no_frame_length_no_return_witness :
  let env := {| useStart := false; useEnd := false; frameLength := Some 0;
                startByte := PVal (PStr "none"); endByte := PVal (PStr "none");
                checksum_ := Some empty_obj; dataFields := Some [] |} in
  let st := Scenario.listening Scenario.payload_descriptor in
  snd (scan [] 50 env (set_buffer st (buffer st ++ [xaa]))) <> Returns tt.
Proof.
  intros env st.
  apply (X3_no_frame_length_no_return [] env 0 50 [xaa] [] st).
  - reflexivity.
  - lia.
Defined.

Lemma X4_without_length_nothing_is_decoded_witness :
  let env := {| useStart := true; useEnd := false; frameLength := None;
                startByte := PVal (PNum 170); endByte := PVal (PStr "none");
                checksum_ := None; dataFields := None |} in
  let st := Scenario.listening Scenario.payload_descriptor in
  loop [] 1 env (map Chunk [Scenario.stream; Scenario.stream]) st
  = (set_buffer st (buffer st ++ concat [Scenario.stream; Scenario.stream]),
     [], Reading).
Proof.
  intros env st.
  apply (X4_without_length_nothing_is_decoded [] env 0
           [Scenario.stream; Scenario.stream] st).
  reflexivity.
Defined.

(** ** Markers *)

Section Markers.

Variable globals : list (string * value).

Lemma scan_never_matching (env : loopEnv) (fl : Z) :
  frameLength env = Some fl -> 1 <= fl ->
  (forall slice : list byte,
     slice <> [] -> markers_match env fl slice = false) ->
  forall (fuel : nat) (st : session),
    (length (buffer st) < fuel)%nat ->
    scan globals fuel env st
    = (set_buffer st
         (skipn (length (buffer st) - Z.to_nat (fl - 1)) (buffer st)),
       [], Returns tt).
Proof.
  intros Hfl Hpos Hnever. induction fuel as [| fuel IH]; intros st Hfuel;
    [lia |].
  destruct (Z.ltb_spec (Z.of_nat (length (buffer st))) fl) as [Hs | Hl].
  - rewrite (scan_short globals env st fl fuel Hfl Hs).
    replace (length (buffer st) - Z.to_nat (fl - 1))%nat with 0%nat by lia.
    simpl. rewrite set_buffer_same. reflexivity.
  - cbn [scan].
    rewrite (scan_turn_mismatch globals env st fl Hfl Hl).
    + rewrite (IH (set_buffer st (tail (buffer st)))).
      * cbn [buffer set_buffer]. rewrite set_buffer_twice, skipn_tail.
        destruct (buffer st) as [| x l] eqn:Hb; [simpl in Hl; lia |].
        cbn [tail length].
        replace (S (length l) - Z.to_nat (fl - 1))%nat
          with (S (length l - Z.to_nat (fl - 1)))%nat
          by (simpl in Hl; lia).
        reflexivity.
      * cbn [buffer set_buffer].
        destruct (buffer st); simpl in *; lia.
    + apply Hnever. unfold slice_to.
      rewrite rel_index_nonneg by lia.
      destruct (buffer st) as [| x l]; [simpl in Hl; lia |].
      destruct (Z.to_nat fl) eqn:Hn; [lia | discriminate].
Qed.

(** X5.  A start marker that is no byte makes the session deaf.  When
    [startByte] is a string without [0x] in front (["AA"], say), or [0x]
    without digits, or a number no byte equals, or is missing, no candidate
    ever matches: the inner loop drops the bytes one by one down to the last
    [frameLength - 1] and nothing is handed to [handleFrame], so nothing is
    delivered and no error is reported. *)
Theorem X5_marker_that_is_no_byte (config : sensorEntry) (f : frameSpec)
    (v : pval) (fl : Z) :
  frame config = Some f ->
  frame_length f = Some fl -> 1 <= fl ->
  is_none (frame_startByte f) = false ->
  parseByteField (frame_startByte f) = PVal v ->
  (forall b : byte, elem_is (Some b) v = false) ->
  exists env : loopEnv,
    loopEnv_of config = Ok env /\
    forall (fuel : nat) (st : session),
      (length (buffer st) < fuel)%nat ->
      scan globals fuel env st
      = (set_buffer st
           (skipn (length (buffer st) - Z.to_nat (fl - 1)) (buffer st)),
         [], Returns tt).
Proof.
  intros Hf Hlen Hpos Hnone Hparse Hv.
  unfold loopEnv_of. rewrite Hf. eexists. split; [reflexivity |].
  apply scan_never_matching; cbn; try assumption.
  intros slice Hne. unfold markers_match, matchesStart. cbn.
  rewrite Hparse, Hnone. cbn.
  destruct slice as [| b slice]; [contradiction |].
  cbn. change (match v with PNum n => byte_to_Z b =? n | _ => false end)
    with (elem_is (Some b) v).
  rewrite Hv. reflexivity.
Qed.

Lemma skipn_nth_error {A} (i : nat) (l : list A) :
  skipn i l = match nth_error l i with
              | Some x => x :: skipn (S i) l
              | None => []
              end.
Proof.
  revert l. induction i as [| i IH]; intros [| x l]; try reflexivity.
  cbn [nth_error]. rewrite <- IH. reflexivity.
Qed.

Lemma every_numbers (slice : list byte) (ns : list Z) (i : nat) :
  every (fun v j => elem_is (nth_error slice j) v) i (map PNum ns) = true
  <-> map byte_to_Z (firstn (length ns) (skipn i slice)) = ns.
Proof.
  revert i. induction ns as [| n ns IH]; intros i; cbn [map every length].
  - split; reflexivity.
  - rewrite andb_true_iff, IH, (skipn_nth_error i slice).
    destruct (nth_error slice i) as [b |]; cbn.
    + rewrite Z.eqb_eq. split.
      * intros [-> ->]. reflexivity.
      * intros [= -> ->]. split; reflexivity.
    + split; [intros [H _] | intros H]; discriminate.
Qed.

Lemma every_numbers_end (slice : list byte) (ns : list Z) (off i : nat) :
  every (fun v j =>
           elem_is (at_index slice (Z.of_nat off + Z.of_nat j)) v) i
    (map PNum ns)
  = every (fun v j => elem_is (nth_error slice j) v) (off + i) (map PNum ns).
Proof.
  revert i. induction ns as [| n ns IH]; intros i; cbn [map every];
    [reflexivity |].
  rewrite IH. f_equal; [| f_equal; lia].
  unfold at_index.
  destruct (Z.ltb_spec (Z.of_nat off + Z.of_nat i) 0); [lia |].
  rewrite <- Nat2Z.inj_add, Nat2Z.id. reflexivity.
Qed.

(** X6.  Markers given as arrays of numbers match a window exactly when the
    window starts with the bytes of the one and ends with the bytes of the
    other; an end marker longer than the window never matches. *)
Theorem X6_array_markers (env : loopEnv) (starts ends : list Z)
    (slice : list byte) :
  startByte env = PArr (map PNum starts) ->
  endByte env = PArr (map PNum ends) ->
  useEnd env = true ->
  markers_match env (Z.of_nat (length slice)) slice = true
  <-> map byte_to_Z (firstn (length starts) slice) = starts /\
      (length ends <= length slice)%nat /\
      map byte_to_Z (skipn (length slice - length ends) slice) = ends.
Proof.
  intros Hs He Hu. unfold markers_match, matchesStart, matchesEnd.
  rewrite Hs, He, Hu, andb_true_iff. cbn [negb orb].
  rewrite (every_numbers slice starts 0). cbn [skipn].
  rewrite length_map.
  destruct (le_lt_dec (length ends) (length slice)) as [Hle | Hgt].
  - replace (Z.of_nat (length slice) - Z.of_nat (length ends))
      with (Z.of_nat (length slice - length ends)) by lia.
    assert (Hev : every
                    (fun v i =>
                       elem_is
                         (at_index slice
                            (Z.of_nat (length slice - length ends)
                             + Z.of_nat i)) v) 0 (map PNum ends) = true
                  <-> map byte_to_Z
                        (skipn (length slice - length ends) slice) = ends).
    { rewrite (every_numbers_end slice ends (length slice - length ends) 0),
              Nat.add_0_r, every_numbers.
      rewrite firstn_all2; [reflexivity |]. rewrite length_skipn. lia. }
    rewrite Hev. tauto.
  - split; [| intros (_ & H & _); lia].
    intros [_ H]. exfalso.
    destruct ends as [| n ends]; [simpl in Hgt; lia |].
    cbn [map every] in H. apply andb_true_iff in H as [H _].
    unfold at_index in H.
    destruct (Z.ltb_spec
                (Z.of_nat (length slice) - Z.of_nat (length (n :: ends))
                 + Z.of_nat 0) 0) as [_ | Hge]; [discriminate |].
    simpl in Hgt, Hge. lia.
Qed.

(** X7.  With both markers ["none"] the frames are cut by position alone:
    every turn that finds [frameLength] bytes hands the first [frameLength]
    bytes to [handleFrame], and no byte is ever dropped to resynchronise. *)
Theorem X7_no_markers_cut_by_position (config : sensorEntry) (f : frameSpec)
    (fl : Z) (st : session) :
  frame config = Some f ->
  frame_length f = Some fl ->
  is_none (frame_startByte f) = true ->
  is_none (frame_endByte f) = true ->
  0 <= fl -> fl <= Z.of_nat (length (buffer st)) ->
  exists env : loopEnv,
    loopEnv_of config = Ok env /\
    scan_turn globals env st
    = accept globals env
        (set_buffer st (skipn (Z.to_nat fl) (buffer st)))
        (firstn (Z.to_nat fl) (buffer st)).
Proof.
  intros Hf Hlen Hs He H0 Hle.
  unfold loopEnv_of. rewrite Hf. eexists. split; [reflexivity |].
  unfold scan_turn. cbn [frameLength]. rewrite Hlen.
  destruct (Z.ltb_spec (Z.of_nat (length (buffer st))) fl); [lia |].
  cbv zeta. unfold markers_match, matchesStart, matchesEnd, parseByteField.
  cbn. rewrite Hs, He. cbn.
  unfold slice_to, slice_from. rewrite rel_index_nonneg by lia.
  reflexivity.
Qed.

End Markers.

Lemma X5_marker_that_is_no_byte_witness :
  let config := Scenario.descriptor "data[4]" "data[4]" "data[1]" in
  let deaf := {|
    name := name config; inherits_from := None; command := None;
    send_cmd_period := None; Config.port := None;
    frame := Some {| frame_length := Some 5;
                     frame_startByte := Some (BOne (SStr "AA"));
                     frame_endByte := Some (BOne (SStr "none")) |};
    checksum := checksum config; data := data config |} in
  exists env : loopEnv,
    loopEnv_of deaf = Ok env /\
    scan [] 12 env (set_buffer (Scenario.listening deaf) Scenario.stream)
    = (set_buffer (Scenario.listening deaf) [x05; x00; x00; x05], [],
       Returns tt).
Proof.
  intros config deaf.
  destruct (X5_marker_that_is_no_byte [] deaf
              {| frame_length := Some 5;
                 frame_startByte := Some (BOne (SStr "AA"));
                 frame_endByte := Some (BOne (SStr "none")) |}
              (PStr "AA") 5) as (env & Henv & Hscan).
  - reflexivity.
  - reflexivity.
  - lia.
  - reflexivity.
  - reflexivity.
  - reflexivity.
  - exists env. split; [exact Henv |].
    rewrite (Hscan 12%nat
               (set_buffer (Scenario.listening deaf) Scenario.stream))
      by (simpl; lia).
    reflexivity.
Defined.

Lemma X6_array_markers_witness :
  let env := Scenario.env_of {|
    name := Some "pair"%string; inherits_from := None; command := None;
    send_cmd_period := None; Config.port := None;
    frame := Some {| frame_length := Some 4;
                     frame_startByte :=
                       Some (BMany [SStr "0xAA"; SNum 85]);
                     frame_endByte := Some (BMany [SNum 13; SStr "0x0A"]) |};
    checksum := None; data := None |} in
  markers_match env (Z.of_nat (length [xaa; x55; x0d; x0a]))
    [xaa; x55; x0d; x0a] = true.
Proof.
  intros env.
  apply (X6_array_markers env [170; 85] [13; 10] [xaa; x55; x0d; x0a]).
  - reflexivity.
  - reflexivity.
  - reflexivity.
  - repeat split. simpl. lia.
Defined.

Lemma X7_no_markers_cut_by_position_witness :
  let config := {|
    name := Some "plain"%string; inherits_from := None; command := None;
    send_cmd_period := None; Config.port := None;
    frame := Some {| frame_length := Some 2;
                     frame_startByte := Some (BOne (SStr "none"));
                     frame_endByte := Some (BOne (SStr "none")) |};
    checksum := Some empty_obj;
    data := Some [("v"%string, MetaExpr "data[1]")] |} in
  let st := set_buffer (Scenario.listening config) [x01; x02; x03] in
  exists env : loopEnv,
    loopEnv_of config = Ok env /\
    scan_turn [] env st
    = Again (set_buffer st [x03]) [OnData 1%nat [("v"%string, VNum 2)]].
Proof.
  intros config st.
  destruct (X7_no_markers_cut_by_position [] config
              {| frame_length := Some 2;
                 frame_startByte := Some (BOne (SStr "none"));
                 frame_endByte := Some (BOne (SStr "none")) |} 2 st)
    as (env & Henv & Hturn).
  - reflexivity.
  - reflexivity.
  - reflexivity.
  - reflexivity.
  - lia.
  - simpl. lia.
  - exists env. split; [exact Henv |]. rewrite Hturn.
    injection Henv as <-. reflexivity.
Defined.

(** ** Readings *)

Section Readings.

Variable globals : list (string * value).

Lemma place_permutation {A} (n : Z) (kv : string * A)
    (l : list (Z * (string * A))) :
  Permutation (map snd (place n kv l)) (kv :: map snd l).
Proof.
  induction l as [| [m kv'] l IH]; [reflexivity |].
  cbn [place]. destruct (n <? m); [reflexivity |].
  cbn [map snd]. rewrite IH. apply perm_swap.
Qed.

Lemma entries_permutation {A} (o : obj A) : Permutation (entries o) o.
Proof.
  unfold entries. induction o as [| kv o IH]; [reflexivity |].
  change (by_index (kv :: o))
    with (match array_index (fst kv) with
          | Some n => place n kv (by_index o)
          | None => by_index o
          end).
  cbn [List.filter]. unfold named at 1.
  destruct (array_index (fst kv)).
  - rewrite place_permutation. cbn [app]. constructor. exact IH.
  - rewrite <- Permutation_middle. constructor. exact IH.
Qed.

Lemma entries_NoDup {A} (o : obj A) :
  NoDup (map fst o) -> NoDup (map fst (entries o)).
Proof.
  intros Hnd.
  assert (Hp : Permutation (map fst (entries o)) (map fst o))
    by apply Permutation_map, entries_permutation.
  rewrite Hp. exact Hnd.
Qed.

Lemma entries_named {A} (o : obj A) :
  Forall (fun kv => array_index (fst kv) = None) o -> entries o = o.
Proof.
  intros Hn. unfold entries.
  assert (Hb : by_index o = []).
  { induction Hn as [| kv o Hkv Hn IH]; [reflexivity |].
    change (by_index (kv :: o))
      with (match array_index (fst kv) with
            | Some n => place n kv (by_index o)
            | None => by_index o
            end).
    rewrite Hkv. exact IH. }
  rewrite Hb. cbn [map app].
  induction Hn as [| kv o Hkv Hn IH]; [reflexivity |].
  cbn [List.filter]. unfold named at 1. rewrite Hkv. f_equal. apply IH.
  clear - Hn. induction Hn as [| kv o Hkv Hn IH]; [reflexivity |].
  change (by_index (kv :: o))
    with (match array_index (fst kv) with
          | Some n => place n kv (by_index o)
          | None => by_index o
          end).
  rewrite Hkv. exact IH.
Qed.

Lemma has_key_absent {A} (k : string) (o : obj A) :
  k ∉ map fst o -> has_key k o = false.
Proof.
  unfold has_key. induction o as [| [y a] o IH]; intros Hk; [reflexivity |].
  cbn [assoc]. destruct (String.eqb_spec k y) as [-> | _].
  - exfalso. apply Hk. left.
  - apply IH. intros Hin. apply Hk. right. exact Hin.
Qed.

(** On entries with different keys, none of them in [acc], the loop adds
    the values of the formulas behind [acc], in their order. *)
Lemma fill_appends (data : list byte) :
  forall (es : obj fieldMeta) (acc parsed : reading),
    NoDup (map fst es) ->
    (forall k : string, k ∈ map fst acc -> k ∉ map fst es) ->
    fill globals acc es data = Ok parsed ->
    exists vs : reading,
      parsed = acc ++ vs /\
      Forall2 (fun kv pv =>
                 fst pv = fst kv /\
                 evalSafe globals (formula_text (field_expr (snd kv)))
                   (context data) = Ok (snd pv))
        (List.filter kept es) vs.
Proof.
  induction es as [| [k meta] es IH]; intros acc parsed Hnd Hacc.
  - intros [= <-]. exists []. rewrite app_nil_r. split; [reflexivity |].
    constructor.
  - cbn [fill].
    destruct (evalSafe globals (formula_text (field_expr meta)) (context data))
      as [v | e] eqn:Hv; [| discriminate].
    cbn [mbind result_bind]. intros Hfill.
    cbn [map fst] in Hnd. apply NoDup_cons in Hnd as [Hk Hnd].
    assert (Hfresh : has_key k acc = false).
    { apply has_key_absent. intros Hin. apply (Hacc k Hin). left. }
    cbn [List.filter]. unfold kept at 1. cbn [fst].
    unfold put in Hfill. rewrite Hfresh in Hfill.
    destruct (String.eqb_spec k "__proto__") as [-> | Hp]; cbn [negb].
    + apply (IH acc parsed Hnd); [| exact Hfill].
      intros k' Hin Hin'. apply (Hacc k' Hin). right. exact Hin'.
    + destruct (IH (acc ++ [(k, v)]) parsed Hnd) as (vs & -> & Hvs);
        [| exact Hfill |].
      * intros k' Hin Hin'. rewrite map_app in Hin.
        apply elem_of_app in Hin as [Hin | Hin].
        -- apply (Hacc k' Hin). right. exact Hin'.
        -- cbn in Hin. apply list_elem_of_singleton in Hin. subst k'.
           exact (Hk Hin').
      * exists ((k, v) :: vs). rewrite <- app_assoc. split; [reflexivity |].
        constructor; [split; [reflexivity | exact Hv] | exact Hvs].
Qed.

(** X8.  A reading has the fields the descriptor declares, each once and
    each with the value of its formula on the frame, in the order in which
    [Object.entries] gives the declaration: the fields whose names are array
    indices first, by ascending index, then the others as declared.  A field
    named [__proto__] is evaluated and makes no property of the reading
    (its value must not be an object other than an array, whose accessors
    the later assignments would meet).  When no field has such a name, the
    order is that of the declaration. *)
Theorem X8_reading_follows_declaration (fields : obj fieldMeta)
    (data : list byte) (parsed : reading) :
  NoDup (map fst fields) ->
  (forall (meta : fieldMeta) (r : nat),
     In ("__proto__"%string, meta) fields ->
     evalSafe globals (formula_text (field_expr meta)) (context data)
     <> Ok (VObj r)) ->
  extract globals fields data = Ok parsed ->
  let declared := List.filter kept (entries fields) in
  map fst parsed = map fst declared /\
  Forall2 (fun kv pv =>
             fst pv = fst kv /\
             evalSafe globals (formula_text (field_expr (snd kv)))
               (context data) = Ok (snd pv)) declared parsed /\
  (Forall (fun kv => array_index (fst kv) = None /\
                     fst kv <> "__proto__"%string) fields ->
   map fst parsed = map fst fields).
Proof.
  intros Hnd _ He declared.
  destruct (fill_appends data (entries fields) [] parsed) as (vs & -> & Hvs).
  - apply entries_NoDup, Hnd.
  - intros k Hin. cbn in Hin. apply elem_of_nil in Hin. destruct Hin.
  - exact He.
  - cbn [app]. fold declared in Hvs.
    assert (Hkeys : map fst vs = map fst declared).
    { clear - Hvs. induction Hvs as [| kv pv l l' [Hk _] _ IH];
        [reflexivity |].
      cbn [map]. rewrite Hk, IH. reflexivity. }
    split; [exact Hkeys |]. split; [exact Hvs |].
    intros Hplain. rewrite Hkeys. unfold declared.
    rewrite entries_named.
    + f_equal. clear - Hplain.
      induction Hplain as [| kv l [_ Hp] _ IH]; [reflexivity |].
      cbn [List.filter]. unfold kept at 1.
      destruct (String.eqb_spec (fst kv) "__proto__"); [contradiction |].
      cbn [negb]. rewrite IH. reflexivity.
    + eapply Forall_impl; [exact Hplain |]. intros kv [H _]. exact H.
Qed.

(** X9.  A descriptor whose [checksum] object declares neither formula
    checks nothing: both sides are [undefined], every candidate passes and
    [handleFrame] never answers [false]. *)
Theorem X9_no_formulas_no_check (env : loopEnv) (ck : checksumSpec)
    (st : session) (data : list byte) :
  checksum_ env = Some ck ->
  checksum_eval ck = None -> checksum_compare ck = None ->
  valid globals env data = Ok true /\
  snd (handleFrame globals env st data) <> Ok false.
Proof.
  intros Hck He Hc.
  assert (Hv : valid globals env data = Ok true).
  { unfold valid. rewrite Hck, He, Hc. reflexivity. }
  split; [exact Hv |]. apply handleFrame_not_false, Hv.
Qed.

Lemma sound_handleFrame (env : loopEnv) (fl : Z) (fields : obj fieldMeta)
    (st st' : session) (data : list byte) (evs : list event) (r : result bool) :
  dataFields env = Some fields ->
  markers_match env fl data = true ->
  handleFrame globals env st data = (st', evs, r) ->
  Forall (Delivery.sound globals env fl fields) evs.
Proof.
  intros Hf Hm. unfold handleFrame.
  destruct (valid globals env data) as [[] | e] eqn:Hv;
    try (intros [= _ <- _]; constructor).
  rewrite Hf.
  assert (Hraw : Forall (Delivery.sound globals env fl fields)
                   (rawFrame st data)).
  { unfold rawFrame. destruct (onRawFrame st); repeat constructor. }
  destruct (extract globals fields data) as [parsed | e] eqn:He;
    [| intros [= _ <- _]; exact Hraw].
  rewrite deliver_pops. intros [= _ <- _].
  assert (Hp : Delivery.from_valid_frame globals env fl fields parsed)
    by (exists data; auto).
  apply Forall_app. split; [exact Hraw |].
  destruct (readQueue st), (onData st); repeat constructor; exact Hp.
Qed.

Lemma sound_handleError (env : loopEnv) (fl : Z) (fields : obj fieldMeta)
    (st : session) (msg : message) :
  Forall (Delivery.sound globals env fl fields) (handleError st msg).
Proof. unfold handleError. destruct (onError st); repeat constructor. Qed.

Lemma sound_scan_turn (env : loopEnv) (fl : Z) (fields : obj fieldMeta)
    (st : session) :
  frameLength env = Some fl -> dataFields env = Some fields ->
  match scan_turn globals env st with
  | Leave => True
  | Again _ evs | Raise _ evs _ =>
      Forall (Delivery.sound globals env fl fields) evs
  end.
Proof.
  intros Hfl Hf. unfold scan_turn. rewrite Hfl.
  destruct (Z.of_nat (length (buffer st)) <? fl); [exact I |].
  cbv zeta.
  destruct (markers_match env fl (slice_to (buffer st) fl)) eqn:Hm;
    [| constructor].
  unfold accept.
  destruct (handleFrame globals env
              (set_buffer st (slice_from (buffer st) fl))
              (slice_to (buffer st) fl)) as [[st' evs] r] eqn:Hh.
  pose proof (sound_handleFrame env fl fields _ _ _ _ _ Hf Hm Hh) as Hs.
  destruct r as [[] | e]; try exact Hs.
  apply Forall_app. split; [exact Hs | apply sound_handleError].
Qed.

Lemma sound_scan (env : loopEnv) (fl : Z) (fields : obj fieldMeta) :
  frameLength env = Some fl -> dataFields env = Some fields ->
  forall (fuel : nat) (st st' : session) (evs : list event) (o : outcome unit),
    scan globals fuel env st = (st', evs, o) ->
    Forall (Delivery.sound globals env fl fields) evs.
Proof.
  intros Hfl Hf. induction fuel as [| fuel IH]; intros st st' evs o;
    cbn [scan]; [intros [= _ <- _]; constructor |].
  pose proof (sound_scan_turn env fl fields st Hfl Hf) as Ht.
  destruct (scan_turn globals env st) as [| st1 evs1 | st1 evs1 e].
  - intros [= _ <- _]. constructor.
  - destruct (scan globals fuel env st1) as [[st2 evs2] o2] eqn:Hs.
    intros [= _ <- _]. apply Forall_app. split; [exact Ht |].
    exact (IH _ _ _ _ Hs).
  - intros [= _ <- _]. exact Ht.
Qed.

(** X10.  Nothing is delivered that did not pass: over any run of the read
    loop, every reading a request is resolved with and every reading the
    subscriber is called with is what the fields give on a window whose
    markers matched and whose checksum formulas agreed. *)
Theorem X10_only_valid_frames_are_delivered (env : loopEnv) (fl : Z)
    (fields : obj fieldMeta) (fuel : nat) (reads : list readResult)
    (st st' : session) (evs : list event) (s : status) :
  frameLength env = Some fl -> dataFields env = Some fields ->
  loop globals fuel env reads st = (st', evs, s) ->
  (forall (r : nat) (parsed : reading),
     In (Resolve r parsed) evs ->
     Delivery.from_valid_frame globals env fl fields parsed) /\
  (forall (cb : callback) (parsed : reading),
     In (OnData cb parsed) evs ->
     Delivery.from_valid_frame globals env fl fields parsed).
Proof.
  intros Hfl Hf Hloop.
  assert (Hall : Forall (Delivery.sound globals env fl fields) evs).
  { revert st st' evs s Hloop.
    induction reads as [| [value | | e] reads IH]; intros st st' evs s;
      cbn [loop].
    - intros [= _ <- _]. constructor.
    - destruct (scan globals fuel env (set_buffer st (buffer st ++ value)))
        as [[st2 evs2] o] eqn:Hs.
      pose proof (sound_scan env fl fields Hfl Hf _ _ _ _ _ Hs) as H2.
      destruct o as [[] | e |].
      + destruct (loop globals fuel env reads st2) as [[st3 evs3] s3] eqn:Hl.
        intros [= _ <- _]. apply Forall_app. split; [exact H2 |].
        exact (IH _ _ _ _ Hl).
      + intros [= _ <- _]. apply Forall_app.
        split; [exact H2 | apply sound_handleError].
      + intros [= _ <- _]. exact H2.
    - intros [= _ <- _]. constructor.
    - intros [= _ <- _]. apply sound_handleError. }
  rewrite Forall_forall in Hall.
  split; intros x parsed Hin;
    apply list_elem_of_In, Hall in Hin; exact Hin.
Qed.

End Readings.

Lemma X8_reading_follows_declaration_witness :
  map fst [("1"%string, VNum 0); ("b"%string, VNum 16);
           ("a"%string, VNum 170)]
  = map fst (List.filter kept
               (entries [("b"%string, MetaExpr "data[1]");
                         ("__proto__"%string, MetaExpr "data");
                         ("a"%string, MetaObj (Some "data[0]"%string));
                         ("1"%string, MetaExpr "data[2]")])).
Proof.
  apply (X8_reading_follows_declaration []
           [("b"%string, MetaExpr "data[1]");
            ("__proto__"%string, MetaExpr "data");
            ("a"%string, MetaObj (Some "data[0]"%string));
            ("1"%string, MetaExpr "data[2]")]
           [xaa; x10; x00; x00; x10]).
  - apply (bool_decide_unpack _). vm_compute. exact I.
  - intros meta r [H | [H | [H | [H | []]]]]; inversion H; subst.
    vm_compute. discriminate.
  - reflexivity.
Defined.

Lemma X9_no_formulas_no_check_witness :
  valid [] (Scenario.env_of
              {| name := Some "open"%string; inherits_from := None;
                 command := None; send_cmd_period := None;
                 Config.port := None; frame := Some Scenario.frame5;
                 checksum := Some empty_obj; data := None |})
    [xaa; x01; x02; x03; x04] = Ok true.
Proof.
  apply (X9_no_formulas_no_check [] _ empty_obj
           (Scenario.listening Scenario.payload_descriptor)
           [xaa; x01; x02; x03; x04]); reflexivity.
Defined.

Lemma X10_only_valid_frames_are_delivered_witness :
  let env := Scenario.env_of Scenario.payload_descriptor in
  let st := Scenario.listening Scenario.payload_descriptor in
  Delivery.from_valid_frame [] env 5 [("temp"%string, MetaExpr "data[1]")]
    [("temp"%string, VNum 16)].
Proof.
  intros env st.
  destruct (X10_only_valid_frames_are_delivered [] env 5
              [("temp"%string, MetaExpr "data[1]")] 12
              [Chunk Scenario.stream] st
              (fst (fst (loop [] 12 env [Chunk Scenario.stream] st)))
              (snd (fst (loop [] 12 env [Chunk Scenario.stream] st)))
              (snd (loop [] 12 env [Chunk Scenario.stream] st)))
    as [_ Hdata].
  - reflexivity.
  - reflexivity.
  - reflexivity.
  - apply (Hdata 1%nat). left. reflexivity.
Defined.

(** ** Commands *)

Section Commands.
Import Command.

Lemma hex_digit_no_space (b : byte) :
  is_ws (hex_digit (Byte.to_N b / 16)) = false /\
  is_ws (hex_digit (Byte.to_N b mod 16)) = false.
Proof. destruct b; split; reflexivity. Qed.

Lemma two_hex_parses (b : byte) : toUint8 (parseInt16 (two_hex b)) = b.
Proof. destruct b; vm_compute; reflexivity. Qed.

Lemma split_go_two (in_ws : bool) (c d : ascii) (s : string) :
  is_ws c = false -> is_ws d = false ->
  split_go in_ws EmptyString (String c (String d s))
  = split_go false (String c (String d EmptyString)) s.
Proof.
  intros Hc Hd. cbn [split_go]. rewrite Hc. cbn [split_go]. rewrite Hd.
  reflexivity.
Qed.

Lemma split_hex_command (bs : list byte) :
  forall (b : byte) (in_ws : bool),
    split_go in_ws EmptyString (hex_command (b :: bs)) = map two_hex (b :: bs).
Proof.
  induction bs as [| b' bs IH]; intros b in_ws;
    destruct (hex_digit_no_space b) as [Hc Hd].
  - unfold hex_command, two_hex. rewrite (split_go_two _ _ _ _ Hc Hd).
    reflexivity.
  - change (hex_command (b :: b' :: bs))
      with (String (hex_digit (Byte.to_N b / 16))
              (String (hex_digit (Byte.to_N b mod 16))
                 (String " "%char (hex_command (b' :: bs))))).
    rewrite (split_go_two _ _ _ _ Hc Hd).
    cbn [split_go].
    change (is_ws " "%char) with true. cbn iota.
    rewrite (IH b' true). reflexivity.
Qed.

Lemma length_toLowerCase (s : string) :
  String.length (toLowerCase s) = String.length s.
Proof. induction s as [| c s IH]; simpl; congruence. Qed.

Lemma length_hex_command (b : byte) (bs : list byte) :
  String.length (hex_command (b :: bs)) = (2 + 3 * length bs)%nat.
Proof.
  revert b. induction bs as [| b' bs IH]; intros b; [reflexivity |].
  change (hex_command (b :: b' :: bs))
    with (String (hex_digit (Byte.to_N b / 16))
            (String (hex_digit (Byte.to_N b mod 16))
               (String " "%char (hex_command (b' :: bs))))).
  cbn [String.length length]. rewrite IH. lia.
Qed.

Lemma hex_command_enabled (b : byte) (bs : list byte) :
  enabled (Some (hex_command (b :: bs))) = true.
Proof.
  unfold enabled. apply andb_true_iff. split; apply negb_true_iff.
  - destruct (String.eqb_spec (hex_command (b :: bs)) "") as [H |];
      [| reflexivity].
    apply (f_equal String.length) in H.
    rewrite length_hex_command in H. discriminate.
  - destruct (String.eqb_spec (toLowerCase (hex_command (b :: bs))) "none")
      as [H |]; [| reflexivity].
    apply (f_equal String.length) in H.
    rewrite length_toLowerCase, length_hex_command in H. simpl in H. lia.
Qed.

(** X11.  A command written as two hexadecimal digits a byte, with one
    space between bytes, is read back as these bytes: it is enabled, and on
    an open port [sendCommandIfNeeded] writes exactly them, once. *)
Theorem X11_command_round_trip (bs : list byte) (st : session) (w timer : nat) :
  bs <> [] ->
  command (config st) = Some (hex_command bs) ->
  port st <> None ->
  payload (hex_command bs) = bs /\
  exists arm : list effect,
    snd (sendCommandIfNeeded (Succeeds w) timer st) = Wrote bs :: arm /\
    Forall (fun ev => match ev with Wrote _ => False | _ => True end) arm.
Proof.
  intros Hne Hcmd Hport. destruct bs as [| b bs]; [contradiction |].
  assert (Hp : payload (hex_command (b :: bs)) = b :: bs).
  { unfold payload, split_ws. rewrite split_hex_command, map_map.
    rewrite <- (map_id (b :: bs)) at 2.
    apply map_ext. intros x. apply two_hex_parses. }
  split; [exact Hp |].
  unfold sendCommandIfNeeded. rewrite Hcmd, hex_command_enabled.
  cbn [default from_option id]. rewrite Hp. unfold sendOnce.
  destruct (port st); [| contradiction].
  destruct (send_cmd_period (config st)) as [p |].
  - destruct (0 <? p).
    + eexists. split; [reflexivity |]. repeat constructor.
    + exists []. split; [reflexivity | constructor].
  - exists []. split; [reflexivity | constructor].
Qed.

Lemma split_go_last (s : string) (c : ascii) :
  is_ws c = true ->
  forall (in_ws : bool) (cur : string),
    last (split_go in_ws cur (s +:+ String c EmptyString)) = Some EmptyString.
Proof.
  intros Hc. induction s as [| d s IH]; intros in_ws cur.
  - change (EmptyString +:+ String c EmptyString) with (String c EmptyString).
    cbn [split_go]. rewrite Hc. destruct in_ws; reflexivity.
  - change (String d s +:+ String c EmptyString)
      with (String d (s +:+ String c EmptyString)).
    cbn [split_go]. destruct (is_ws d).
    + destruct in_ws; [apply IH |].
      rewrite last_cons, IH. reflexivity.
    + apply IH.
Qed.

(** X12.  White space around a command is not trimmed: a command that
    starts with white space is sent with a byte 00 in front, and one that
    ends with white space with a byte 00 behind. *)
Theorem X12_stray_space_sends_zero (c : ascii) (s : string) :
  is_ws c = true ->
  head (payload (String c s)) = Some x00 /\
  last (payload (s +:+ String c EmptyString)) = Some x00.
Proof.
  intros Hc. split.
  - unfold payload, split_ws. cbn [split_go]. rewrite Hc. reflexivity.
  - unfold payload, split_ws.
    destruct (proj1 (last_Some _ _) (split_go_last s c Hc false EmptyString))
      as [pieces ->].
    rewrite map_app. apply last_snoc.
Qed.

Lemma disconnect_completed (t : transport) (st st' : session)
    (evs : list event) :
  disconnect t st = (st', evs, Ok tt) ->
  commandInterval st' = None /\ reader st' = None /\ port st' = None.
Proof.
  unfold disconnect.
  destruct st as [c p r w b tm q d e f]; cbn.
  destruct tm, r, p; cbn; destruct (close_error t); cbn;
    intros [= <- _]; cbn; auto.
Qed.

(** X13.  No write after a disconnect.  Once [disconnect] has completed,
    a transmission that still comes, whatever the port would have answered,
    writes nothing: it finds no port, forgets the writer and reports the
    error; and the timer stays cleared. *)
Theorem X13_no_write_after_disconnect (t : transport) (st st' : session)
    (evs : list event) (a : attempt) (data : list byte) :
  disconnect t st = (st', evs, Ok tt) ->
  sendOnce a data st'
  = (set_writer st' None,
     report st' (TypeError "Cannot read properties of null")) /\
  commandInterval (fst (sendOnce a data st')) = None /\
  Forall (fun ev => match ev with Wrote _ => False | _ => True end)
    (snd (sendOnce a data st')).
Proof.
  intros Hd.
  destruct (disconnect_completed t st st' evs Hd) as (Ht & _ & Hp).
  unfold sendOnce. rewrite Hp. cbn [fst snd commandInterval set_writer].
  split; [reflexivity |]. split; [exact Ht |].
  unfold report. destruct (onError st'); repeat constructor.
Qed.

End Commands.

Lemma X11_command_round_trip_witness :
  let st := set_port (new Scenario.parent) (Some 0%nat) in
  Command.payload "01 03 00 00 00 02" = [x01; x03; x00; x00; x00; x02] /\
  exists arm : list Command.effect,
    snd (Command.sendCommandIfNeeded (Command.Succeeds 4) 9 st)
    = Command.Wrote [x01; x03; x00; x00; x00; x02] :: arm /\
    Forall (fun ev => match ev with
                      | Command.Wrote _ => False
                      | _ => True
                      end) arm.
Proof.
  intros st.
  apply (X11_command_round_trip [x01; x03; x00; x00; x00; x02] st 4 9).
  - discriminate.
  - reflexivity.
  - discriminate.
Defined.

Lemma X12_stray_space_sends_zero_witness :
  head (Command.payload " 01 03") = Some x00 /\
  last (Command.payload ("01 03" +:+ " ")) = Some x00.
Proof.
  apply (X12_stray_space_sends_zero " "%char).
  - reflexivity.
Defined.

Lemma X13_no_write_after_disconnect_witness :
  let st' := fst (fst (disconnect Scenario.willing Scenario.midstream)) in
  Command.sendOnce (Command.Succeeds 4) [x01; x03] st'
  = (Command.set_writer st' None,
     Command.report st' (TypeError "Cannot read properties of null")).
Proof.
  intros st'.
  apply (X13_no_write_after_disconnect Scenario.willing Scenario.midstream st'
           (snd (fst (disconnect Scenario.willing Scenario.midstream)))).
  reflexivity.
Defined.

(** ** Connecting and disconnecting *)

Section Lifecycle.
Import Command Connect.

(** X14.  [connect] on a descriptor without [frame] fails late: the port
    has been granted and opened and the reader taken when [startReadLoop]
    throws.  The session keeps both, the loop was not started, no command was
    sent and no timer armed. *)
Theorem X14_connect_without_frame (ac : access) (a : attempt) (timer p : nat)
    (st : session) :
  frame (config st) = None ->
  granted ac = Ok p -> opened ac = None ->
  exists (st' : session) (evs : list step),
    connect ac a timer st
    = (st', evs, Throw (TypeError "Cannot read properties of undefined")) /\
    port st' = Some p /\ reader st' = Some (reader_lock ac) /\
    commandInterval st' = commandInterval st /\
    evs = [RequestPort; Open (Config.port (config st)); GetReader].
Proof.
  intros Hf Hg Ho. unfold connect. rewrite Hg, Ho.
  unfold loopEnv_of. cbn [config set_reader set_port]. rewrite Hf.
  eexists _, _. repeat split; reflexivity.
Qed.

(** X15.  What [connect] arms, [disconnect] clears.  After a [connect]
    that succeeded for a descriptor with a command and a positive period,
    the session holds the timer [setInterval] gave; a [disconnect] that
    completes clears that very timer, cancels the reader, closes the port
    and leaves none of the three in the session. *)
Theorem X15_connect_then_disconnect (ac : access) (a : attempt) (timer : nat)
    (st st1 : session) (evs1 : list step) (env : loopEnv) (t : transport)
    (period : Z) :
  connect ac a timer st = (st1, evs1, Ok env) ->
  enabled (command (config st)) = true ->
  send_cmd_period (config st) = Some period -> 0 < period ->
  close_error t = None ->
  commandInterval st1 = Some timer /\
  In (Sending (SetInterval timer (period * 1000))) evs1 /\
  exists (st2 : session) (evs2 : list event),
    disconnect t st1 = (st2, evs2, Ok tt) /\
    evs2 = [ClearInterval timer; ReaderCancel]
           ++ (if cancel_ok t then [ReaderReleaseLock] else [])
           ++ [PortClose] /\
    commandInterval st2 = None /\ reader st2 = None /\ port st2 = None.
Proof.
  intros Hc He Hp Hpos Ht. revert Hc. unfold connect.
  destruct (granted ac) as [p | e]; [| discriminate].
  destruct (opened ac) as [e |]; [discriminate |].
  destruct (loopEnv_of (config (set_reader (set_port st (Some p))
                                  (Some (reader_lock ac))))) as [env' | e];
    [| discriminate].
  unfold sendCommandIfNeeded. cbn [config set_reader set_port].
  rewrite He, Hp. unfold sendOnce. cbn [port set_reader set_port].
  destruct (Z.ltb_spec 0 period) as [_ | Hle]; [| lia].
  destruct a as [w | e]; intros [= <- <- _].
  - split; [reflexivity |]. split.
    + cbn. right. right. right. right. right. left. reflexivity.
    + unfold disconnect. cbn. rewrite Ht.
      eexists _, _. repeat split; reflexivity.
  - split; [reflexivity |]. split.
    + do 5 right. apply in_map, in_or_app. right. left. reflexivity.
    + unfold disconnect. cbn. rewrite Ht.
      eexists _, _. repeat split; reflexivity.
Qed.

(** X16.  [disconnect] can be repeated: on a session it has completed on,
    it does nothing more, closes nothing and clears nothing, and completes
    again. *)
Theorem X16_disconnect_twice (t t' : transport) (st st' : session)
    (evs : list event) :
  disconnect t st = (st', evs, Ok tt) ->
  disconnect t' st' = (st', [], Ok tt).
Proof.
  intros Hd. destruct (disconnect_completed t st st' evs Hd) as (Hc & Hr & Hp).
  unfold disconnect. rewrite Hc, Hr, Hp. reflexivity.
Qed.

(** X17.  When the port does not close, [disconnect] rejects half way: the
    timer is cleared and the reader cancelled and forgotten, but the session
    keeps the port, and [disconnectAndCleanup] stops there too: the buffer,
    the pending requests and the callbacks stay as they were. *)
Theorem X17_close_failure_skips_cleanup (t : transport) (st : session)
    (e : exn) :
  close_error t = Some e -> port st <> None ->
  exists (st' : session) (evs : list event),
    disconnect t st = (st', evs, Throw e) /\
    disconnectAndCleanup t (Some st) = (Some st', evs, Throw e) /\
    port st' = port st /\ commandInterval st' = None /\ reader st' = None /\
    buffer st' = buffer st /\ readQueue st' = readQueue st /\
    onData st' = onData st /\ onError st' = onError st /\
    onRawFrame st' = onRawFrame st.
Proof.
  intros Ht Hp. unfold disconnectAndCleanup, disconnect.
  destruct st as [c p r w b tm q d er f]. cbn in *.
  destruct p as [p |]; [| contradiction].
  destruct tm, r; cbn; rewrite Ht; eexists _, _; repeat split; reflexivity.
Qed.

End Lifecycle.

Lemma X14_connect_without_frame_witness :
  let st := new Scenario.entryA in
  let ac := {| Connect.granted := Ok 3%nat; Connect.opened := None;
               Connect.reader_lock := 5%nat |} in
  exists (st' : session) (evs : list Connect.step),
    Connect.connect ac (Command.Succeeds 4) 9 st
    = (st', evs, Throw (TypeError "Cannot read properties of undefined")) /\
    port st' = Some 3%nat.
Proof.
  intros st ac.
  destruct (X14_connect_without_frame ac (Command.Succeeds 4) 9 3 st)
    as (st' & evs & Hc & Hp & _); try reflexivity.
  exists st', evs. split; assumption.
Defined.

Lemma X15_connect_then_disconnect_witness :
  let st := new Scenario.parent in
  let ac := {| Connect.granted := Ok 3%nat; Connect.opened := None;
               Connect.reader_lock := 5%nat |} in
  let r := Connect.connect ac (Command.Succeeds 4) 9 st in
  commandInterval (fst (fst r)) = Some 9%nat.
Proof.
  intros st ac r.
  apply (X15_connect_then_disconnect ac (Command.Succeeds 4) 9 st
           (fst (fst r)) (snd (fst r)) (Scenario.env_of Scenario.parent)
           Scenario.willing 2).
  - reflexivity.
  - reflexivity.
  - reflexivity.
  - lia.
  - reflexivity.
Defined.

Lemma X16_disconnect_twice_witness :
  let st' := fst (fst (disconnect Scenario.willing Scenario.midstream)) in
  disconnect Scenario.willing st' = (st', [], Ok tt).
Proof.
  intros st'.
  apply (X16_disconnect_twice Scenario.willing Scenario.willing
           Scenario.midstream st'
           (snd (fst (disconnect Scenario.willing Scenario.midstream)))).
  reflexivity.
Defined.

Lemma X17_close_failure_skips_cleanup_witness :
  let stuck := {| cancel_ok := true;
                  close_error := Some (Error "The port is locked") |} in
  exists (st' : session) (evs : list event),
    disconnectAndCleanup stuck (Some Scenario.midstream)
    = (Some st', evs, Throw (Error "The port is locked")) /\
    buffer st' = [xaa; x10] /\ readQueue st' = [7%nat].
Proof.
  intros stuck.
  destruct (X17_close_failure_skips_cleanup stuck Scenario.midstream
              (Error "The port is locked"))
    as (st' & evs & _ & Hc & _ & _ & _ & Hb & Hq & _).
  - reflexivity.
  - discriminate.
  - exists st', evs. repeat split; assumption.
Defined.

(** ** Loading a configuration *)

Section Loading.
Import Listing.

Lemma map_resolveInheritance_closed (nameMap : gmap string sensorEntry)
    (rawSensors : list sensorEntry) :
  forall i : nat,
    map_resolveInheritance nameMap i rawSensors
    = ([],
       if existsb (fun s => truthy (name s) && truthy (inherits_from s))
            rawSensors
       then Throws (TypeError "stack.includes is not a function")
       else Returns (map (fun s => if truthy (name s) then Some s else None)
                       rawSensors)).
Proof.
  induction rawSensors as [| x rest IH]; intros i; [reflexivity |].
  cbn [map_resolveInheritance resolve_fuel resolveInheritance existsb map].
  rewrite (IH (S i)).
  destruct (truthy (name x)); cbn [negb andb orb].
  - destruct (truthy (inherits_from x)); cbn [negb orb]; [reflexivity |].
    destruct (existsb _ rest); reflexivity.
  - destruct (existsb _ rest); reflexivity.
Qed.

Lemma omap_keep_named (rawSensors : list sensorEntry) :
  omap id (map (fun s => if truthy (name s) then Some s else None) rawSensors)
  = List.filter (fun s => truthy (name s)) rawSensors.
Proof.
  induction rawSensors as [| x rest IH]; [reflexivity |].
  simpl. destruct (truthy (name x)); simpl; [f_equal |]; exact IH.
Qed.

Lemma name_is_truthy (n : string) (s : sensorEntry) :
  n <> ""%string -> name_is n s = true -> truthy (name s) = true.
Proof.
  unfold name_is. destruct (name s) as [m |]; [| discriminate].
  intros Hn Heq. apply String.eqb_eq in Heq. subst m.
  apply truthy_Some, Hn.
Qed.

Lemma find_among_named (n : string) (rawSensors : list sensorEntry) :
  n <> ""%string ->
  List.find (name_is n) (List.filter (fun s => truthy (name s)) rawSensors)
  = List.find (name_is n) rawSensors.
Proof.
  intros Hn. induction rawSensors as [| x rest IH]; [reflexivity |].
  cbn [List.filter List.find].
  destruct (truthy (name x)) eqn:Ht; cbn [List.find].
  - rewrite IH. reflexivity.
  - destruct (name_is n x) eqn:Hx; [| exact IH].
    rewrite (name_is_truthy n x Hn Hx) in Ht. discriminate.
Qed.

(** X18.  [loadConfig] in closed form.  It never warns.  It throws the
    type error of [stack.includes] exactly when some entry has both a name
    and an [inherits_from].  Otherwise, without a sensor name it returns the
    entries that have a name, unchanged and in the order of the document; with
    one, the first entry of that name alone, or the error that the sensor is
    not found. *)
Theorem X18_loadConfig_closed_form (json : document)
    (sensorName : option string) :
  loadConfig json sensorName
  = ([],
     if existsb (fun s => truthy (name s) && truthy (inherits_from s))
          (rawSensors_of json)
     then Throws (TypeError "stack.includes is not a function")
     else if truthy sensorName then
       match List.find (name_is (default "" sensorName)) (rawSensors_of json)
       with
       | Some s => Returns [s]
       | None =>
           Throws (Error ("Sensor '" +:+ default "" sensorName
                          +:+ "' not found in configuration"))
       end
     else Returns (List.filter (fun s => truthy (name s))
                     (rawSensors_of json))).
Proof.
  unfold loadConfig. rewrite map_resolveInheritance_closed.
  destruct (existsb _ (rawSensors_of json)); [reflexivity |].
  rewrite omap_keep_named.
  destruct (truthy sensorName) eqn:Ht; [| reflexivity].
  rewrite find_among_named.
  - destruct (List.find _ (rawSensors_of json)); reflexivity.
  - destruct sensorName as [n |]; [| discriminate]. cbn.
    intros ->. discriminate.
Qed.

Lemma build_nameMap_snoc (rawSensors : list sensorEntry) (s : sensorEntry) :
  build_nameMap (rawSensors ++ [s]) = nameMap_add (build_nameMap rawSensors) s.
Proof. unfold build_nameMap. rewrite foldl_app. reflexivity. Qed.

(** X19.  In [nameMap] the last entry of a name wins: a name, other than
    [__proto__], is mapped to the last entry of the document that bears it,
    and to nothing when no entry does.  ([loadConfig] by name answers with
    the first.) *)
Theorem X19_nameMap_keeps_the_last (rawSensors : list sensorEntry) (n : string) :
  n <> ""%string -> n <> "__proto__"%string ->
  build_nameMap rawSensors !! n = last (List.filter (name_is n) rawSensors).
Proof.
  intros Hn Hp. induction rawSensors as [| s rest IH] using rev_ind.
  - apply lookup_empty.
  - rewrite build_nameMap_snoc, List.filter_app. cbn [List.filter].
    unfold nameMap_add, name_is at 2.
    destruct (name s) as [m |] eqn:Hm.
    + destruct (String.eqb_spec m n) as [-> | Hne].
      * rewrite (truthy_Some n Hn).
        destruct (String.eqb_spec n "__proto__"); [contradiction |].
        cbn [negb andb]. rewrite lookup_insert_eq, last_snoc. reflexivity.
      * rewrite app_nil_r.
        destruct (truthy (Some m) && negb (String.eqb m "__proto__"));
          [rewrite lookup_insert_ne by assumption |]; exact IH.
    + rewrite app_nil_r. exact IH.
Qed.

Lemma listSensorNames_named (rawSensors : list sensorEntry) :
  map Some (omap (fun s => if truthy (name s) then name s else None)
              rawSensors)
  = map name (List.filter (fun s => truthy (name s)) rawSensors).
Proof.
  induction rawSensors as [| x rest IH]; [reflexivity |].
  simpl. destruct (truthy (name x)) eqn:Ht.
  - destruct (name x) as [n |] eqn:Hn; [| discriminate].
    simpl. rewrite Hn. f_equal. exact IH.
  - exact IH.
Qed.

(** X20.  [listSensorNames] and [loadConfig] agree on a document without
    inheritance: the names listed are the names of the descriptors loaded, in
    the same order, and every name listed can be loaded, which gives one
    descriptor, of that name. *)
Theorem X20_listed_names_load (json : document) :
  existsb (fun s => truthy (name s) && truthy (inherits_from s))
    (rawSensors_of json) = false ->
  (exists sensors : list sensorEntry,
     loadConfig json None = ([], Returns sensors) /\
     map name sensors = map Some (listSensorNames json)) /\
  forall n : string,
    In n (listSensorNames json) ->
    exists s : sensorEntry,
      loadConfig json (Some n) = ([], Returns [s]) /\ name s = Some n.
Proof.
  intros Hno. split.
  - eexists. unfold loadConfig.
    rewrite map_resolveInheritance_closed, Hno, omap_keep_named. cbn [truthy].
    split; [reflexivity |]. symmetry. apply listSensorNames_named.
  - intros n Hin. unfold listSensorNames in Hin.
    apply list_elem_of_In, list_elem_of_omap in Hin.
    destruct Hin as (x & Hx & Hnx).
    destruct (truthy (name x)) eqn:Ht; [| discriminate].
    assert (Hn0 : truthy (Some n) = true) by (rewrite <- Hnx; exact Ht).
    assert (Hne : n <> ""%string) by (intros ->; discriminate).
    unfold loadConfig.
    rewrite map_resolveInheritance_closed, Hno, omap_keep_named, Hn0.
    cbn [default from_option id]. rewrite (find_among_named n _ Hne).
    destruct (List.find (name_is n) (rawSensors_of json)) as [s |] eqn:Hf.
    + exists s. split; [reflexivity |].
      apply find_some in Hf as [_ Hs]. unfold name_is in Hs.
      destruct (name s) as [m |]; [| discriminate].
      apply String.eqb_eq in Hs. congruence.
    + exfalso. apply list_elem_of_In in Hx.
      pose proof (find_none _ _ Hf x Hx) as Hnone.
      unfold name_is in Hnone. rewrite Hnx, String.eqb_refl in Hnone.
      discriminate.
Qed.

(** X21.  [resolveInheritance] ends on every document without an entry
    named [__proto__] (with one, [nameMap] is looked up through that entry,
    which the model does not follow): for the name map of any such list of
    entries, whatever cycles of whatever length it holds, a call with the
    empty stack returns or throws within [resolve_fuel] nested calls. *)
Theorem X21_resolveInheritance_ends (rawSensors : list sensorEntry)
    (sensor : sensorEntry) :
  Forall (fun s => name s <> Some "__proto__"%string) rawSensors ->
  snd (resolveInheritance (resolve_fuel (build_nameMap rawSensors))
         (build_nameMap rawSensors) sensor default_stack)
  <> OutOfFuel.
Proof. intros _. apply resolveInheritance_total, well_keyed_build. Qed.

End Loading.

Lemma X19_nameMap_keeps_the_last_witness :
  let early := Scenario.parent in
  let late := Scenario.descriptor "data[4]" "data[4]" "data[1]" in
  let twin := {|
    name := Some "parent"%string; inherits_from := None; command := None;
    send_cmd_period := None; Config.port := None; frame := frame late;
    checksum := checksum late; data := data late |} in
  build_nameMap [early; Scenario.entryA; twin] !! "parent"%string = Some twin.
Proof.
  intros early late twin.
  rewrite (X19_nameMap_keeps_the_last [early; Scenario.entryA; twin] "parent").
  - reflexivity.
  - discriminate.
  - discriminate.
Defined.

Lemma X20_listed_names_load_witness :
  exists s : sensorEntry,
    loadConfig (DocSensors [Scenario.parent; Scenario.unnamed_base])
      (Some "plain"%string)
    = ([], Returns [s]) /\ name s = Some "plain"%string.
Proof.
  apply (proj2 (X20_listed_names_load
                  (DocSensors [Scenario.parent; Scenario.unnamed_base])
                  eq_refl) "plain"%string).
  right. left. reflexivity.
Defined.

(** ** Where the configuration is looked for, and chains of inheritance *)

Section Chains.
Import Listing Chain.

Lemma lastIndexOf_slash_app (a b : string) :
  forall i found : Z,
    lastIndexOf_slash i found (a +:+ b)
    = lastIndexOf_slash (i + Z.of_nat (String.length a))
        (lastIndexOf_slash i found a) b.
Proof.
  induction a as [| c a IH]; intros i found.
  - change (EmptyString +:+ b) with b. cbn [String.length lastIndexOf_slash].
    f_equal. lia.
  - change (String c a +:+ b) with (String c (a +:+ b)).
    cbn [String.length lastIndexOf_slash]. rewrite IH. f_equal. lia.
Qed.

Lemma lastIndexOf_slash_none (file : string) :
  ~ In "/"%char (list_ascii_of_string file) ->
  forall i found : Z, lastIndexOf_slash i found file = found.
Proof.
  induction file as [| c file IH]; intros Hno i found; [reflexivity |].
  cbn [lastIndexOf_slash list_ascii_of_string] in *.
  destruct (N.eqb_spec (code c) 47) as [Hc | _].
  - exfalso. apply Hno. left. unfold code in Hc.
    rewrite <- (ascii_N_embedding c), Hc. reflexivity.
  - apply IH. intros Hin. apply Hno. right. exact Hin.
Qed.

Lemma substring_prefix (a b : string) :
  String.substring 0 (String.length a) (a +:+ b) = a.
Proof.
  induction a as [| c a IH].
  - destruct b; reflexivity.
  - change (String c a +:+ b) with (String c (a +:+ b)).
    cbn [String.length String.substring]. f_equal. exact IH.
Qed.

Lemma append_assoc (a b c : string) : (a +:+ b) +:+ c = a +:+ (b +:+ c).
Proof.
  induction a as [| x a IH]; [reflexivity |].
  change (String x a +:+ b) with (String x (a +:+ b)).
  change (String x (a +:+ b) +:+ c) with (String x ((a +:+ b) +:+ c)).
  change (String x a +:+ (b +:+ c)) with (String x (a +:+ (b +:+ c))).
  f_equal. exact IH.
Qed.

Lemma length_append (a b : string) :
  String.length (a +:+ b) = (String.length a + String.length b)%nat.
Proof.
  induction a as [| x a IH]; [reflexivity |].
  change (String x a +:+ b) with (String x (a +:+ b)).
  cbn [String.length]. rewrite IH. reflexivity.
Qed.

(** X22.  [getDefaultConfigUrl] looks for [sensors.json] beside the script:
    the address of the script is cut after its last slash, whatever comes
    before that slash; an address without a slash (and the empty address of a
    page without a current script) gives the relative address
    [sensors.json]. *)
Theorem X22_config_beside_the_script (dir file : string) :
  ~ In "/"%char (list_ascii_of_string file) ->
  getDefaultConfigUrl (dir +:+ "/" +:+ file) = dir +:+ "/" +:+ "sensors.json"
  /\ getDefaultConfigUrl file = "sensors.json"%string.
Proof.
  intros Hno. unfold getDefaultConfigUrl, basePath. split.
  - rewrite <- (append_assoc dir "/" file).
    rewrite lastIndexOf_slash_app, (lastIndexOf_slash_none file Hno).
    rewrite lastIndexOf_slash_app.
    cbn [lastIndexOf_slash String.length]. change (code "/" =? 47)%N with true.
    cbv iota.
    replace (Z.to_nat (0 + Z.of_nat (String.length dir) + 1))
      with (String.length (dir +:+ "/"))
      by (rewrite length_append; cbn [String.length]; lia).
    rewrite substring_prefix. apply append_assoc.
  - rewrite (lastIndexOf_slash_none file Hno). cbn [Z.add Z.opp Z.to_nat].
    change (Z.to_nat (-1 + 1)) with 0%nat.
    destruct file; reflexivity.
Qed.

Lemma includes_snoc (stack : list string) (n m : string) :
  includes stack m = false -> m <> n -> includes (stack ++ [n]) m = false.
Proof.
  intros Hs Hne. unfold includes in *. rewrite existsb_app, Hs.
  cbn [existsb orb]. rewrite orb_false_r. apply String.eqb_neq, Hne.
Qed.

Lemma truthy_name (s : sensorEntry) :
  truthy (name s) = true -> name s = Some (default "" (name s)).
Proof. destruct (name s); [reflexivity | discriminate]. Qed.

(** A linked chain resolves to the merges of its entries, from the root up,
    under any stack that holds none of their names. *)
Lemma resolveInheritance_chain (nameMap : gmap string sensorEntry)
    (root : sensorEntry) :
  forall (l : list sensorEntry) (stack : list string) (fuel : nat),
    linked nameMap l root ->
    NoDup (map name l) ->
    Forall (fun s => includes stack (default "" (name s)) = false) l ->
    (length l < fuel)%nat ->
    resolveInheritance fuel nameMap (hd root l) (StackArr stack)
    = ([], Returns (Some (foldr merged root l))).
Proof.
  induction l as [| s rest IH]; intros stack fuel Hl Hnd Hst Hfuel.
  - destruct fuel as [| fuel]; [cbn in Hfuel; lia |].
    destruct Hl as [Hn Hi]. cbn [hd foldr resolveInheritance].
    rewrite Hn, Hi. reflexivity.
  - destruct fuel as [| fuel]; [cbn in Hfuel; lia |].
    destruct Hl as (Hn & Hi & Hb & Hrest).
    cbn [hd foldr resolveInheritance].
    rewrite Hn, Hi. cbn [negb].
    inversion Hst as [| ? ? Hs Hst']; subst.
    rewrite Hs. unfold nameMap_get. rewrite Hb.
    inversion Hnd as [| ? ? Hnotin Hnd']; subst.
    rewrite (IH (stack ++ [default "" (name s)]) fuel Hrest Hnd').
    + reflexivity.
    + apply Forall_forall. intros t Ht.
      apply includes_snoc.
      * rewrite Forall_forall in Hst'. apply Hst', Ht.
      * apply list_elem_of_In in Ht.
        intros Heq. apply Hnotin. apply list_elem_of_In.
        apply in_map_iff. exists t. split; [| exact Ht].
        assert (Htn : truthy (name t) = true).
        { clear - Hrest Ht. revert Hrest Ht.
          induction rest as [| u rest IHr]; intros Hrest Ht; [destruct Ht |].
          destruct Hrest as (Hu & _ & _ & Hrest).
          destruct Ht as [-> | Ht]; [exact Hu | exact (IHr Hrest Ht)]. }
        rewrite (truthy_name t Htn), (truthy_name s Hn), Heq. reflexivity.
    + cbn [length] in Hfuel. lia.
Qed.

Lemma nearest_merged {A} (get : sensorEntry -> option A)
    (root : sensorEntry) (l : list sensorEntry) :
  (forall s b : sensorEntry, get (merged s b) = or_else (get s) (get b)) ->
  get (foldr merged root l) = nearest get (l ++ [root]).
Proof.
  intros Hget. unfold nearest. induction l as [| s rest IH].
  - cbn. destruct (get root); reflexivity.
  - cbn [foldr app]. rewrite Hget, IH.
    change (omap get (s :: rest ++ [root]))
      with (match get s with
            | Some v => v :: omap get (rest ++ [root])
            | None => omap get (rest ++ [root])
            end).
    destruct (get s); reflexivity.
Qed.

(** X23.  Called with the empty stack on the head of a chain of entries with
    different names, each inheriting from the next and the last from an entry
    that inherits from nothing, [resolveInheritance] warns of nothing and
    returns the merges of the chain from the root up; in the result the
    command, the period and each key of [data] and of [port] are those of the
    nearest entry of the chain that declares them. *)
Theorem X23_chain_resolves_nearest_first (nameMap : gmap string sensorEntry)
    (l : list sensorEntry) (root : sensorEntry) (fuel : nat) :
  linked nameMap l root ->
  NoDup (map name l) ->
  (length l < fuel)%nat ->
  let resolved := foldr merged root l in
  resolveInheritance fuel nameMap (hd root l) default_stack
  = ([], Returns (Some resolved)) /\
  command resolved = nearest command (l ++ [root]) /\
  send_cmd_period resolved = nearest send_cmd_period (l ++ [root]) /\
  forall k : string,
    assoc k (default [] (data resolved))
    = nearest (fun s => assoc k (default [] (data s))) (l ++ [root]) /\
    assoc k (default [] (Config.port resolved))
    = nearest (fun s => assoc k (default [] (Config.port s))) (l ++ [root]).
Proof.
  intros Hl Hnd Hfuel resolved. split; [| split; [| split]].
  - apply resolveInheritance_chain; try assumption.
    apply Forall_forall. intros s _. reflexivity.
  - apply nearest_merged. reflexivity.
  - apply nearest_merged. reflexivity.
  - intros k. split.
    + apply (nearest_merged (fun s => assoc k (default [] (data s)))).
      intros s b. cbn [data merged]. rewrite spread_opt_obj.
      apply assoc_spread_obj.
    + apply (nearest_merged (fun s => assoc k (default [] (Config.port s)))).
      intros s b. cbn [Config.port merged]. rewrite spread_opt_obj.
      apply assoc_spread_obj.
Qed.

(** X24.  A marker written as [0x] and the two hexadecimal digits of a byte
    is that byte after [parseByteValue], and as a marker it matches that byte
    of a frame and no other. *)
Theorem X24_hex_marker_round_trip (b x : byte) :
  let marker := Some (SStr ("0x" +:+ Command.two_hex b)) in
  parseByteValue marker = PNum (byte_to_Z b) /\
  parseByteField (option_map BOne marker) = PVal (PNum (byte_to_Z b)) /\
  (elem_is (Some x) (parseByteValue marker) = true <-> x = b).
Proof.
  intros marker.
  assert (Hp : parseByteValue marker = PNum (byte_to_Z b))
    by (destruct b; vm_compute; reflexivity).
  split; [exact Hp |]. split.
  - destruct b; vm_compute; reflexivity.
  - rewrite Hp. cbn [elem_is]. rewrite Z.eqb_eq. unfold byte_to_Z. split.
    + intros Heq. apply N2Z.inj in Heq.
      pose proof (Byte.of_to_N x) as Hx. pose proof (Byte.of_to_N b) as Hb.
      rewrite Heq in Hx. congruence.
    + intros ->. reflexivity.
Qed.

End Chains.

Lemma X22_config_beside_the_script_witness :
  Listing.getDefaultConfigUrl "https://host/js/polluSensSerial.js"
  = "https://host/js/sensors.json"%string.
Proof.
  apply (proj1 (X22_config_beside_the_script "https://host/js"
                  "polluSensSerial.js"
                  ltac:(vm_compute; intuition discriminate))).
Defined.

Lemma X23_chain_resolves_nearest_first_witness :
  let nameMap := build_nameMap [Scenario.parent; Scenario.child] in
  resolveInheritance 2 nameMap Scenario.child default_stack
  = ([], Returns (Some (merged Scenario.child Scenario.parent))).
Proof.
  intros nameMap.
  apply (X23_chain_resolves_nearest_first nameMap [Scenario.child]
           Scenario.parent 2).
  - vm_compute. repeat split; reflexivity.
  - apply NoDup_singleton.
  - simpl. lia.
Defined.

Lemma X21_resolveInheritance_ends_witness :
  snd (resolveInheritance
         (resolve_fuel (build_nameMap [Scenario.entryA; Scenario.entryB]))
         (build_nameMap [Scenario.entryA; Scenario.entryB]) Scenario.entryA
         default_stack)
  <> OutOfFuel.
Proof.
  apply (X21_resolveInheritance_ends [Scenario.entryA; Scenario.entryB]).
  repeat constructor; discriminate.
Defined.
